(** * useServerSentEvents: the connection / retry state machine

    A shallow embedding of [src/hooks/useServerSentEvents.ts].

    Conventions of the embedding:
    - the delays are computed in IEEE 754 binary64, as JavaScript does:
      [initialDelayMs], [maxDelayMs], [backoffFactor], [jitterFactor], the
      draw of [Math.random()] and every delay are [spec_float] values of
      the Standard Library's [SpecFloat] with 53 bits of precision, with
      their infinities, signed zeros and NaN, and [*], [+], [-] are its
      correctly rounded [SFmul], [SFadd], [SFsub];
    - [Math.pow] is not fixed by the language beyond being an approximation
      of the power: it is a parameter, [Math_pow], of everything that
      computes a delay; its exponent is always an attempt count;
    - [maxAttempts] is only compared with the attempt count and printed in a
      message; it is an exact rational ([Q]), which every finite double is;
      attempt counts and [retryCount] are naturals, as the hook only ever
      stores [0] and [attempt + 1] in them;
    - [Math.random()] is an extra argument [rnd] of the functions that draw
      from it; the runtime returns doubles with [0 <= rnd < 1];
    - the React state cells ([useState]) and the refs ([useRef]) are the
      fields of one record, [World], threaded through every handler; a
      [setX] call is a field update;
    - values captured by a closure (the [retryCount] seen by the handlers
      that [setupEventHandlers] builds, the [attempt] of a timer callback)
      are stored with the listener or timer that holds the closure;
    - the consumer callbacks [onOpen], [onClose] and [onError] are
      notifications that return normally: the options say whether one is
      registered and the world keeps the list of calls made, in order;
      [onMessage] is called inside the message handler's [try] block, so
      the options also say, for each event, whether it returns or throws;
    - a decoder ([JSON.parse] or [parseData]) may throw, or return [null]:
      the result of decoding is [None] for a throw and [Some d] for a
      value, where [d] is what the [data] cell then holds ([None] for
      [null]);
    - the options are the same in every render;
    - the transport delivers three kinds of signals, open, named message
      and error, each to the handler bound for it: the bound event name is
      taken to differ from ['open'] and ['error'], and a message event that
      the server names ['open'] or ['error'] is not among the events
      modelled;
    - [reconnect] is the function of some render: the [retryCount] its
      [setupEventHandlers] closes over is an argument of the call;
    - timers carry no clock: a pending timer may fire at any later step. *)

From Stdlib Require Import QArith Lia ZArith Arith Bool List String SpecFloat.
Import ListNotations.

Local Open Scope string_scope.
Local Open Scope list_scope.

(** ** IEEE 754 binary64 *)

Section Doubles.

Local Open Scope Z_scope.

(** The format: 53 bits of precision, exponents below 1024. *)
Definition prec : Z := 53.
Definition emax : Z := 1024.

(** A shift to the right that dropped no set bit. *)
Definition nothingLost (r : shr_record) : Prop := shr_r r = false /\ shr_s r = false.

(** The value [m * 2 ^ e], scaled by [2 ^ bias] so that it is an integer
    for every exponent the operations below meet. *)
Definition bias : Z := 2200.
Definition val (m e : Z) : Z := m * 2 ^ (e + bias).

(** The mantissa and exponent of a double in its unique representation. *)
Definition canon (m : positive) (e : Z) : Prop :=
  canonical_mantissa prec emax m e = true.

(** The order of [SFcompare] on positive finite doubles. *)
Definition le_mag (m1 : positive) (e1 : Z) (m2 : positive) (e2 : Z) : Prop :=
  e1 < e2 \/ (e1 = e2 /\ (m1 <= m2)%positive).

(** [Number.isFinite(x)]. *)
Definition isFinite (x : spec_float) : bool :=
  match x with
  | S754_zero _ | S754_finite _ _ _ => true
  | _ => false
  end.

(** The sign bit; [true] for negative numbers and for [-0]. *)
Definition signbit (x : spec_float) : bool :=
  match x with
  | S754_zero s | S754_finite s _ _ | S754_infinity s => s
  | S754_nan => false
  end.

(** [x] is a value of the format. *)
Definition is_double (x : spec_float) : Prop := valid_binary prec emax x = true.

(** JavaScript's [*], [+] and [-] on numbers, and the double of an
    integer literal. *)
Definition fmul : spec_float -> spec_float -> spec_float := SFmul prec emax.
Definition fadd : spec_float -> spec_float -> spec_float := SFadd prec emax.
Definition fsub : spec_float -> spec_float -> spec_float := SFsub prec emax.
Definition ofZ (z : Z) : spec_float := binary_normalize prec emax z 0 false.

(** The doubles [0], [1] and [2]. *)
Definition zero : spec_float := S754_zero false.
Definition one : spec_float := S754_finite false 4503599627370496 (-52).
Definition two : spec_float := S754_finite false 4503599627370496 (-51).

(** [|x| <= |y|] for finite [x] and [y]. *)
Definition mag_le (x y : spec_float) : Prop :=
  match x, y with
  | S754_zero _, (S754_zero _ | S754_finite _ _ _) => True
  | S754_finite _ m1 e1, S754_finite _ m2 e2 => le_mag m1 e1 m2 e2
  | _, _ => False
  end.

(** [x] is the rounding of the exact magnitude [v], with sign [s]. *)
Definition rounds_to (s : bool) (v : Z) (x : spec_float) : Prop :=
  x = S754_zero s \/
  exists m3 e3,
    canon m3 e3 /\
    (forall mf ef, canon mf ef -> v <= val (Zpos mf) ef ->
       val (Zpos m3) e3 <= val (Zpos mf) ef) /\
    x = if e3 <=? emax - prec then S754_finite s m3 e3 else S754_infinity s.

(** [rec] is what [k] right shifts make of the mantissa [M]: the quotient,
    the last bit shifted out and whether a bit was set below it. *)
Definition represents (M k : Z) (rec : shr_record) : Prop :=
  shr_m rec = M / 2 ^ k /\
  ((k = 0 /\ shr_r rec = false /\ shr_s rec = false) \/
   (1 <= k /\ shr_r rec = ((M / 2 ^ (k - 1)) mod 2 =? 1) /\
    shr_s rec = negb (M mod 2 ^ (k - 1) =? 0))).

(** [q] is the integer nearest to [M / 2 ^ p], the even one on a tie. *)
Definition nearest (M p q : Z) : Prop :=
  2 * M <= 2 * (q * 2 ^ p) + 2 ^ p /\
  2 * (q * 2 ^ p) - 2 ^ p <= 2 * M /\
  (2 * M = 2 * (q * 2 ^ p) + 2 ^ p -> Z.even q = true) /\
  (2 * M = 2 * (q * 2 ^ p) - 2 ^ p -> Z.even q = true).

(** The value of a finite double, scaled like [val]. *)
Definition sval (x : spec_float) : Z :=
  match x with
  | S754_finite s m e => cond_Zopp s (val (Zpos m) e)
  | _ => 0
  end.

(** [r] is the rounding of the exact value [v >= 0]. *)
Definition rounding_of (v : Z) (r : spec_float) : Prop :=
  (v = 0 /\ exists s, r = S754_zero s) \/
  (0 < v /\ exists z e, - bias <= e /\ 0 < z /\ val z e = v /\
                        r = binary_normalize prec emax z e false).

(** [Math.min(x, y)]: [NaN] if either argument is, and [-0] is below
    [+0]. *)
Definition Math_min (x y : spec_float) : spec_float :=
  match SFcompare x y with
  | None => S754_nan
  | Some Lt => x
  | Some Gt => y
  | Some Eq =>
      match x, y with
      | S754_zero false, S754_zero true => y
      | _, _ => x
      end
  end.

(** The double [0.1], the one nearest to one tenth, [0.5] and [0.25]. *)
Definition tenth : spec_float := S754_finite false 7205759403792794 (-56).
Definition half : spec_float := S754_finite false 4503599627370496 (-53).
Definition quarter : spec_float := S754_finite false 4503599627370496 (-54).

End Doubles.

(** ** Data model *)

(** [SSEStatus]: 'CONNECTING' | 'OPEN' | 'CLOSED' | 'ERROR'. *)
Inductive SSEStatus : Type := CONNECTING | OPEN | CLOSED | ERROR.

(** The three messages an [SSEError] is built with.  [FailedAfter m] stands
    for the template [`Failed to connect after ${m} attempts`]. *)
Inductive ErrorText : Type :=
| FailedToParse
| EventSourceFailed
| FailedAfter (m : Q).

(** [class SSEError extends Error]: a message and an optional code. *)
Record SSEError : Type := mkSSEError {
  message : ErrorText;
  code : option string
}.

(** [interface RetryConfig]; [shouldRetry] and [jitterFactor] are optional
    members. *)
Record RetryConfig : Type := mkRetryConfig {
  maxAttempts : Q;
  initialDelayMs : spec_float;
  maxDelayMs : spec_float;
  backoffFactor : spec_float;
  shouldRetry : option (SSEError -> nat -> bool);
  jitterFactor : option spec_float
}.

(** [Partial<RetryConfig>]: an absent key is [None]; the two optional
    members may also be present and hold [undefined] ([Some None]). *)
Record PartialRetryConfig : Type := mkPartialRetryConfig {
  p_maxAttempts : option Q;
  p_initialDelayMs : option spec_float;
  p_maxDelayMs : option spec_float;
  p_backoffFactor : option spec_float;
  p_shouldRetry : option (option (SSEError -> nat -> bool));
  p_jitterFactor : option (option spec_float)
}.

Definition DEFAULT_RETRY_CONFIG : RetryConfig :=
  {| maxAttempts := 3;
     initialDelayMs := ofZ 1000;
     maxDelayMs := ofZ 30000;
     backoffFactor := ofZ 2;
     shouldRetry := Some (fun _ _ => true);
     jitterFactor := Some tenth |}.

Definition spread {A : Type} (dflt : A) (over : option A) : A :=
  match over with
  | Some v => v
  | None => dflt
  end.

(** [{ ...DEFAULT_RETRY_CONFIG, ...options.retry }]. *)
Definition mergeRetryConfig (over : PartialRetryConfig) : RetryConfig :=
  {| maxAttempts := spread (maxAttempts DEFAULT_RETRY_CONFIG) (p_maxAttempts over);
     initialDelayMs := spread (initialDelayMs DEFAULT_RETRY_CONFIG) (p_initialDelayMs over);
     maxDelayMs := spread (maxDelayMs DEFAULT_RETRY_CONFIG) (p_maxDelayMs over);
     backoffFactor := spread (backoffFactor DEFAULT_RETRY_CONFIG) (p_backoffFactor over);
     shouldRetry := spread (shouldRetry DEFAULT_RETRY_CONFIG) (p_shouldRetry over);
     jitterFactor := spread (jitterFactor DEFAULT_RETRY_CONFIG) (p_jitterFactor over) |}.

Definition noOverrides : PartialRetryConfig :=
  {| p_maxAttempts := None; p_initialDelayMs := None; p_maxDelayMs := None;
     p_backoffFactor := None; p_shouldRetry := None; p_jitterFactor := None |}.

(** ** Backoff delay *)

Section Backoff.

(** [Math.pow(base, attempt)]. *)
Variable Math_pow : spec_float -> nat -> spec_float.

(** [retryConfig.jitterFactor || 0]: a factor that is missing, a zero or
    [NaN] gives [0]. *)
Definition jitterFactorOr0 (cfg : RetryConfig) : spec_float :=
  match jitterFactor cfg with
  | Some (S754_zero _) | Some S754_nan | None => zero
  | Some j => j
  end.

(** [initialDelayMs * Math.pow(backoffFactor, attempt)]. *)
Definition baseDelay (cfg : RetryConfig) (attempt : nat) : spec_float :=
  fmul (initialDelayMs cfg) (Math_pow (backoffFactor cfg) attempt).

(** [baseDelay * (jitterFactor || 0) * (Math.random() * 2 - 1)]. *)
Definition jitter (cfg : RetryConfig) (attempt : nat) (rnd : spec_float) : spec_float :=
  fmul (fmul (baseDelay cfg attempt) (jitterFactorOr0 cfg))
       (fsub (fmul rnd two) one).

(** [Math.min(baseDelay + jitter, retryConfig.maxDelayMs)]. *)
Definition calculateRetryDelay (cfg : RetryConfig) (attempt : nat) (rnd : spec_float)
    : spec_float :=
  Math_min (fadd (baseDelay cfg attempt) (jitter cfg attempt rnd)) (maxDelayMs cfg).

End Backoff.

(** ** Options, session state and the world around it *)

(** How a call of a consumer callback ends. *)
Inductive Outcome : Type := Returns | Throws.

(** [interface UseSSEOptions<T>].  [onError], [onOpen] and [onClose] are
    [true] when the consumer registered one; a registered [onMessage] is
    given with the outcome of calling it on an event with the given data;
    [parseData] returns [None] where the decoder throws and [Some None]
    where it returns [null]. *)
Record UseSSEOptions (T : Type) : Type := mkOptions {
  onMessage : option (string -> Outcome);
  onError : bool;
  onOpen : bool;
  onClose : bool;
  withCredentials : option bool;
  eventName : option string;
  parseData : option (string -> option (option T));
  retry : PartialRetryConfig
}.

Arguments mkOptions {T}.
Arguments onMessage {T}.
Arguments onError {T}.
Arguments onOpen {T}.
Arguments onClose {T}.
Arguments withCredentials {T}.
Arguments eventName {T}.
Arguments parseData {T}.
Arguments retry {T}.

(** One [EventSource] object: what it was constructed with, whether
    [close()] was called on it, and the handlers bound to it.  The three
    handlers are bound and removed together; [Some rc] records that they
    are bound and that their closure holds [retryCount = rc]. *)
Record EventSource : Type := mkEventSource {
  es_url : string;
  es_withCredentials : option bool;
  es_closed : bool;
  es_listeners : option nat
}.

(** A pending [setTimeout]: its handle, its delay and the [attempt] its
    callback closes over. *)
Record Timeout : Type := mkTimeout {
  tm_id : nat;
  tm_delay : spec_float;
  tm_attempt : nat
}.

(** A call made to a consumer callback.  [OnError None] carries the raw
    transport event, [OnError (Some e)] the synthesized [ErrorEvent]. *)
Inductive Callback : Type :=
| OnOpen
| OnClose
| OnMessage (payload : string)
| OnError (e : option SSEError).

(** The hook instance: state cells, refs, and the objects it created. *)
Record World (T : Type) : Type := mkWorld {
  status : SSEStatus;
  data : option T;
  error : option SSEError;
  retryCount : nat;
  eventSourceRef : option nat;
  retryTimeoutRef : option nat;
  isMounted : bool;
  effectSource : option nat;
  sources : list EventSource;
  timers : list Timeout;
  nextTimeoutId : nat;
  calls : list Callback
}.

Arguments mkWorld {T}.
Arguments status {T}.
Arguments data {T}.
Arguments error {T}.
Arguments retryCount {T}.
Arguments eventSourceRef {T}.
Arguments retryTimeoutRef {T}.
Arguments isMounted {T}.
Arguments effectSource {T}.
Arguments sources {T}.
Arguments timers {T}.
Arguments nextTimeoutId {T}.
Arguments calls {T}.

Fixpoint updateAt {A : Type} (i : nat) (f : A -> A) (l : list A) : list A :=
  match l, i with
  | [], _ => []
  | x :: r, O => f x :: r
  | x :: r, S k => x :: updateAt k f r
  end.

Definition closeEventSource (src : EventSource) : EventSource :=
  {| es_url := es_url src; es_withCredentials := es_withCredentials src;
     es_closed := true; es_listeners := es_listeners src |}.

Definition setListeners (l : option nat) (src : EventSource) : EventSource :=
  {| es_url := es_url src; es_withCredentials := es_withCredentials src;
     es_closed := es_closed src; es_listeners := l |}.

Section Hook.

Variable T : Type.

(** [Math.pow(base, attempt)]. *)
Variable Math_pow : spec_float -> nat -> spec_float.

(** [JSON.parse], the default decoder; [None] where it throws, [Some None]
    where it returns [null]. *)
Variable JSON_parse : string -> option (option T).

Variable url : string.
Variable options : UseSSEOptions T.

Let W := World T.

(** *** State and ref updates *)

Definition setStatus (s : SSEStatus) (w : W) : W :=
  mkWorld s (data w) (error w) (retryCount w) (eventSourceRef w)
    (retryTimeoutRef w) (isMounted w) (effectSource w) (sources w)
    (timers w) (nextTimeoutId w) (calls w).

Definition setData (d : option T) (w : W) : W :=
  mkWorld (status w) d (error w) (retryCount w) (eventSourceRef w)
    (retryTimeoutRef w) (isMounted w) (effectSource w) (sources w)
    (timers w) (nextTimeoutId w) (calls w).

Definition setError (e : option SSEError) (w : W) : W :=
  mkWorld (status w) (data w) e (retryCount w) (eventSourceRef w)
    (retryTimeoutRef w) (isMounted w) (effectSource w) (sources w)
    (timers w) (nextTimeoutId w) (calls w).

Definition setRetryCount (n : nat) (w : W) : W :=
  mkWorld (status w) (data w) (error w) n (eventSourceRef w)
    (retryTimeoutRef w) (isMounted w) (effectSource w) (sources w)
    (timers w) (nextTimeoutId w) (calls w).

Definition setEventSourceRef (r : option nat) (w : W) : W :=
  mkWorld (status w) (data w) (error w) (retryCount w) r
    (retryTimeoutRef w) (isMounted w) (effectSource w) (sources w)
    (timers w) (nextTimeoutId w) (calls w).

Definition setIsMounted (b : bool) (w : W) : W :=
  mkWorld (status w) (data w) (error w) (retryCount w) (eventSourceRef w)
    (retryTimeoutRef w) b (effectSource w) (sources w)
    (timers w) (nextTimeoutId w) (calls w).

Definition setEffectSource (r : option nat) (w : W) : W :=
  mkWorld (status w) (data w) (error w) (retryCount w) (eventSourceRef w)
    (retryTimeoutRef w) (isMounted w) r (sources w)
    (timers w) (nextTimeoutId w) (calls w).

Definition setSources (l : list EventSource) (w : W) : W :=
  mkWorld (status w) (data w) (error w) (retryCount w) (eventSourceRef w)
    (retryTimeoutRef w) (isMounted w) (effectSource w) l
    (timers w) (nextTimeoutId w) (calls w).

Definition setTimers (l : list Timeout) (w : W) : W :=
  mkWorld (status w) (data w) (error w) (retryCount w) (eventSourceRef w)
    (retryTimeoutRef w) (isMounted w) (effectSource w) (sources w)
    l (nextTimeoutId w) (calls w).

(** [cb?.(...)]: the call is made only when a callback is registered. *)
Definition notify (registered : bool) (c : Callback) (w : W) : W :=
  if registered
  then mkWorld (status w) (data w) (error w) (retryCount w) (eventSourceRef w)
         (retryTimeoutRef w) (isMounted w) (effectSource w) (sources w)
         (timers w) (nextTimeoutId w) (calls w ++ [c])
  else w.

(** *** The transport and the timers *)

(** [sse.close()] on the source numbered [i]. *)
Definition closeSource (i : nat) (w : W) : W :=
  setSources (updateAt i closeEventSource (sources w)) w.

(** [retryTimeoutRef.current = setTimeout(callback, delay)], the callback
    closing over [attempt].  Handles are positive, hence truthy. *)
Definition setRetryTimeout (delay : spec_float) (attempt : nat) (w : W) : W :=
  mkWorld (status w) (data w) (error w) (retryCount w) (eventSourceRef w)
    (Some (nextTimeoutId w)) (isMounted w) (effectSource w) (sources w)
    (timers w ++ [mkTimeout (nextTimeoutId w) delay attempt])
    (S (nextTimeoutId w)) (calls w).

(** [clearTimeout(id)]; clearing a handle that is not pending does nothing. *)
Definition clearTimeout (id : nat) (w : W) : W :=
  setTimers (filter (fun t => negb (Nat.eqb (tm_id t) id)) (timers w)) w.

(** [if (retryTimeoutRef.current) clearTimeout(retryTimeoutRef.current)]. *)
Definition clearRetryTimeout (w : W) : W :=
  match retryTimeoutRef w with
  | Some id => clearTimeout id w
  | None => w
  end.

(** *** The hook's functions *)

Definition retryConfig : RetryConfig := mergeRetryConfig (retry options).

Definition close (w : W) : W :=
  let w1 :=
    match eventSourceRef w with
    | Some i =>
        notify (onClose options) OnClose
          (setStatus CLOSED (setEventSourceRef None (closeSource i w)))
    | None => w
    end in
  clearRetryTimeout w1.

Definition createEventSource (w : W) : nat * W :=
  let w1 :=
    match eventSourceRef w with
    | Some i => closeSource i w
    | None => w
    end in
  let sse := List.length (sources w1) in
  let w2 :=
    setSources
      (sources w1 ++ [mkEventSource url (withCredentials options) false None]) w1 in
  (sse, setStatus CONNECTING (setEventSourceRef (Some sse) w2)).

(** The callback given to [setTimeout] by [attemptReconnect]. *)
Definition retryCallback (attempt : nat) (w : W) : W :=
  if negb (isMounted w) then w
  else snd (createEventSource (setRetryCount (attempt + 1)%nat w)).

Definition maxRetryExceeded : SSEError :=
  mkSSEError (FailedAfter (maxAttempts retryConfig)) (Some "MAX_RETRY_EXCEEDED").

Definition attemptReconnect (attempt : nat) (rnd : spec_float) (w : W) : W :=
  if negb (isMounted w) then w
  else if Qle_bool (maxAttempts retryConfig) (inject_Z (Z.of_nat attempt))
  then setError (Some maxRetryExceeded) (setStatus ERROR w)
  else setRetryTimeout (calculateRetryDelay Math_pow retryConfig attempt rnd) attempt w.

(** [options.eventName || 'message']. *)
Definition boundEventName : string :=
  match eventName options with
  | Some n => if String.eqb n "" then "message" else n
  | None => "message"
  end.

Definition decode (payload : string) : option (option T) :=
  match parseData options with
  | Some f => f payload
  | None => JSON_parse payload
  end.

Definition parseError : SSEError :=
  mkSSEError FailedToParse (Some "PARSE_ERROR").

(** The [catch] block of [messageHandler]. *)
Definition reportParseError (w : W) : W :=
  notify (onError options) (OnError (Some parseError))
    (setError (Some parseError) w).

(** The [try] block decodes, stores the value and calls [onMessage]; a
    throw of the decoder or of [onMessage] ends in the [catch] block, in
    the second case with the value already stored. *)
Definition messageHandler (payload : string) (w : W) : W :=
  if negb (isMounted w) then w
  else match decode payload with
       | Some parsedData =>
           let w1 := setData parsedData w in
           match onMessage options with
           | Some outcome =>
               let w2 := notify true (OnMessage payload) w1 in
               match outcome payload with
               | Returns => w2
               | Throws => reportParseError w2
               end
           | None => w1
           end
       | None => reportParseError w
       end.

Definition connectionError : SSEError :=
  mkSSEError EventSourceFailed (Some "CONNECTION_ERROR").

(** [retryConfig.shouldRetry?.(currentError, retryCount)] as a condition:
    a missing predicate yields [undefined], which is falsy. *)
Definition shouldRetryNow (e : SSEError) (attemptCount : nat) : bool :=
  match shouldRetry retryConfig with
  | Some f => f e attemptCount
  | None => false
  end.

(** [rc] is the [retryCount] the handler's closure holds. *)
Definition errorHandler (rc : nat) (rnd : spec_float) (w : W) : W :=
  if negb (isMounted w) then w
  else
    let currentError := connectionError in
    let w1 :=
      notify (onError options) (OnError None)
        (setError (Some currentError) (setStatus ERROR w)) in
    if shouldRetryNow currentError rc
    then attemptReconnect rc rnd w1
    else w1.

Definition openHandler (w : W) : W :=
  if negb (isMounted w) then w
  else notify (onOpen options) OnOpen
         (setRetryCount 0 (setError None (setStatus OPEN w))).

(** [setupEventHandlers(sse)], built in a render whose [retryCount] is
    [rc]: the three [addEventListener] calls. *)
Definition setupEventHandlers (rc : nat) (sse : nat) (w : W) : W :=
  setSources (updateAt sse (setListeners (Some rc)) (sources w)) w.

(** The function [setupEventHandlers] returns: three
    [removeEventListener] calls and [sse.close()]. *)
Definition cleanup (sse : nat) (w : W) : W :=
  closeSource sse
    (setSources (updateAt sse (setListeners None) (sources w)) w).

(** [reconnect] belongs to the render the consumer took it from; its
    [setupEventHandlers] holds that render's [retryCount], [rc]. *)
Definition reconnect (rc : nat) (w : W) : W :=
  let w1 := setRetryCount 0 w in
  let (sse, w2) := createEventSource w1 in
  setupEventHandlers rc sse w2.

(** The body of the [useEffect]. *)
Definition effectBody (w : W) : W :=
  let rc := retryCount w in
  let w1 := setIsMounted true w in
  let (sse, w2) := createEventSource w1 in
  setEffectSource (Some sse) (setupEventHandlers rc sse w2).

(** The function the [useEffect] returns, run on unmount and before the
    effect runs again. *)
Definition effectCleanup (w : W) : W :=
  let w1 := setIsMounted false w in
  let w2 :=
    match effectSource w1 with
    | Some sse => cleanup sse w1
    | None => w1
    end in
  clearRetryTimeout w2.

(** The [useState] and [useRef] initial values. *)
Definition initialWorld : W :=
  mkWorld CLOSED None None 0 None None true None [] [] 1 [].

(** The hook once its effect has run for the first time. *)
Definition mount : W := effectBody initialWorld.

(** *** What can happen to a mounted hook *)

(** The transport's signals on a source, a retry timer firing, the
    consumer's two commands ([reconnect] with the [retryCount] of the
    render it comes from), and React running the effect again (cleanup,
    then body, with the handlers rebuilt from the current [retryCount]) or
    unmounting the component (cleanup only). *)
Inductive Event : Type :=
| Signal_open (sse : nat)
| Signal_message (sse : nat) (name payload : string)
| Signal_error (sse : nat) (rnd : spec_float)
| Timer_fires (id : nat)
| Call_close
| Call_reconnect (rc : nat)
| Effect_rerun
| Unmount.

(** The captured [retryCount] of the handlers bound to source [sse], if it
    still delivers events: a closed [EventSource] dispatches nothing. *)
Definition listening (sse : nat) (w : W) : option nat :=
  match nth_error (sources w) sse with
  | Some src => if es_closed src then None else es_listeners src
  | None => None
  end.

Definition fireTimer (id : nat) (w : W) : W :=
  match find (fun t => Nat.eqb (tm_id t) id) (timers w) with
  | Some t => retryCallback (tm_attempt t) (clearTimeout id w)
  | None => w
  end.

(** One event; an event that cannot occur in [w] leaves it unchanged. *)
Definition handle (ev : Event) (w : W) : W :=
  match ev with
  | Signal_open sse =>
      match listening sse w with
      | Some _ => openHandler w
      | None => w
      end
  | Signal_message sse name payload =>
      match listening sse w with
      | Some _ => if String.eqb name boundEventName then messageHandler payload w else w
      | None => w
      end
  | Signal_error sse rnd =>
      match listening sse w with
      | Some rc => errorHandler rc rnd w
      | None => w
      end
  | Timer_fires id => fireTimer id w
  | Call_close => close w
  | Call_reconnect rc => reconnect rc w
  | Effect_rerun => effectBody (effectCleanup w)
  | Unmount => effectCleanup w
  end.

Definition run (evs : list Event) (w : W) : W :=
  fold_left (fun acc ev => handle ev acc) evs w.

(** The states a hook instance can be in. *)
Definition reachable (w : W) : Prop :=
  exists evs : list Event, w = run evs mount.

Definition errorCode (w : W) : option string :=
  match error w with
  | Some e => code e
  | None => None
  end.

(** The current handle names an [EventSource] that was not closed. *)
Definition liveHandle (w : W) : Prop :=
  exists sse src,
    eventSourceRef w = Some sse /\
    nth_error (sources w) sse = Some src /\
    es_closed src = false.

End Hook.

Arguments setStatus {T}.
Arguments setData {T}.
Arguments setError {T}.
Arguments setRetryCount {T}.
Arguments setEventSourceRef {T}.
Arguments setIsMounted {T}.
Arguments setEffectSource {T}.
Arguments setSources {T}.
Arguments setTimers {T}.
Arguments notify {T}.
Arguments closeSource {T}.
Arguments setRetryTimeout {T}.
Arguments clearTimeout {T}.
Arguments clearRetryTimeout {T}.
Arguments retryConfig {T}.
Arguments close {T}.
Arguments createEventSource {T}.
Arguments retryCallback {T}.
Arguments maxRetryExceeded {T}.
Arguments attemptReconnect {T}.
Arguments boundEventName {T}.
Arguments decode {T}.
Arguments reportParseError {T}.
Arguments messageHandler {T}.
Arguments shouldRetryNow {T}.
Arguments errorHandler {T}.
Arguments openHandler {T}.
Arguments setupEventHandlers {T}.
Arguments cleanup {T}.
Arguments reconnect {T}.
Arguments effectBody {T}.
Arguments effectCleanup {T}.
Arguments initialWorld {T}.
Arguments mount {T}.
Arguments listening {T}.
Arguments fireTimer {T}.
Arguments handle {T}.
Arguments run {T}.
Arguments reachable {T}.
Arguments errorCode {T}.
Arguments liveHandle {T}.


(** ** Concrete instances used by the examples *)

(** A power function for the examples: repeated multiplication, which is
    exact for the small powers of two that the examples use. *)
Definition powByMultiplying (b : spec_float) (n : nat) : spec_float :=
  Nat.iter n (fun acc => fmul acc b) one.

(** A payload type for the examples: the two JSON booleans. *)
Inductive JsonLiteral : Type := JTrue | JFalse.

(** A decoder for the examples.  It accepts the payloads [true], [false]
    and [null] and throws on every other string. *)
Definition parseLiteral (payload : string) : option (option JsonLiteral) :=
  if String.eqb payload "true" then Some (Some JTrue)
  else if String.eqb payload "false" then Some (Some JFalse)
  else if String.eqb payload "null" then Some None
  else None.

Definition testUrl : string := "http://test.com/events".

(** [useServerSentEvents(url, { onMessage, onError, onOpen, onClose })]:
    every callback registered, nothing else overridden. *)
Definition callbacksOnly : UseSSEOptions JsonLiteral :=
  mkOptions (Some (fun _ => Returns)) true true true None None None noOverrides.

(** [retry: { maxAttempts: 0, shouldRetry: () => false }]. *)
Definition neverRetry : UseSSEOptions JsonLiteral :=
  mkOptions (Some (fun _ => Returns)) true true true None None None
    {| p_maxAttempts := Some 0; p_initialDelayMs := None; p_maxDelayMs := None;
       p_backoffFactor := None;
       p_shouldRetry := Some (Some (fun _ _ => false));
       p_jitterFactor := None |}.

(** [retry: { jitterFactor: 0 }]. *)
Definition noJitter : RetryConfig :=
  mergeRetryConfig
    {| p_maxAttempts := None; p_initialDelayMs := None; p_maxDelayMs := None;
       p_backoffFactor := None; p_shouldRetry := None;
       p_jitterFactor := Some (Some zero) |}.

(** [retry: { jitterFactor: undefined }]. *)
Definition jitterUndefined : RetryConfig :=
  mergeRetryConfig
    {| p_maxAttempts := None; p_initialDelayMs := None; p_maxDelayMs := None;
       p_backoffFactor := None; p_shouldRetry := None;
       p_jitterFactor := Some None |}.

(** [retry: { maxAttempts: 2000, jitterFactor: 0 }]. *)
Definition manyAttemptsNoJitter : RetryConfig :=
  mergeRetryConfig
    {| p_maxAttempts := Some 2000; p_initialDelayMs := None; p_maxDelayMs := None;
       p_backoffFactor := None; p_shouldRetry := None;
       p_jitterFactor := Some (Some zero) |}.

(** [retry: { maxAttempts: 10 }]. *)
Definition tenAttempts : RetryConfig :=
  mergeRetryConfig
    {| p_maxAttempts := Some 10; p_initialDelayMs := None; p_maxDelayMs := None;
       p_backoffFactor := None; p_shouldRetry := None;
       p_jitterFactor := None |}.

(** A mounted hook whose connection failed once: one retry is pending. *)
Definition afterFirstError : World JsonLiteral :=
  run powByMultiplying parseLiteral testUrl callbacksOnly [Signal_error 0 half]
    (mount testUrl callbacksOnly).

(** A mounted hook whose connection is open. *)
Definition afterOpen : World JsonLiteral :=
  run powByMultiplying parseLiteral testUrl callbacksOnly [Signal_open 0]
    (mount testUrl callbacksOnly).

(** ** Invariants of the state machine *)

(** Every [EventSource] that was not closed is the one the ref holds: the
    hook keeps at most one connection alive. *)
Definition onlyCurrentIsLive {T : Type} (w : World T) : Prop :=
  forall i src,
    nth_error (sources w) i = Some src ->
    es_closed src = false ->
    eventSourceRef w = Some i.

(** While status is [OPEN] the only error the session can hold is a decode
    error. *)
Definition openErrorIsDecode {T : Type} (w : World T) : Prop :=
  status w = OPEN -> error w = None \/ errorCode w = Some "PARSE_ERROR".

Definition sessionInvariant {T : Type} (w : World T) : Prop :=
  onlyCurrentIsLive w /\
  (isMounted w = true -> status w = OPEN -> liveHandle w) /\
  openErrorIsDecode w.

(** The timers [clearRetryTimeout] leaves pending. *)
Definition uncancelled {T : Type} (w : World T) : list Timeout :=
  match retryTimeoutRef w with
  | Some id => filter (fun t => negb (Nat.eqb (tm_id t) id)) (timers w)
  | None => timers w
  end.

(** The error handler on a mounted hook, up to the retry decision. *)
Definition signalled {T : Type} (options : UseSSEOptions T) (w : World T) : World T :=
  notify (onError options) (OnError None)
    (setError (Some connectionError) (setStatus ERROR w)).

(** ** Further notions used by the proofs *)

(** The sources once [createEventSource] has closed the current one. *)
Definition sourcesAfterClosingCurrent {T : Type} (w : World T) : list EventSource :=
  match eventSourceRef w with
  | Some i => updateAt i closeEventSource (sources w)
  | None => sources w
  end.

(** A transport signal or a timer firing, as opposed to a command of the
    consumer or a step of React. *)
Definition isSignalOrTimer (ev : Event) : bool :=
  match ev with
  | Signal_open _ | Signal_message _ _ _ | Signal_error _ _ | Timer_fires _ => true
  | Call_close | Call_reconnect _ | Effect_rerun | Unmount => false
  end.

(** Every pending retry was scheduled below [maxAttempts], and
    [retryCount] was either reset or set by such a retry. *)
Definition retryBudgetKept {T : Type} (options : UseSSEOptions T) (w : World T) : Prop :=
  (forall t, In t (timers w) ->
     inject_Z (Z.of_nat (tm_attempt t)) < maxAttempts (retryConfig options)) /\
  (retryCount w = 0%nat \/
   exists attempt, retryCount w = S attempt /\
     inject_Z (Z.of_nat attempt) < maxAttempts (retryConfig options)).

(** A mounted hook between two retries: [k] retries have fired, none is
    pending, and the handlers of the current source hold [retryCount = k]. *)
Definition settled {T : Type} (k : nat) (w : World T) : Prop :=
  isMounted w = true /\
  retryCount w = k /\
  timers w = [] /\
  exists sse, eventSourceRef w = Some sse /\ listening sse w = Some k.

(** One automatic retry: the error signal on source [sse], the timer [id]
    it scheduled firing, and the effect running again. *)
Definition retryCycle (sse : nat) (rnd : spec_float) (id : nat) : list Event :=
  [Signal_error sse rnd; Timer_fires id; Effect_rerun].

(** [retry: { shouldRetry: undefined }]. *)
Definition retryPredicateUndefined : UseSSEOptions JsonLiteral :=
  mkOptions (Some (fun _ => Returns)) true true true None None None
    {| p_maxAttempts := None; p_initialDelayMs := None; p_maxDelayMs := None;
       p_backoffFactor := None; p_shouldRetry := Some None;
       p_jitterFactor := None |}.

(** The sources once the effect cleanup has unbound and closed the source
    the effect had created. *)
Definition sourcesAfterCleanup {T : Type} (w : World T) : list EventSource :=
  match effectSource w with
  | Some sse =>
      updateAt sse closeEventSource (updateAt sse (setListeners None) (sources w))
  | None => sources w
  end.

(** Automatic retries in a row, one draw each: every error signal comes on
    the current source and is followed by its own timer and by the effect
    running again. *)
Fixpoint autoRetry {T : Type} (Math_pow : spec_float -> nat -> spec_float)
    (JSON_parse : string -> option (option T)) (url : string)
    (options : UseSSEOptions T) (rnds : list spec_float) (w : World T) : World T :=
  match rnds with
  | [] => w
  | rnd :: rest =>
      match eventSourceRef w with
      | Some sse =>
          autoRetry Math_pow JSON_parse url options rest
            (run Math_pow JSON_parse url options (retryCycle sse rnd (nextTimeoutId w)) w)
      | None => w
      end
  end.

(** [useServerSentEvents(url, { onMessage, onError })] with an [onMessage]
    that throws on every event. *)
Definition throwingOnMessage : UseSSEOptions JsonLiteral :=
  mkOptions (Some (fun _ => Throws)) true false false None None None noOverrides.


(** * Proofs *)

(** ** Facts about binary64 rounding *)

Section DoubleFacts.

Local Open Scope Z_scope.

Lemma literals_ok :
  ofZ 1 = one /\ ofZ 2 = two /\
  SFdiv prec emax (ofZ 1) (ofZ 10) = tenth /\
  SFdiv prec emax (ofZ 1) (ofZ 2) = half /\
  SFdiv prec emax (ofZ 1) (ofZ 4) = quarter.
Proof. repeat apply conj; vm_compute; reflexivity. Qed.

Lemma fexp_eq (x : Z) : fexp prec emax x = Z.max (x - 53) (-1074).
Proof. reflexivity. Qed.

(** digits *)
Lemma digits2_size (m : positive) : digits2_pos m = Pos.size m.
Proof. induction m; simpl; congruence. Qed.

Lemma digits_bounds (m : positive) :
  2 ^ (Zpos (digits2_pos m) - 1) <= Zpos m < 2 ^ Zpos (digits2_pos m).
Proof.
  rewrite digits2_size. split.
  - pose proof (Pos.size_le m) as H.
    assert (H' : (2 ^ Zpos (Pos.size m) <= 2 * Zpos m)).
    { rewrite <- Pos2Z.inj_pow. change 2 with (Zpos 2) at 1. rewrite <- Pos2Z.inj_mul.
      apply Pos2Z.pos_le_pos. exact H. }
    replace (Zpos (Pos.size m)) with (Z.succ (Zpos (Pos.size m) - 1)) in H' by lia.
    rewrite Z.pow_succ_r in H' by lia. lia.
  - pose proof (Pos.size_gt m) as H.
    rewrite <- Pos2Z.inj_pow. apply Pos2Z.pos_lt_pos. exact H.
Qed.

Lemma pow2_pos (n : Z) : 0 <= n -> 0 < 2 ^ n.
Proof. intros. apply Z.pow_pos_nonneg; lia. Qed.

Lemma pow2_le (a b : Z) : 0 <= a <= b -> 2 ^ a <= 2 ^ b.
Proof. intros. apply Z.pow_le_mono_r; lia. Qed.

Lemma pow2_lt_inv (a b : Z) : 0 <= a -> 0 <= b -> 2 ^ a < 2 ^ b -> a < b.
Proof. intros Ha Hb H. apply (Z.pow_lt_mono_r_iff 2); lia. Qed.

Lemma digits_unique (m : positive) (d : Z) :
  1 <= d -> 2 ^ (d - 1) <= Zpos m < 2 ^ d -> Zpos (digits2_pos m) = d.
Proof.
  intros Hd [Hlo Hhi]. destruct (digits_bounds m) as [Blo Bhi].
  set (k := Zpos (digits2_pos m)) in *. assert (1 <= k) by (subst k; lia).
  assert (d - 1 < k) by (apply pow2_lt_inv; lia).
  assert (k - 1 < d) by (apply pow2_lt_inv; lia).
  lia.
Qed.

(** the value order on (mantissa, exponent) pairs implies the order on magnitudes *)
Lemma magnitude_le (m mf : positive) (e ef : Z) :
  e <= ef -> Zpos m <= Zpos mf * 2 ^ (ef - e) ->
  Zpos (digits2_pos m) + e <= Zpos (digits2_pos mf) + ef.
Proof.
  intros He Hle. destruct (digits_bounds m) as [Blo _].
  destruct (digits_bounds mf) as [_ Bhi].
  set (d := Zpos (digits2_pos m)) in *. set (df := Zpos (digits2_pos mf)) in *.
  assert (1 <= d) by (subst d; lia). assert (1 <= df) by (subst df; lia).
  assert (Hlt : 2 ^ (d - 1) < 2 ^ (df + (ef - e))).
  { rewrite Z.pow_add_r by lia.
    assert (0 < 2 ^ (ef - e)) by (apply pow2_pos; lia). nia. }
  apply pow2_lt_inv in Hlt; lia.
Qed.

Lemma shr_1_spec (r : shr_record) :
  0 <= shr_m r ->
  shr_m (shr_1 r) = shr_m r / 2 /\
  (nothingLost r -> shr_m r mod 2 = 0 -> nothingLost (shr_1 r)).
Proof.
  destruct r as [m rb sb]. unfold nothingLost. simpl. intros Hm.
  destruct m as [|[p|p|]|p]; simpl; try lia.
  - split; [reflexivity|]. intros [-> ->] _. split; reflexivity.
  - split; [apply Z.div_unique with 1; lia|].
    intros _ H. exfalso.
    assert (E : Zpos p~1 = 1 + Zpos p * 2) by lia.
    assert (Zpos p~1 mod 2 = 1) by (rewrite E, Z.mod_add by lia; reflexivity).
    congruence.
  - split; [apply Z.div_unique with 0; lia|].
    intros [-> ->] _. split; reflexivity.
  - split; [reflexivity|]. intros _ H. discriminate.
Qed.

Lemma div_pow2_nonneg (a n : Z) : 0 <= a -> 0 <= n -> 0 <= a / 2 ^ n.
Proof. intros. apply Z.div_pos; [lia | apply pow2_pos; lia]. Qed.

Lemma shr_iter_spec (p : positive) : forall r : shr_record,
  0 <= shr_m r ->
  shr_m (iter_pos shr_1 p r) = shr_m r / 2 ^ Zpos p /\
  (nothingLost r -> shr_m r mod 2 ^ Zpos p = 0 -> nothingLost (iter_pos shr_1 p r)).
Proof.
  induction p as [p IH|p IH|]; intros r Hm.
  - (* 2p+1 *)
    simpl iter_pos.
    destruct (shr_1_spec r Hm) as [E1 X1].
    assert (H1 : 0 <= shr_m (shr_1 r)) by (rewrite E1; apply Z.div_pos; lia).
    destruct (IH (shr_1 r) H1) as [E2 X2].
    assert (Hp : 0 < 2 ^ Zpos p) by (apply pow2_pos; lia).
    assert (H2 : 0 <= shr_m (iter_pos shr_1 p (shr_1 r)))
      by (rewrite E2; apply Z.div_pos; lia).
    destruct (IH _ H2) as [E3 X3].
    assert (Epow : 2 ^ Zpos p~1 = 2 * (2 ^ Zpos p * 2 ^ Zpos p)).
    { replace (Zpos p~1) with (1 + (Zpos p + Zpos p)) by lia.
      rewrite !Z.pow_add_r by lia. rewrite Z.pow_1_r. reflexivity. }
    split.
    + rewrite E3, E2, E1, Epow. rewrite !Z.div_div by lia. reflexivity.
    + intros Hx Hmod. rewrite Epow in Hmod.
      apply Z.mod_divide in Hmod; [|lia]. destruct Hmod as [k Hk].
      apply X3.
      * apply X2.
        -- apply X1; [exact Hx|]. rewrite Hk.
           replace (k * (2 * (2 ^ Zpos p * 2 ^ Zpos p)))
             with ((k * (2 ^ Zpos p * 2 ^ Zpos p)) * 2) by lia.
           apply Z.mod_mul. lia.
        -- rewrite E1, Hk.
           replace (k * (2 * (2 ^ Zpos p * 2 ^ Zpos p)))
             with ((k * (2 ^ Zpos p * 2 ^ Zpos p)) * 2) by lia.
           rewrite Z.div_mul by lia.
           replace (k * (2 ^ Zpos p * 2 ^ Zpos p)) with ((k * 2 ^ Zpos p) * 2 ^ Zpos p) by lia.
           apply Z.mod_mul. lia.
      * rewrite E2, E1, Hk.
        replace (k * (2 * (2 ^ Zpos p * 2 ^ Zpos p)))
          with ((k * (2 ^ Zpos p * 2 ^ Zpos p)) * 2) by lia.
        rewrite Z.div_mul by lia.
        replace (k * (2 ^ Zpos p * 2 ^ Zpos p)) with ((k * 2 ^ Zpos p) * 2 ^ Zpos p) by lia.
        rewrite Z.div_mul by lia. apply Z.mod_mul. lia.
  - (* 2p *)
    simpl iter_pos.
    destruct (IH r Hm) as [E2 X2].
    assert (Hp : 0 < 2 ^ Zpos p) by (apply pow2_pos; lia).
    assert (H2 : 0 <= shr_m (iter_pos shr_1 p r))
      by (rewrite E2; apply Z.div_pos; lia).
    destruct (IH _ H2) as [E3 X3].
    assert (Epow : 2 ^ Zpos p~0 = 2 ^ Zpos p * 2 ^ Zpos p).
    { replace (Zpos p~0) with (Zpos p + Zpos p) by lia.
      rewrite Z.pow_add_r by lia. reflexivity. }
    split.
    + rewrite E3, E2, Epow. rewrite Z.div_div by lia. reflexivity.
    + intros Hx Hmod. rewrite Epow in Hmod.
      apply Z.mod_divide in Hmod; [|lia]. destruct Hmod as [k Hk].
      apply X3.
      * apply X2; [exact Hx|]. rewrite Hk.
        replace (k * (2 ^ Zpos p * 2 ^ Zpos p)) with ((k * 2 ^ Zpos p) * 2 ^ Zpos p) by lia.
        apply Z.mod_mul. lia.
      * rewrite E2, Hk.
        replace (k * (2 ^ Zpos p * 2 ^ Zpos p)) with ((k * 2 ^ Zpos p) * 2 ^ Zpos p) by lia.
        rewrite Z.div_mul by lia. apply Z.mod_mul. lia.
  - simpl iter_pos. rewrite Z.pow_1_r. apply shr_1_spec. exact Hm.
Qed.

Lemma pow2_add (a b : Z) : 0 <= a -> 0 <= b -> 2 ^ (a + b) = 2 ^ a * 2 ^ b.
Proof. intros. apply Z.pow_add_r; assumption. Qed.

Lemma canon_inv (m : positive) (e : Z) :
  canon m e <->
  Zpos (digits2_pos m) <= 53 /\ -1074 <= e /\
  (e = -1074 \/ Zpos (digits2_pos m) = 53).
Proof.
  unfold canon, canonical_mantissa. rewrite Z.eqb_eq, fexp_eq. lia.
Qed.

Lemma val_bounds (m : positive) (e : Z) :
  - bias <= e ->
  2 ^ (Zpos (digits2_pos m) - 1 + e + bias) <= val (Zpos m) e
    < 2 ^ (Zpos (digits2_pos m) + e + bias).
Proof.
  intros He. unfold val, bias in *. destruct (digits_bounds m) as [Lo Hi].
  set (d := Zpos (digits2_pos m)) in *. assert (1 <= d) by (subst d; lia).
  assert (Hp : 0 < 2 ^ (e + 2200)) by (apply pow2_pos; lia).
  assert (E1 : 2 ^ (d - 1 + e + 2200) = 2 ^ (d - 1) * 2 ^ (e + 2200)).
  { rewrite <- pow2_add by lia. f_equal. lia. }
  assert (E2 : 2 ^ (d + e + 2200) = 2 ^ d * 2 ^ (e + 2200)).
  { rewrite <- pow2_add by lia. f_equal. lia. }
  rewrite E1, E2. split.
  - apply Z.mul_le_mono_nonneg_r; lia.
  - apply Z.mul_lt_mono_pos_r; lia.
Qed.

Lemma val_mono (m1 m2 e : Z) : - bias <= e -> m1 <= m2 -> val m1 e <= val m2 e.
Proof.
  intros He H. unfold val, bias in *.
  assert (Hp : 0 < 2 ^ (e + 2200)) by (apply pow2_pos; lia).
  apply Z.mul_le_mono_nonneg_r; lia.
Qed.

Lemma val_cancel (m1 m2 e : Z) : - bias <= e -> val m1 e <= val m2 e -> m1 <= m2.
Proof.
  intros He H. unfold val, bias in *.
  assert (Hp : 0 < 2 ^ (e + 2200)) by (apply pow2_pos; lia).
  apply Z.mul_le_mono_pos_r in H; lia.
Qed.

Lemma val_shift (m e c : Z) : - bias <= c <= e -> val m e = val (m * 2 ^ (e - c)) c.
Proof.
  intros H. unfold val, bias in *.
  replace (e + 2200) with ((e - c) + (c + 2200)) by lia.
  rewrite pow2_add by lia. ring.
Qed.

Lemma val_le_mag (m1 m2 : positive) (e1 e2 : Z) :
  canon m1 e1 -> canon m2 e2 ->
  val (Zpos m1) e1 <= val (Zpos m2) e2 -> le_mag m1 e1 m2 e2.
Proof.
  intros C1 C2 H. apply canon_inv in C1, C2.
  destruct (Z.lt_trichotomy e1 e2) as [L|[E|G]]; [left; exact L | |].
  - right. split; [exact E|]. subst e2. apply val_cancel in H; [|unfold bias; lia].
    lia.
  - exfalso.
    assert (B1 := val_bounds m1 e1). assert (B2 := val_bounds m2 e2).
    unfold bias in *.
    assert (D1 : Zpos (digits2_pos m1) = 53) by lia. rewrite D1 in B1.
    assert (2 ^ (Zpos (digits2_pos m2) + e2 + 2200) <= 2 ^ (53 - 1 + e1 + 2200))
      by (apply pow2_le; lia).
    lia.
Qed.

Lemma le_mag_val (m1 m2 : positive) (e1 e2 : Z) :
  canon m1 e1 -> canon m2 e2 ->
  le_mag m1 e1 m2 e2 -> val (Zpos m1) e1 <= val (Zpos m2) e2.
Proof.
  intros C1 C2 [L|[E Hm]]; apply canon_inv in C1, C2.
  - assert (B1 := val_bounds m1 e1). assert (B2 := val_bounds m2 e2).
    unfold bias in *.
    assert (D2 : Zpos (digits2_pos m2) = 53) by lia. rewrite D2 in B2.
    assert (2 ^ (Zpos (digits2_pos m1) + e1 + 2200) <= 2 ^ (53 - 1 + e2 + 2200))
      by (apply pow2_le; lia).
    lia.
  - subst e2. apply val_mono; [unfold bias; lia | lia].
Qed.

(** ** Rounding an exact product or sum *)

Lemma shr_fexp_exact (m : positive) (e : Z) :
  e <= fexp prec emax (Zpos (digits2_pos m) + e) ->
  exists r,
    shr_fexp prec emax (Zpos m) e loc_Exact
      = (r, fexp prec emax (Zpos (digits2_pos m) + e)) /\
    shr_m r = Zpos m / 2 ^ (fexp prec emax (Zpos (digits2_pos m) + e) - e) /\
    (Zpos m mod 2 ^ (fexp prec emax (Zpos (digits2_pos m) + e) - e) = 0 -> nothingLost r).
Proof.
  intros H. unfold shr_fexp, shr. cbn [Zdigits2 shr_record_of_loc].
  set (E := fexp prec emax (Zpos (digits2_pos m) + e)) in *.
  destruct (E - e) as [|p|p] eqn:D.
  - exists (Build_shr_record (Zpos m) false false).
    split; [f_equal; lia|]. cbn [shr_m]. rewrite Z.pow_0_r, Z.div_1_r.
    split; [reflexivity|]. intros _. split; reflexivity.
  - destruct (shr_iter_spec p (Build_shr_record (Zpos m) false false)) as [E1 X1];
      [cbn; lia|].
    exists (iter_pos shr_1 p (Build_shr_record (Zpos m) false false)).
    split; [f_equal; lia|]. split; [exact E1|].
    intros Hmod. apply X1; [split; reflexivity | exact Hmod].
  - lia.
Qed.

Lemma round_nearest_even_bounds (r : shr_record) :
  let q := round_nearest_even (shr_m r) (loc_of_shr_record r) in
  shr_m r <= q <= shr_m r + 1 /\ (nothingLost r -> q = shr_m r).
Proof.
  destruct r as [m [|] [|]]; unfold nothingLost; cbn -[Z.add];
    try destruct (Z.even m); repeat split; try lia; intros [? ?]; discriminate.
Qed.

(** What the first shift and the rounding make of a mantissa [m] with
    exponent [e]: a mantissa [q] with exponent [E]. *)
Lemma rounded_mantissa (m : positive) (e q : Z) :
  let d := Zpos (digits2_pos m) in
  let E := Z.max (d + e - 53) (-1074) in
  - bias <= e -> e <= E ->
  Zpos m / 2 ^ (E - e) <= q <= Zpos m / 2 ^ (E - e) + 1 ->
  (Zpos m mod 2 ^ (E - e) = 0 -> q = Zpos m / 2 ^ (E - e)) ->
  q <= 2 ^ 53 /\ (-1074 < E -> 2 ^ 52 <= q) /\
  forall mf ef, canon mf ef ->
    val (Zpos m) e <= val (Zpos mf) ef -> val q E <= val (Zpos mf) ef.
Proof.
  intros d E He HE Hq Hx.
  destruct (digits_bounds m) as [Lo Hi]. fold d in Lo, Hi.
  assert (Hd : 1 <= d) by (subst d; lia).
  set (p := E - e) in *. assert (Hp0 : 0 <= p) by (subst p; lia).
  set (P := 2 ^ p) in *. assert (HP : 0 < P) by (subst P; apply pow2_pos; lia).
  set (m' := Zpos m / P) in *.
  assert (Hdm : Zpos m = P * m' + Zpos m mod P) by (apply Z.div_mod; lia).
  assert (Hrem : 0 <= Zpos m mod P < P) by (apply Z.mod_pos_bound; lia).
  assert (Hm' : 0 <= m') by (subst m'; apply Z.div_pos; lia).
  assert (Hsize : m' < 2 ^ 53 /\ (-1074 < E -> 2 ^ 52 <= m') /\
                  (E = -1074 -> d + e - 53 < -1074 -> m' < 2 ^ 52)).
  { repeat split.
    - apply Z.div_lt_upper_bound; [exact HP|].
      assert (2 ^ d <= 2 ^ (p + 53)) by (apply pow2_le; subst p E; lia).
      assert (2 ^ (p + 53) = P * 2 ^ 53) by (subst P; apply pow2_add; lia).
      lia.
    - intros HEm. apply Z.div_le_lower_bound; [exact HP|].
      assert (Hpd : p + 52 = d - 1) by (subst p E; lia).
      assert (2 ^ (p + 52) = P * 2 ^ 52) by (subst P; apply pow2_add; lia).
      rewrite Hpd in *. lia.
    - intros HE1 HE2. apply Z.div_lt_upper_bound; [exact HP|].
      assert (2 ^ d <= 2 ^ (p + 52)) by (apply pow2_le; subst p; lia).
      assert (2 ^ (p + 52) = P * 2 ^ 52) by (subst P; apply pow2_add; lia).
      lia. }
  destruct Hsize as (S1 & S2 & S3).
  split; [lia|]. split; [intros HEm; specialize (S2 HEm); lia|].
  intros mf ef Cf H. apply canon_inv in Cf.
  destruct (Z_lt_le_dec ef E) as [Hlt|Hge].
  - exfalso.
    assert (B1 := val_bounds m e He). assert (B2 := val_bounds mf ef).
    unfold bias in *. fold d in B1.
    assert (2 ^ (Zpos (digits2_pos mf) + ef + 2200) <= 2 ^ (d - 1 + e + 2200))
      by (apply pow2_le; subst E; lia).
    lia.
  - assert (HbE : - bias <= E) by (unfold bias in *; lia).
    rewrite (val_shift (Zpos mf) ef E) in * by (unfold bias in *; lia).
    set (F := Zpos mf * 2 ^ (ef - E)) in *.
    apply val_mono; [exact HbE|].
    rewrite (val_shift F E e) in H by lia. fold p in H. fold P in H.
    apply val_cancel in H; [|exact He].
    destruct (Z.eq_dec (Zpos m mod P) 0) as [Hz|Hnz].
    + rewrite (Hx Hz). apply (Z.mul_le_mono_pos_r _ _ P); lia.
    + assert (m' < F) by (apply (Z.mul_lt_mono_pos_r P); lia). lia.
Qed.

(** The second shift: it moves the mantissa only when the rounding carried
    into a 54th bit. *)
Lemma second_shift (q : positive) (E : Z) :
  -1074 <= E -> Zpos q <= 2 ^ 53 -> (-1074 < E -> 2 ^ 52 <= Zpos q) ->
  exists r m3 e3,
    shr_fexp prec emax (Zpos q) E loc_Exact = (r, e3) /\
    shr_m r = Zpos m3 /\ canon m3 e3 /\ val (Zpos m3) e3 = val (Zpos q) E.
Proof.
  intros HE Hq HqE.
  destruct (Z.eq_dec (Zpos q) (2 ^ 53)) as [Heq|Hne].
  - assert (q = 9007199254740992%positive) by (change (2 ^ 53) with 9007199254740992 in Heq; lia).
    subst q.
    destruct (shr_fexp_exact 9007199254740992 E) as (r & Hs & Hm & _).
    { rewrite fexp_eq. change (Zpos (digits2_pos 9007199254740992)) with 54. lia. }
    rewrite fexp_eq in Hs, Hm.
    change (Zpos (digits2_pos 9007199254740992)) with 54 in Hs, Hm.
    replace (Z.max (54 + E - 53) (-1074)) with (E + 1) in Hs, Hm by lia.
    replace (E + 1 - E) with 1 in Hm by lia.
    change (Zpos 9007199254740992 / 2 ^ 1) with (Zpos 4503599627370496) in Hm.
    exists r, 4503599627370496%positive, (E + 1). repeat split; try assumption.
    + apply canon_inv. change (Zpos (digits2_pos 4503599627370496)) with 53. lia.
    + rewrite (val_shift _ (E + 1) E) by (unfold bias; lia).
      replace (E + 1 - E) with 1 by lia. reflexivity.
  - destruct (digits_bounds q) as [Lo Hi].
    set (dq := Zpos (digits2_pos q)) in *. assert (1 <= dq) by (subst dq; lia).
    assert (Hdq : dq <= 53).
    { assert (2 ^ (dq - 1) < 2 ^ 53) by lia. apply pow2_lt_inv in H0; lia. }
    assert (Hdq' : -1074 < E -> dq = 53).
    { intros HEm. specialize (HqE HEm).
      assert (2 ^ 52 < 2 ^ dq) by lia. apply pow2_lt_inv in H0; lia. }
    assert (Hf : fexp prec emax (dq + E) = E) by (rewrite fexp_eq; lia).
    destruct (shr_fexp_exact q E) as (r & Hs & Hm & _).
    { fold dq. lia. }
    fold dq in Hs, Hm. rewrite Hf in Hs, Hm.
    replace (E - E) with 0 in Hm by lia. rewrite Z.pow_0_r, Z.div_1_r in Hm.
    exists r, q, E. repeat split; try assumption.
    apply canon_inv. fold dq. lia.
Qed.

(** The result of rounding an exact positive value that needs no left
    shift: a zero, or the finite float of a canonical pair that stays below
    every float the exact value is below, or an infinity if that pair is
    beyond the largest exponent. *)
Lemma binary_round_aux_exact (s : bool) (m : positive) (e : Z) :
  - bias <= e ->
  e <= fexp prec emax (Zpos (digits2_pos m) + e) ->
  binary_round_aux prec emax s (Zpos m) e loc_Exact = S754_zero s \/
  exists m3 e3,
    canon m3 e3 /\
    (forall mf ef, canon mf ef ->
       val (Zpos m) e <= val (Zpos mf) ef -> val (Zpos m3) e3 <= val (Zpos mf) ef) /\
    binary_round_aux prec emax s (Zpos m) e loc_Exact
      = if e3 <=? emax - prec then S754_finite s m3 e3 else S754_infinity s.
Proof.
  intros He Hpre.
  destruct (shr_fexp_exact m e Hpre) as (r & Hs & Hm & Hx).
  unfold binary_round_aux. rewrite Hs.
  destruct (round_nearest_even_bounds r) as [Hq Hqx].
  rewrite fexp_eq in *.
  set (E := Z.max (Zpos (digits2_pos m) + e - 53) (-1074)) in *.
  remember (round_nearest_even (shr_m r) (loc_of_shr_record r)) as q eqn:Eq.
  clear Eq.
  assert (Hm0 : 0 <= shr_m r).
  { rewrite Hm. apply Z.div_pos; [lia | apply pow2_pos; lia]. }
  destruct (rounded_mantissa m e q He Hpre) as (Q1 & Q2 & Q3).
  { fold E. rewrite <- Hm. exact Hq. }
  { fold E. rewrite <- Hm. intros Hz. apply Hqx, Hx, Hz. }
  fold E in Q1, Q2, Q3.
  destruct q as [|q|q].
  - left. unfold shr_fexp, shr. cbn [Zdigits2 shr_record_of_loc].
    destruct (fexp prec emax (0 + E) - E) as [|p|p]; try reflexivity.
    destruct (shr_iter_spec p (Build_shr_record 0 false false)) as [E1 _];
      [cbn; lia|].
    cbn [shr_m] in E1. rewrite Z.div_0_l in E1
      by (apply Z.pow_nonzero; lia).
    rewrite E1. reflexivity.
  - right.
    destruct (second_shift q E) as (r2 & m3 & e3 & Hs2 & Hm2 & C3 & V3);
      [subst E; lia | exact Q1 | exact Q2 |].
    exists m3, e3. split; [exact C3|]. split.
    + intros mf ef Cf H. rewrite V3. apply Q3; assumption.
    + rewrite Hs2, Hm2. reflexivity.
  - lia.
Qed.

(** ** The operations *)

Lemma is_double_finite (s : bool) (m : positive) (e : Z) :
  is_double (S754_finite s m e) <-> canon m e /\ e <= 971.
Proof.
  unfold is_double, valid_binary, bounded, canon.
  rewrite andb_true_iff, Z.leb_le. reflexivity.
Qed.

Lemma rounds_to_sign (s : bool) (v : Z) (x : spec_float) :
  rounds_to s v x -> signbit x = s /\ x <> S754_nan.
Proof.
  intros [->|(m3 & e3 & _ & _ & ->)]; [split; [reflexivity | discriminate]|].
  destruct (e3 <=? emax - prec); split; try reflexivity; discriminate.
Qed.

Lemma rounds_to_bounded (s : bool) (v : Z) (x : spec_float)
    (sf : bool) (mf : positive) (ef : Z) :
  rounds_to s v x -> is_double (S754_finite sf mf ef) -> v <= val (Zpos mf) ef ->
  isFinite x = true /\ is_double x /\ mag_le x (S754_finite sf mf ef) /\
  signbit x = s.
Proof.
  intros [->|(m3 & e3 & C3 & B3 & ->)] Hf Hv; [repeat split|].
  apply is_double_finite in Hf. destruct Hf as [Cf Hef].
  assert (L := val_le_mag _ _ _ _ C3 Cf (B3 _ _ Cf Hv)).
  assert (He3 : e3 <= 971) by (destruct L as [?|[? _]]; lia).
  replace (e3 <=? emax - prec) with true
    by (symmetry; apply Z.leb_le; unfold emax, prec; lia).
  repeat split; [apply is_double_finite; split; assumption | exact L].
Qed.

Lemma le_mag_refl (m : positive) (e : Z) : le_mag m e m e.
Proof. right. split; [reflexivity | lia]. Qed.

Lemma le_mag_trans (m1 m2 m3 : positive) (e1 e2 e3 : Z) :
  le_mag m1 e1 m2 e2 -> le_mag m2 e2 m3 e3 -> le_mag m1 e1 m3 e3.
Proof. unfold le_mag. lia. Qed.

Lemma mag_le_trans (x y z : spec_float) : mag_le x y -> mag_le y z -> mag_le x z.
Proof.
  destruct x, y, z; simpl; try tauto. apply le_mag_trans.
Qed.

(** [mag_le] is what [SFleb] computes on the absolute values. *)
Lemma mag_le_SFleb (x y : spec_float) :
  mag_le x y -> SFleb (SFabs x) (SFabs y) = true.
Proof.
  destruct x as [sx|sx| |sx mx ex], y as [sy|sy| |sy my ey]; simpl; try tauto.
  unfold SFleb, SFcompare, SFabs. intros [L|[E L]].
  - apply Z.compare_lt_iff in L. now rewrite L.
  - subst. rewrite Z.compare_refl.
    change (Pos.compare_cont Eq mx my) with (Pos.compare mx my).
    destruct (Pos.compare_spec mx my); try reflexivity. lia.
Qed.

Lemma SFleb_mag_le (x y : spec_float) :
  isFinite y = true -> SFleb (SFabs x) (SFabs y) = true -> mag_le x y.
Proof.
  destruct x as [sx|sx| |sx mx ex], y as [sy|sy| |sy my ey]; simpl;
    try tauto; try discriminate.
  unfold SFleb, SFcompare, SFabs. intros _.
  destruct (Z.compare_spec ex ey) as [E|L|G]; try discriminate.
  - change (Pos.compare_cont Eq mx my) with (Pos.compare mx my).
    destruct (Pos.compare_spec mx my); try discriminate; intros _; right; lia.
  - intros _. left. exact L.
Qed.

(** *** Multiplication *)

Lemma digits_mul (m1 m2 : positive) :
  Zpos (digits2_pos m1) + Zpos (digits2_pos m2) - 1
    <= Zpos (digits2_pos (m1 * m2)).
Proof.
  destruct (digits_bounds m1) as [L1 _]. destruct (digits_bounds m2) as [L2 _].
  destruct (digits_bounds (m1 * m2)) as [_ H].
  set (d1 := Zpos (digits2_pos m1)) in *. set (d2 := Zpos (digits2_pos m2)) in *.
  set (d := Zpos (digits2_pos (m1 * m2))) in *.
  assert (1 <= d1) by (subst d1; lia). assert (1 <= d2) by (subst d2; lia).
  assert (1 <= d) by (subst d; lia).
  assert (E : 2 ^ (d1 - 1 + (d2 - 1)) = 2 ^ (d1 - 1) * 2 ^ (d2 - 1))
    by (apply pow2_add; lia).
  assert (2 ^ (d1 - 1) * 2 ^ (d2 - 1) <= Zpos m1 * Zpos m2).
  { apply Z.mul_le_mono_nonneg; try lia; apply Z.lt_le_incl, pow2_pos; lia. }
  rewrite Pos2Z.inj_mul in H.
  assert (Hlt : 2 ^ (d1 - 1 + (d2 - 1)) < 2 ^ d) by lia.
  apply pow2_lt_inv in Hlt; lia.
Qed.

Lemma fmul_rounds (sx sy : bool) (mx my : positive) (ex ey : Z) :
  canon mx ex -> canon my ey ->
  rounds_to (xorb sx sy) (val (Zpos (mx * my)) (ex + ey))
    (fmul (S754_finite sx mx ex) (S754_finite sy my ey)).
Proof.
  intros Cx Cy. unfold fmul, SFmul.
  assert (Ix := proj1 (canon_inv _ _) Cx). assert (Iy := proj1 (canon_inv _ _) Cy).
  assert (D := digits_mul mx my).
  apply binary_round_aux_exact.
  - unfold bias. lia.
  - rewrite fexp_eq. lia.
Qed.

Lemma val_mul (m1 m2 e1 e2 : Z) :
  - bias <= e1 + e2 -> - bias <= e1 -> - bias <= e2 ->
  val (m1 * m2) (e1 + e2) * 2 ^ bias = val m1 e1 * val m2 e2.
Proof.
  intros H H1 H2. unfold val.
  replace (m1 * m2 * 2 ^ (e1 + e2 + bias) * 2 ^ bias)
    with (m1 * m2 * (2 ^ (e1 + e2 + bias) * 2 ^ bias)) by ring.
  rewrite <- pow2_add by (unfold bias in *; lia).
  replace (e1 + e2 + bias + bias) with ((e1 + bias) + (e2 + bias)) by lia.
  rewrite pow2_add by (unfold bias in *; lia). ring.
Qed.

Lemma val_one : val (Zpos 4503599627370496) (-52) = 2 ^ bias.
Proof.
  unfold val. change (Zpos 4503599627370496) with (2 ^ 52).
  rewrite <- pow2_add by (unfold bias; lia). f_equal.
Qed.

(** A product with a factor of magnitude at most one is no larger than the
    other factor, and does not overflow. *)
Lemma fmul_le_l (x y : spec_float) :
  is_double x -> is_double y -> isFinite x = true -> mag_le y one ->
  isFinite (fmul x y) = true /\ is_double (fmul x y) /\
  mag_le (fmul x y) x /\ signbit (fmul x y) = xorb (signbit x) (signbit y).
Proof.
  intros Dx Dy Fx Hy.
  destruct x as [sx|sx| |sx mx ex], y as [sy|sy| |sy my ey];
    try discriminate; try (simpl in Hy; tauto); try (repeat split; fail).
  apply is_double_finite in Dy. destruct Dy as [Cy Ey].
  assert (Cx := proj1 (proj1 (is_double_finite _ _ _) Dx)).
  apply (rounds_to_bounded _ _ _ sx mx ex (fmul_rounds sx sy mx my ex ey Cx Cy) Dx).
  assert (Ix := proj1 (canon_inv _ _) Cx). assert (Iy := proj1 (canon_inv _ _) Cy).
  simpl in Hy.
  assert (C1 : canon 4503599627370496 (-52)) by reflexivity.
  assert (V := le_mag_val _ _ _ _ Cy C1 Hy). rewrite val_one in V.
  assert (M := val_mul (Zpos mx) (Zpos my) ex ey).
  rewrite Pos2Z.inj_mul.
  assert (Hb : 0 < 2 ^ bias) by (apply pow2_pos; unfold bias; lia).
  assert (Hvx : 0 <= val (Zpos mx) ex).
  { unfold val. apply Z.mul_nonneg_nonneg; [lia|].
    apply Z.lt_le_incl, pow2_pos. unfold bias. lia. }
  apply (Z.mul_le_mono_pos_r _ _ (2 ^ bias)); [exact Hb|].
  rewrite M by (unfold bias; lia).
  apply Z.mul_le_mono_nonneg_l; assumption.
Qed.

Lemma fmul_comm (x y : spec_float) : fmul x y = fmul y x.
Proof.
  destruct x as [sx|sx| |sx mx ex], y as [sy|sy| |sy my ey]; simpl;
    try (now rewrite xorb_comm); try reflexivity.
  unfold fmul, SFmul. now rewrite xorb_comm, Pos.mul_comm, Z.add_comm.
Qed.

Lemma fmul_le_r (x y : spec_float) :
  is_double x -> is_double y -> isFinite y = true -> mag_le x one ->
  isFinite (fmul x y) = true /\ is_double (fmul x y) /\
  mag_le (fmul x y) y /\ signbit (fmul x y) = xorb (signbit x) (signbit y).
Proof.
  intros Dx Dy Fy Hx. rewrite fmul_comm, (xorb_comm (signbit x)).
  apply fmul_le_l; assumption.
Qed.

(** *** Addition and subtraction *)

Lemma iter_xO (m k : positive) : Zpos (Pos.iter xO m k) = Zpos m * 2 ^ Zpos k.
Proof.
  induction k as [|k IH] using Pos.peano_ind.
  - cbn [Pos.iter]. rewrite Pos2Z.inj_xO, Z.pow_1_r. ring.
  - rewrite Pos.iter_succ, Pos2Z.inj_succ, Z.pow_succ_r by lia.
    rewrite Pos2Z.inj_xO, IH. ring.
Qed.

Lemma shl_align_spec (m : positive) (e e' : Z) :
  e' <= e ->
  Zpos (fst (shl_align m e e')) = Zpos m * 2 ^ (e - e') /\
  snd (shl_align m e e') = e'.
Proof.
  intros H. unfold shl_align. destruct (e' - e) as [|p|p] eqn:D; try lia.
  - cbn [fst snd]. replace (e - e') with 0 by lia. rewrite Z.pow_0_r. lia.
  - cbn [fst snd]. rewrite iter_xO. replace (e - e') with (Zpos p) by lia. lia.
Qed.

Lemma shl_align_id (m : positive) (e e' : Z) :
  e <= e' -> shl_align m e e' = (m, e).
Proof.
  intros H. unfold shl_align. destruct (e' - e) as [|p|p] eqn:D; try reflexivity. lia.
Qed.

Lemma digits_shift (m : positive) (k : Z) (mz : positive) :
  0 <= k -> Zpos mz = Zpos m * 2 ^ k ->
  Zpos (digits2_pos mz) = Zpos (digits2_pos m) + k.
Proof.
  intros Hk E. destruct (digits_bounds m) as [Lo Hi].
  set (d := Zpos (digits2_pos m)) in *. assert (1 <= d) by (subst d; lia).
  assert (Hp : 0 < 2 ^ k) by (apply pow2_pos; lia).
  apply digits_unique; [lia|]. rewrite E.
  replace (d + k - 1) with ((d - 1) + k) by lia. rewrite !pow2_add by lia.
  split.
  - apply Z.mul_le_mono_nonneg_r; lia.
  - apply Z.mul_lt_mono_pos_r; lia.
Qed.

Lemma binary_round_exact (s : bool) (m : positive) (e : Z) :
  - bias <= e ->
  rounds_to s (val (Zpos m) e) (binary_round prec emax s m e).
Proof.
  intros He. unfold binary_round.
  set (E := fexp prec emax (Zpos (digits2_pos m) + e)).
  assert (HE : E = Z.max (Zpos (digits2_pos m) + e - 53) (-1074))
    by (subst E; apply fexp_eq).
  destruct (Z_lt_le_dec E e) as [Hlt|Hge].
  - destruct (shl_align_spec m e E) as [Hm Hs]; [lia|].
    destruct (shl_align m e E) as [mz ez]. cbn [fst snd] in Hm, Hs. subst ez.
    assert (Hd := digits_shift m (e - E) mz ltac:(lia) Hm).
    rewrite (val_shift (Zpos m) e E) by (unfold bias in *; lia).
    rewrite <- Hm. apply binary_round_aux_exact.
    + unfold bias in *. lia.
    + rewrite Hd. replace (Zpos (digits2_pos m) + (e - E) + E)
        with (Zpos (digits2_pos m) + e) by lia. fold E. lia.
  - rewrite shl_align_id by exact Hge.
    apply binary_round_aux_exact; [exact He | fold E; exact Hge].
Qed.

Lemma binary_normalize_pos (z e : Z) :
  - bias <= e -> 0 <= z ->
  rounds_to false (val z e) (binary_normalize prec emax z e false).
Proof.
  intros He Hz. destruct z as [|p|p]; try lia.
  - left. reflexivity.
  - apply binary_round_exact, He.
Qed.

Lemma binary_normalize_neg (z e : Z) :
  - bias <= e -> z < 0 ->
  rounds_to true (val (- z) e) (binary_normalize prec emax z e false).
Proof.
  intros He Hz. destruct z as [|p|p]; try lia.
  apply (binary_round_exact true p e He).
Qed.

Lemma SFleb_zero (x : spec_float) :
  SFleb zero x = true <->
  match x with
  | S754_zero _ => True
  | S754_finite s _ _ | S754_infinity s => s = false
  | S754_nan => False
  end.
Proof.
  destruct x as [s|[|]| |[|] m e]; unfold SFleb; simpl; split;
    try tauto; try discriminate; try reflexivity.
Qed.

Lemma rounds_to_nonneg (v : Z) (x : spec_float) :
  rounds_to false v x -> SFleb zero x = true.
Proof.
  intros [->|(m3 & e3 & _ & _ & ->)]; [reflexivity|].
  destruct (e3 <=? emax - prec); reflexivity.
Qed.

Lemma aligned_le (m1 m2 : positive) (e1 e2 : Z) :
  canon m1 e1 -> canon m2 e2 -> le_mag m1 e1 m2 e2 ->
  Zpos (fst (shl_align m1 e1 (Z.min e2 e1)))
    <= Zpos (fst (shl_align m2 e2 (Z.min e2 e1))).
Proof.
  intros C1 C2 L. assert (V := le_mag_val _ _ _ _ C1 C2 L).
  apply canon_inv in C1, C2.
  destruct (shl_align_spec m1 e1 (Z.min e2 e1)) as [-> _]; [lia|].
  destruct (shl_align_spec m2 e2 (Z.min e2 e1)) as [-> _]; [lia|].
  rewrite (val_shift _ e1 (Z.min e2 e1)) in V by (unfold bias; lia).
  rewrite (val_shift _ e2 (Z.min e2 e1)) in V by (unfold bias; lia).
  apply val_cancel in V; [exact V | unfold bias; lia].
Qed.

(** The sum of a non-negative finite [x] and a finite [y] of smaller or
    equal magnitude is not negative. *)
Lemma fadd_nonneg (x y : spec_float) :
  is_double x -> is_double y -> isFinite x = true -> SFleb zero x = true ->
  mag_le y x -> SFleb zero (fadd x y) = true.
Proof.
  intros Dx Dy Fx Px Hy.
  destruct x as [sx|sx| |sx mx ex], y as [sy|sy| |sy my ey];
    try discriminate; try (simpl in Hy; tauto).
  - destruct sx, sy; reflexivity.
  - apply SFleb_zero in Px. subst sx.
    apply is_double_finite in Dx, Dy. destruct Dx as [Cx _], Dy as [Cy _].
    simpl in Hy. assert (A := aligned_le _ _ _ _ Cy Cx Hy).
    assert (Ix := proj1 (canon_inv _ _) Cx). assert (Iy := proj1 (canon_inv _ _) Cy).
    unfold fadd, SFadd.
    apply rounds_to_nonneg with
      (v := val (cond_Zopp false (Zpos (fst (shl_align mx ex (Z.min ex ey)))) +
                 cond_Zopp sy (Zpos (fst (shl_align my ey (Z.min ex ey)))))
                (Z.min ex ey)).
    apply binary_normalize_pos; [unfold bias; lia|].
    destruct sy; unfold cond_Zopp; lia.
Qed.

(** [v - 1] for [0 <= v <= 2] has magnitude at most one. *)
Lemma fsub_one (v : spec_float) :
  is_double v -> isFinite v = true -> SFleb zero v = true -> mag_le v two ->
  isFinite (fsub v one) = true /\ is_double (fsub v one) /\ mag_le (fsub v one) one.
Proof.
  intros Dv Fv Pv Hv.
  destruct v as [sv|sv| |sv mv ev]; try discriminate.
  - repeat split. apply le_mag_refl.
  - apply SFleb_zero in Pv. subst sv.
    assert (Cv := proj1 (proj1 (is_double_finite _ _ _) Dv)).
    assert (Iv := proj1 (canon_inv _ _) Cv).
    assert (C1 : canon 4503599627370496 (-52)) by reflexivity.
    assert (C2 : canon 4503599627370496 (-51)) by reflexivity.
    assert (D1 : is_double one) by reflexivity.
    simpl in Hv. assert (V := le_mag_val _ _ _ _ Cv C2 Hv).
    unfold fsub, one, SFsub. unfold cond_Zopp.
    set (ez := Z.min ev (-52)).
    destruct (shl_align_spec mv ev ez) as [Ev _]; [subst ez; lia|].
    destruct (shl_align_spec 4503599627370496 (-52) ez) as [E1 _]; [subst ez; lia|].
    set (a := Zpos (fst (shl_align mv ev ez))) in *.
    set (b := Zpos (fst (shl_align 4503599627370496 (-52) ez))) in *.
    assert (Hez : - bias <= ez <= -52) by (unfold bias; subst ez; lia).
    assert (Va : val a ez = val (Zpos mv) ev)
      by (rewrite Ev; symmetry; apply val_shift; subst ez; unfold bias; lia).
    assert (Vb : val b ez = val (Zpos 4503599627370496) (-52))
      by (rewrite E1; symmetry; apply val_shift; lia).
    assert (V2 : val (Zpos 4503599627370496) (-51)
                 = 2 * val (Zpos 4503599627370496) (-52)).
    { rewrite (val_shift _ (-51) (-52)) by (unfold bias; lia).
      unfold val. change (2 ^ (-51 - -52)) with 2. ring. }
    assert (Hab : a <= 2 * b).
    { apply (val_cancel _ _ ez); [lia|].
      replace (val (2 * b) ez) with (2 * val b ez) by (unfold val; ring).
      rewrite Va, Vb, <- V2. exact V. }
    assert (Ha : 0 < a) by (subst a; lia).
    destruct (Z_lt_le_dec (a - b) 0) as [Hneg|Hpos].
    + destruct (rounds_to_bounded true (val (- (a - b)) ez) _ false
                  4503599627370496 (-52)
                  (binary_normalize_neg (a - b) ez ltac:(lia) Hneg) D1)
        as (R1 & R2 & R3 & _).
      { rewrite <- Vb. apply val_mono; lia. }
      repeat split; assumption.
    + destruct (rounds_to_bounded false (val (a - b) ez) _ false
                  4503599627370496 (-52)
                  (binary_normalize_pos (a - b) ez ltac:(lia) Hpos) D1)
        as (R1 & R2 & R3 & _).
      { rewrite <- Vb. apply val_mono; lia. }
      repeat split; assumption.
Qed.

(** ** The round bit and the sticky bit *)

Lemma shr_1_bits (rec : shr_record) :
  0 <= shr_m rec ->
  shr_m (shr_1 rec) = shr_m rec / 2 /\
  shr_r (shr_1 rec) = (shr_m rec mod 2 =? 1) /\
  shr_s (shr_1 rec) = orb (shr_r rec) (shr_s rec).
Proof.
  destruct rec as [m r s]. cbn [shr_m shr_r shr_s]. intros Hm.
  destruct m as [|[p|p|]|p]; try lia; cbn [shr_1 shr_m shr_r shr_s].
  - repeat split.
  - assert (E : Zpos p~1 = 1 + Zpos p * 2) by lia.
    assert (Zpos p~1 mod 2 = 1) by (rewrite E, Z.mod_add by lia; reflexivity).
    assert (Zpos p~1 / 2 = Zpos p)
      by (symmetry; apply Z.div_unique with 1; lia).
    rewrite H, H0. repeat split.
  - assert (E : Zpos p~0 = 0 + Zpos p * 2) by lia.
    assert (Zpos p~0 mod 2 = 0) by (rewrite E, Z.mod_add by lia; reflexivity).
    assert (Zpos p~0 / 2 = Zpos p)
      by (symmetry; apply Z.div_unique with 0; lia).
    rewrite H, H0. repeat split.
  - repeat split.
Qed.

Lemma mod_pow2_succ (M k : Z) :
  1 <= k ->
  M mod 2 ^ k = M mod 2 ^ (k - 1) + 2 ^ (k - 1) * ((M / 2 ^ (k - 1)) mod 2).
Proof.
  intros Hk. replace (2 ^ k) with (2 ^ (k - 1) * 2).
  - apply Z.rem_mul_r; [apply Z.pow_nonzero; lia | lia].
  - replace k with ((k - 1) + 1) at 2 by lia.
    rewrite pow2_add by lia. reflexivity.
Qed.

Lemma shr_1_represents (M k : Z) (rec : shr_record) :
  0 <= M -> 0 <= k -> represents M k rec -> represents M (k + 1) (shr_1 rec).
Proof.
  intros HM Hk [Hm Hrs].
  assert (HP : 0 < 2 ^ k) by (apply pow2_pos; lia).
  assert (Hm0 : 0 <= shr_m rec) by (rewrite Hm; apply Z.div_pos; lia).
  destruct (shr_1_bits rec Hm0) as (B1 & B2 & B3).
  split.
  - rewrite B1, Hm, Z.div_div by lia. rewrite pow2_add by lia. reflexivity.
  - right. split; [lia|]. replace (k + 1 - 1) with k by lia.
    split; [rewrite B2, Hm; reflexivity|].
    rewrite B3. destruct Hrs as [(-> & -> & ->) | (Hk1 & -> & ->)].
    + rewrite Z.pow_0_r, Z.mod_1_r. reflexivity.
    + rewrite (mod_pow2_succ M k Hk1).
      assert (HH : 0 < 2 ^ (k - 1)) by (apply pow2_pos; lia).
      assert (Hlo : 0 <= M mod 2 ^ (k - 1) < 2 ^ (k - 1))
        by (apply Z.mod_pos_bound; lia).
      assert (Hrb : 0 <= (M / 2 ^ (k - 1)) mod 2 < 2)
        by (apply Z.mod_pos_bound; lia).
      set (lo := M mod 2 ^ (k - 1)) in *.
      set (rb := (M / 2 ^ (k - 1)) mod 2) in *.
      set (H := 2 ^ (k - 1)) in *.
      assert (Hrb' : rb = 0 \/ rb = 1) by lia.
      destruct Hrb' as [E | E]; rewrite E.
      * rewrite Z.mul_0_r, Z.add_0_r. reflexivity.
      * cbn [Z.eqb Pos.eqb orb]. symmetry. apply negb_true_iff, Z.eqb_neq. lia.
Qed.

Lemma shr_iter_represents (p : positive) : forall (rec : shr_record) (M k : Z),
  0 <= M -> 0 <= k -> represents M k rec ->
  represents M (k + Zpos p) (iter_pos shr_1 p rec).
Proof.
  induction p as [p IH|p IH|]; intros rec M k HM Hk H; cbn [iter_pos].
  - replace (k + Zpos p~1) with (((k + 1) + Zpos p) + Zpos p) by lia.
    apply IH; [lia | lia |]. apply IH; [lia | lia |].
    apply shr_1_represents; assumption.
  - replace (k + Zpos p~0) with ((k + Zpos p) + Zpos p) by lia.
    apply IH; [lia | lia |]. apply IH; assumption.
  - apply shr_1_represents; assumption.
Qed.

Lemma round_nearest (M p : Z) (rec : shr_record) :
  0 <= M -> 0 <= p -> represents M p rec ->
  nearest M p (round_nearest_even (shr_m rec) (loc_of_shr_record rec)).
Proof.
  intros HM Hp [Hm Hrs].
  assert (HP : 0 < 2 ^ p) by (apply pow2_pos; lia).
  assert (Hdm : M = 2 ^ p * (M / 2 ^ p) + M mod 2 ^ p) by (apply Z.div_mod; lia).
  destruct rec as [m r s]. cbn [shr_m shr_r shr_s] in *. subst m.
  set (f := M / 2 ^ p) in *.
  destruct Hrs as [(-> & -> & ->) | (Hp1 & -> & ->)].
  - cbn [loc_of_shr_record round_nearest_even]. unfold nearest.
    rewrite Z.pow_0_r in *. rewrite Z.mod_1_r in Hdm.
    repeat split; try lia.
  - rewrite (mod_pow2_succ M p Hp1) in Hdm.
    assert (HH : 0 < 2 ^ (p - 1)) by (apply pow2_pos; lia).
    assert (HPH : 2 ^ p = 2 * 2 ^ (p - 1)).
    { replace p with (1 + (p - 1)) at 1 by lia. rewrite pow2_add by lia.
      reflexivity. }
    assert (Hlo : 0 <= M mod 2 ^ (p - 1) < 2 ^ (p - 1))
      by (apply Z.mod_pos_bound; lia).
    assert (Hrb : 0 <= (M / 2 ^ (p - 1)) mod 2 < 2)
      by (apply Z.mod_pos_bound; lia).
    set (lo := M mod 2 ^ (p - 1)) in *.
    set (rb := (M / 2 ^ (p - 1)) mod 2) in *.
    rewrite HPH in *. set (H := 2 ^ (p - 1)) in *.
    unfold nearest. rewrite HPH. fold H.
    assert (Hrb' : rb = 0 \/ rb = 1) by lia.
    destruct Hrb' as [E | E]; rewrite E in *; cbn [Z.eqb Pos.eqb];
      destruct (lo =? 0) eqn:El;
      [apply Z.eqb_eq in El | apply Z.eqb_neq in El
      |apply Z.eqb_eq in El | apply Z.eqb_neq in El];
      cbn [negb loc_of_shr_record round_nearest_even].
    + repeat split; nia.
    + repeat split; nia.
    + destruct (Z.even f) eqn:Ev.
      * repeat split; try nia; intros; assumption.
      * assert (Z.even (f + 1) = true)
          by (rewrite Z.even_add, Ev; reflexivity).
        repeat split; try nia; intros; assumption.
    + repeat split; nia.
Qed.

Lemma shr_fexp_represents (m : positive) (e : Z) :
  e <= fexp prec emax (Zpos (digits2_pos m) + e) ->
  exists r,
    shr_fexp prec emax (Zpos m) e loc_Exact
      = (r, fexp prec emax (Zpos (digits2_pos m) + e)) /\
    represents (Zpos m) (fexp prec emax (Zpos (digits2_pos m) + e) - e) r.
Proof.
  intros H. unfold shr_fexp, shr. cbn [Zdigits2 shr_record_of_loc].
  set (E := fexp prec emax (Zpos (digits2_pos m) + e)) in *.
  assert (R0 : represents (Zpos m) 0 (Build_shr_record (Zpos m) false false)).
  { split; [cbn [shr_m]; rewrite Z.pow_0_r, Z.div_1_r; reflexivity|].
    left. repeat split. }
  destruct (E - e) as [|p|p] eqn:D.
  - exists (Build_shr_record (Zpos m) false false).
    split; [f_equal; lia | exact R0].
  - exists (iter_pos shr_1 p (Build_shr_record (Zpos m) false false)).
    split; [f_equal; lia|].
    apply (shr_iter_represents p _ (Zpos m) 0); [lia | lia | exact R0].
  - lia.
Qed.

(** The two stages of [binary_round_aux] on an exact positive value: the
    mantissa is rounded to the nearest integer [q] at the exponent [E] of
    the result's binade, and [q * 2 ^ E] is then put in canonical form. *)
Lemma round_stage (s : bool) (m : positive) (e : Z) :
  - bias <= e ->
  e <= fexp prec emax (Zpos (digits2_pos m) + e) ->
  exists q,
    nearest (Zpos m) (fexp prec emax (Zpos (digits2_pos m) + e) - e) q /\
    q <= 2 ^ 53 /\
    (-1074 < fexp prec emax (Zpos (digits2_pos m) + e) -> 2 ^ 52 <= q) /\
    ((q = 0 /\ binary_round_aux prec emax s (Zpos m) e loc_Exact = S754_zero s) \/
     (0 < q /\
      exists m3 e3,
        canon m3 e3 /\
        val (Zpos m3) e3 = val q (fexp prec emax (Zpos (digits2_pos m) + e)) /\
        binary_round_aux prec emax s (Zpos m) e loc_Exact
          = if e3 <=? emax - prec then S754_finite s m3 e3 else S754_infinity s)).
Proof.
  intros He Hpre.
  destruct (shr_fexp_exact m e Hpre) as (r & Hs & Hm & Hx).
  destruct (shr_fexp_represents m e Hpre) as (r' & Hs' & Hrep).
  rewrite Hs in Hs'. injection Hs' as <-.
  destruct (round_nearest_even_bounds r) as [Hq Hqx].
  assert (Hn : nearest (Zpos m) (fexp prec emax (Zpos (digits2_pos m) + e) - e)
                 (round_nearest_even (shr_m r) (loc_of_shr_record r)))
    by (apply round_nearest; [lia | lia | exact Hrep]).
  unfold binary_round_aux. rewrite Hs.
  rewrite fexp_eq in *.
  set (E := Z.max (Zpos (digits2_pos m) + e - 53) (-1074)) in *.
  remember (round_nearest_even (shr_m r) (loc_of_shr_record r)) as q eqn:Eq.
  clear Eq.
  destruct (rounded_mantissa m e q He Hpre) as (Q1 & Q2 & _).
  { fold E. rewrite <- Hm. exact Hq. }
  { fold E. rewrite <- Hm. intros Hz. apply Hqx, Hx, Hz. }
  fold E in Q1, Q2.
  assert (Hm0 : 0 <= shr_m r).
  { rewrite Hm. apply Z.div_pos; [lia | apply pow2_pos; lia]. }
  exists q. split; [exact Hn|]. split; [exact Q1|]. split; [exact Q2|].
  destruct q as [|q|q].
  - left. split; [reflexivity|].
    unfold shr_fexp, shr. cbn [Zdigits2 shr_record_of_loc].
    destruct (fexp prec emax (0 + E) - E) as [|p|p]; try reflexivity.
    destruct (shr_iter_spec p (Build_shr_record 0 false false)) as [E1 _];
      [cbn; lia|].
    cbn [shr_m] in E1. rewrite Z.div_0_l in E1
      by (apply Z.pow_nonzero; lia).
    rewrite E1. reflexivity.
  - right. split; [lia|].
    destruct (second_shift q E) as (r2 & m3 & e3 & Hs2 & Hm2 & C3 & V3);
      [subst E; lia | exact Q1 | exact Q2 |].
    exists m3, e3. split; [exact C3|]. split; [exact V3|].
    rewrite Hs2, Hm2. reflexivity.
  - lia.
Qed.

Lemma nearest_val (M p q e : Z) :
  - bias <= e -> 0 <= p -> nearest M p q ->
  2 * val M e <= 2 * val q (e + p) + 2 ^ (e + p + bias) /\
  2 * val q (e + p) - 2 ^ (e + p + bias) <= 2 * val M e /\
  (2 * val M e = 2 * val q (e + p) + 2 ^ (e + p + bias) -> Z.even q = true) /\
  (2 * val M e = 2 * val q (e + p) - 2 ^ (e + p + bias) -> Z.even q = true).
Proof.
  intros He Hp (N1 & N2 & N3 & N4). unfold val, bias in *.
  assert (Hu : 0 < 2 ^ (e + 2200)) by (apply pow2_pos; lia).
  assert (HU : 2 ^ (e + p + 2200) = 2 ^ p * 2 ^ (e + 2200)).
  { replace (e + p + 2200) with (p + (e + 2200)) by lia.
    apply pow2_add; lia. }
  rewrite HU. set (u := 2 ^ (e + 2200)) in *. set (P := 2 ^ p) in *.
  assert (A : 2 * (M * u) = (2 * M) * u) by ring.
  assert (B : 2 * (q * (P * u)) + P * u = (2 * (q * P) + P) * u) by ring.
  assert (C : 2 * (q * (P * u)) - P * u = (2 * (q * P) - P) * u) by ring.
  rewrite A, B, C. repeat split.
  - apply Z.mul_le_mono_nonneg_r; lia.
  - apply Z.mul_le_mono_nonneg_r; lia.
  - intros H. apply N3. apply Z.mul_cancel_r in H; lia.
  - intros H. apply N4. apply Z.mul_cancel_r in H; lia.
Qed.

(** Rounding to nearest, ties to even, is monotone. *)
Lemma nearest_mono (v1 v2 q1 q2 U : Z) :
  0 < U ->
  2 * v1 <= 2 * (q1 * U) + U -> 2 * (q1 * U) - U <= 2 * v1 ->
  (2 * v1 = 2 * (q1 * U) - U -> Z.even q1 = true) ->
  2 * v2 <= 2 * (q2 * U) + U -> 2 * (q2 * U) - U <= 2 * v2 ->
  (2 * v2 = 2 * (q2 * U) + U -> Z.even q2 = true) ->
  v1 <= v2 -> q1 <= q2.
Proof.
  intros HU A1 B1 T1 A2 B2 T2 Hv.
  destruct (Z_le_gt_dec q1 q2) as [Hle|Hgt]; [exact Hle|]. exfalso.
  assert (Hq : q2 * U + U <= q1 * U).
  { replace (q2 * U + U) with ((q2 + 1) * U) by ring.
    apply Z.mul_le_mono_nonneg_r; lia. }
  assert (E1 : 2 * v1 = 2 * (q1 * U) - U) by lia.
  assert (E2 : 2 * v2 = 2 * (q2 * U) + U) by lia.
  assert (Eq : q1 * U = (q2 + 1) * U) by (ring_simplify; lia).
  apply Z.mul_cancel_r in Eq; [|lia].
  specialize (T1 E1). specialize (T2 E2).
  rewrite Eq, Z.even_add, T2 in T1. discriminate.
Qed.

Lemma val_pos (m e : Z) : - bias <= e -> 0 < m -> 0 < val m e.
Proof.
  intros He Hm. unfold val, bias in *.
  apply Z.mul_pos_pos; [exact Hm | apply pow2_pos; lia].
Qed.

Lemma val_pos_inv (m e : Z) : - bias <= e -> 0 < val m e -> 0 < m.
Proof.
  intros He H. unfold val, bias in *.
  assert (0 < 2 ^ (e + 2200)) by (apply pow2_pos; lia).
  apply (Z.mul_pos_cancel_r _ (2 ^ (e + 2200))); assumption.
Qed.

(** Rounding an exact positive value is monotone. *)
Lemma binary_round_aux_mono (m1 m2 : positive) (e1 e2 : Z) :
  - bias <= e1 -> - bias <= e2 ->
  e1 <= fexp prec emax (Zpos (digits2_pos m1) + e1) ->
  e2 <= fexp prec emax (Zpos (digits2_pos m2) + e2) ->
  val (Zpos m1) e1 <= val (Zpos m2) e2 ->
  SFleb (binary_round_aux prec emax false (Zpos m1) e1 loc_Exact)
        (binary_round_aux prec emax false (Zpos m2) e2 loc_Exact) = true.
Proof.
  intros He1 He2 P1 P2 Hv.
  destruct (round_stage false m1 e1 He1 P1) as (q1 & N1 & Qa1 & Qb1 & R1).
  destruct (round_stage false m2 e2 He2 P2) as (q2 & N2 & Qa2 & Qb2 & R2).
  rewrite fexp_eq in *.
  set (E1 := Z.max (Zpos (digits2_pos m1) + e1 - 53) (-1074)) in *.
  set (E2 := Z.max (Zpos (digits2_pos m2) + e2 - 53) (-1074)) in *.
  assert (HE : E1 <= E2).
  { assert (B1 := val_bounds m1 e1 He1). assert (B2 := val_bounds m2 e2 He2).
    assert (Hlt : 2 ^ (Zpos (digits2_pos m1) - 1 + e1 + bias)
                  < 2 ^ (Zpos (digits2_pos m2) + e2 + bias)) by lia.
    apply pow2_lt_inv in Hlt; unfold bias in *; subst E1 E2; lia. }
  assert (Hb1 : - bias <= E1) by (unfold bias; subst E1; lia).
  assert (Hb2 : - bias <= E2) by (unfold bias; subst E2; lia).
  assert (Hq1 : 0 <= q1) by (destruct R1 as [[-> _]|[? _]]; lia).
  assert (Hq2 : 0 <= q2) by (destruct R2 as [[-> _]|[? _]]; lia).
  assert (VQ : val q1 E1 <= val q2 E2).
  { destruct (Z_lt_le_dec E1 E2) as [Hlt|Hge].
    - assert (Q2 : 2 ^ 52 <= q2) by (apply Qb2; subst E1; lia).
      apply Z.le_trans with (val (2 ^ 53) E1); [apply val_mono; assumption|].
      apply Z.le_trans with (val (2 ^ 52) E2); [|apply val_mono; assumption].
      rewrite (val_shift (2 ^ 52) E2 (E1 + 1)) by lia.
      rewrite (val_shift (2 ^ 52 * 2 ^ (E2 - (E1 + 1))) (E1 + 1) E1) by lia.
      apply val_mono; [exact Hb1|].
      replace (E1 + 1 - E1) with 1 by lia.
      assert (1 <= 2 ^ (E2 - (E1 + 1)))
        by (assert (0 < 2 ^ (E2 - (E1 + 1))) by (apply pow2_pos; lia); lia).
      change (2 ^ 53) with (2 ^ 52 * 2). change (2 ^ 1) with 2. nia.
    - assert (EE : E2 = E1) by lia.
      assert (Hp1 : 0 <= E1 - e1) by lia.
      assert (Hp2 : 0 <= E2 - e2) by lia.
      destruct (nearest_val (Zpos m1) (E1 - e1) q1 e1 He1 Hp1 N1)
        as (A1 & B1 & _ & T1).
      destruct (nearest_val (Zpos m2) (E2 - e2) q2 e2 He2 Hp2 N2)
        as (A2 & B2 & T2 & _).
      replace (e1 + (E1 - e1)) with E1 in * by lia.
      replace (e2 + (E2 - e2)) with E1 in * by lia.
      rewrite EE. apply val_mono; [exact Hb1|].
      unfold val in A1, B1, T1, A2, B2, T2.
      apply (nearest_mono (Zpos m1 * 2 ^ (e1 + bias)) (Zpos m2 * 2 ^ (e2 + bias))
               q1 q2 (2 ^ (E1 + bias))); try assumption.
      apply pow2_pos. unfold bias in *. lia. }
  assert (Nonneg2 :
            SFleb zero (binary_round_aux prec emax false (Zpos m2) e2 loc_Exact) = true).
  { destruct R2 as [[_ ->]|(_ & m3 & e3 & _ & _ & ->)]; [reflexivity|].
    destruct (e3 <=? emax - prec); reflexivity. }
  destruct R1 as [[_ ->]|(Hp1 & m3 & e3 & C3 & V3 & ->)]; [exact Nonneg2|].
  assert (Hp2 : 0 < q2).
  { apply (val_pos_inv q2 E2 Hb2).
    assert (0 < val q1 E1) by (apply val_pos; assumption). lia. }
  destruct R2 as [[-> _]|(_ & m4 & e4 & C4 & V4 & ->)]; [lia|].
  assert (L : le_mag m3 e3 m4 e4)
    by (apply val_le_mag; try assumption; rewrite V3, V4; exact VQ).
  destruct (Z.leb_spec e3 (emax - prec)) as [L3|L3];
    destruct (Z.leb_spec e4 (emax - prec)) as [L4|L4]; try reflexivity.
  - exact (mag_le_SFleb (S754_finite false m3 e3) (S754_finite false m4 e4) L).
  - exfalso. destruct L as [L|[L _]]; lia.
Qed.

Lemma binary_round_mono (m1 m2 : positive) (e1 e2 : Z) :
  - bias <= e1 -> - bias <= e2 ->
  val (Zpos m1) e1 <= val (Zpos m2) e2 ->
  SFleb (binary_round prec emax false m1 e1) (binary_round prec emax false m2 e2)
    = true.
Proof.
  assert (Align : forall (m : positive) (e : Z), - bias <= e ->
            exists mz ez,
              shl_align m e (fexp prec emax (Zpos (digits2_pos m) + e)) = (mz, ez) /\
              - bias <= ez /\ ez <= fexp prec emax (Zpos (digits2_pos mz) + ez) /\
              val (Zpos mz) ez = val (Zpos m) e).
  { intros m e He.
    set (E := fexp prec emax (Zpos (digits2_pos m) + e)).
    assert (HE : E = Z.max (Zpos (digits2_pos m) + e - 53) (-1074))
      by (subst E; apply fexp_eq).
    destruct (Z_lt_le_dec E e) as [Hlt|Hge].
    - destruct (shl_align_spec m e E) as [Hm Hs]; [lia|].
      destruct (shl_align m e E) as [mz ez]. cbn [fst snd] in Hm, Hs. subst ez.
      assert (Hd := digits_shift m (e - E) mz ltac:(lia) Hm).
      exists mz, E. split; [reflexivity|]. split; [unfold bias in *; lia|].
      split.
      + rewrite Hd. replace (Zpos (digits2_pos m) + (e - E) + E)
          with (Zpos (digits2_pos m) + e) by lia. fold E. lia.
      + rewrite Hm. symmetry. apply val_shift. unfold bias in *. lia.
    - exists m, e. rewrite shl_align_id by exact Hge.
      split; [reflexivity|]. split; [exact He|]. split; [exact Hge | reflexivity]. }
  intros He1 He2 Hv. unfold binary_round.
  destruct (Align m1 e1 He1) as (mz1 & ez1 & -> & Hb1 & Hp1 & V1).
  destruct (Align m2 e2 He2) as (mz2 & ez2 & -> & Hb2 & Hp2 & V2).
  apply binary_round_aux_mono; try assumption.
  rewrite V1, V2. exact Hv.
Qed.

Lemma binary_normalize_mono (z1 z2 e1 e2 : Z) :
  - bias <= e1 -> - bias <= e2 -> 0 <= z1 ->
  val z1 e1 <= val z2 e2 ->
  SFleb (binary_normalize prec emax z1 e1 false)
        (binary_normalize prec emax z2 e2 false) = true.
Proof.
  intros He1 He2 Hz1 Hv.
  assert (Hz2 : 0 <= z2).
  { destruct (Z_lt_le_dec z2 0) as [Hn|Hp]; [|exact Hp]. exfalso.
    assert (0 <= val z1 e1).
    { destruct (Z.eq_dec z1 0) as [->|]; [unfold val; lia|].
      apply Z.lt_le_incl, val_pos; lia. }
    assert (val z2 e2 < 0).
    { unfold val, bias in *. apply Z.mul_neg_pos; [exact Hn|]. apply pow2_pos. lia. }
    lia. }
  destruct z1 as [|p1|p1]; try lia.
  - apply (rounds_to_nonneg (val z2 e2)). apply binary_normalize_pos; assumption.
  - destruct z2 as [|p2|p2]; try lia.
    + exfalso. assert (0 < val (Zpos p1) e1) by (apply val_pos; lia).
      unfold val in Hv at 2. lia.
    + apply binary_round_mono; assumption.
Qed.

(** ** Sums and differences as roundings of exact values *)

Lemma binary_round_aux_canonical (s : bool) (m : positive) (e : Z) :
  canon m e -> e <= 971 ->
  binary_round_aux prec emax s (Zpos m) e loc_Exact = S754_finite s m e.
Proof.
  intros C He. assert (I := proj1 (canon_inv _ _) C).
  assert (Hf : fexp prec emax (Zpos (digits2_pos m) + e) = e)
    by (rewrite fexp_eq; lia).
  destruct (shr_fexp_exact m e) as (r & Hs & Hm & Hx); [rewrite Hf; lia|].
  rewrite Hf in Hs, Hm, Hx. replace (e - e) with 0 in Hm, Hx by lia.
  rewrite Z.pow_0_r, Z.div_1_r in Hm. rewrite Z.mod_1_r in Hx.
  specialize (Hx eq_refl). destruct Hx as [Hr Hst].
  unfold binary_round_aux. rewrite Hs.
  destruct r as [rm rr rs]. cbn [shr_m shr_r shr_s] in *. subst rm rr rs.
  cbn [loc_of_shr_record round_nearest_even]. rewrite Hs. cbn [shr_m].
  replace (e <=? emax - prec) with true
    by (symmetry; apply Z.leb_le; unfold emax, prec; lia).
  reflexivity.
Qed.

Lemma binary_round_canonical (s : bool) (m : positive) (e : Z) :
  canon m e -> e <= 971 -> binary_round prec emax s m e = S754_finite s m e.
Proof.
  intros C He. assert (I := proj1 (canon_inv _ _) C).
  unfold binary_round. rewrite shl_align_id by (rewrite fexp_eq; lia).
  apply binary_round_aux_canonical; assumption.
Qed.

Lemma val_add (a b e : Z) : val (a + b) e = val a e + val b e.
Proof. unfold val. ring. Qed.

Lemma val_opp (a e : Z) : val (- a) e = - val a e.
Proof. unfold val. ring. Qed.

Lemma val_cond_Zopp (s : bool) (a e : Z) :
  val (cond_Zopp s a) e = cond_Zopp s (val a e).
Proof. destruct s; [apply val_opp | reflexivity]. Qed.

Lemma val_zero_inv (z e : Z) : - bias <= e -> val z e = 0 -> z = 0.
Proof.
  intros He H. unfold val, bias in *.
  assert (0 < 2 ^ (e + 2200)) by (apply pow2_pos; lia).
  apply Z.mul_eq_0 in H. lia.
Qed.

Lemma rounding_of_finite (m : positive) (e : Z) :
  is_double (S754_finite false m e) ->
  rounding_of (val (Zpos m) e) (S754_finite false m e).
Proof.
  intros D. apply is_double_finite in D. destruct D as [C He].
  assert (I := proj1 (canon_inv _ _) C).
  assert (Hb : - bias <= e) by (unfold bias; lia).
  right. split; [apply val_pos; lia|].
  exists (Zpos m), e. repeat split; try assumption; try lia.
  cbn [binary_normalize]. symmetry. apply binary_round_canonical; assumption.
Qed.

Lemma rounding_of_normalize (z e : Z) :
  - bias <= e -> 0 <= z ->
  rounding_of (val z e) (binary_normalize prec emax z e false).
Proof.
  intros He Hz. destruct (Z.eq_dec z 0) as [->|Hnz].
  - left. split; [unfold val; lia|]. exists false. reflexivity.
  - right. split; [apply val_pos; lia|]. exists z, e. repeat split; try lia.
Qed.

Lemma aligned_val (m : positive) (e ez : Z) :
  - bias <= ez <= e ->
  val (Zpos (fst (shl_align m e ez))) ez = val (Zpos m) e.
Proof.
  intros H. destruct (shl_align_spec m e ez) as [-> _]; [lia|].
  symmetry. apply val_shift. exact H.
Qed.

(** A sum that is not negative is the rounding of the exact sum. *)
Lemma fadd_rounding (x y : spec_float) :
  is_double x -> is_double y -> isFinite x = true -> isFinite y = true ->
  0 <= sval x + sval y ->
  rounding_of (sval x + sval y) (fadd x y).
Proof.
  intros Dx Dy Fx Fy Hs.
  destruct x as [sx|sx| |sx mx ex], y as [sy|sy| |sy my ey]; try discriminate.
  - left. split; [reflexivity|]. destruct sx, sy; eexists; reflexivity.
  - cbn [sval] in *. cbn [fadd SFadd].
    assert (Cy := proj1 (canon_inv _ _) (proj1 (proj1 (is_double_finite _ _ _) Dy))).
    assert (Vy : 0 < val (Zpos my) ey) by (apply val_pos; unfold bias; lia).
    destruct sy; [cbn [cond_Zopp] in Hs; lia|].
    cbn [cond_Zopp]. rewrite Z.add_0_l. apply rounding_of_finite, Dy.
  - cbn [sval] in *. cbn [fadd SFadd].
    assert (Cx := proj1 (canon_inv _ _) (proj1 (proj1 (is_double_finite _ _ _) Dx))).
    assert (Vx : 0 < val (Zpos mx) ex) by (apply val_pos; unfold bias; lia).
    destruct sx; [cbn [cond_Zopp] in Hs; lia|].
    cbn [cond_Zopp]. rewrite Z.add_0_r. apply rounding_of_finite, Dx.
  - assert (Cx := proj1 (canon_inv _ _) (proj1 (proj1 (is_double_finite _ _ _) Dx))).
    assert (Cy := proj1 (canon_inv _ _) (proj1 (proj1 (is_double_finite _ _ _) Dy))).
    cbn [sval] in *. unfold fadd, SFadd.
    set (ez := Z.min ex ey).
    assert (Hez : - bias <= ez) by (unfold bias; subst ez; lia).
    rewrite <- (aligned_val mx ex ez), <- (aligned_val my ey ez) in *
      by (subst ez; lia).
    rewrite <- !val_cond_Zopp, <- val_add in *.
    apply rounding_of_normalize; [exact Hez|].
    destruct (Z_lt_le_dec
                (cond_Zopp sx (Zpos (fst (shl_align mx ex ez))) +
                 cond_Zopp sy (Zpos (fst (shl_align my ey ez)))) 0) as [Hn|Hp];
      [|exact Hp].
    exfalso. unfold val, bias in *.
    assert (0 < 2 ^ (ez + 2200)) by (apply pow2_pos; lia).
    nia.
Qed.

(** A difference that is not negative is the rounding of the exact
    difference. *)
Lemma fsub_rounding (x y : spec_float) :
  is_double x -> is_double y -> isFinite x = true -> isFinite y = true ->
  0 <= sval x - sval y ->
  rounding_of (sval x - sval y) (fsub x y).
Proof.
  intros Dx Dy Fx Fy Hs.
  destruct x as [sx|sx| |sx mx ex], y as [sy|sy| |sy my ey]; try discriminate.
  - left. split; [reflexivity|]. destruct sx, sy; eexists; reflexivity.
  - cbn [sval] in *. cbn [fsub SFsub].
    assert (Cy := proj1 (canon_inv _ _) (proj1 (proj1 (is_double_finite _ _ _) Dy))).
    assert (Vy : 0 < val (Zpos my) ey) by (apply val_pos; unfold bias; lia).
    destruct sy; [|cbn [cond_Zopp] in Hs; lia].
    cbn [cond_Zopp negb]. replace (0 - - val (Zpos my) ey) with (val (Zpos my) ey) by lia.
    apply rounding_of_finite. exact Dy.
  - cbn [sval] in *. cbn [fsub SFsub].
    assert (Cx := proj1 (canon_inv _ _) (proj1 (proj1 (is_double_finite _ _ _) Dx))).
    assert (Vx : 0 < val (Zpos mx) ex) by (apply val_pos; unfold bias; lia).
    destruct sx; [cbn [cond_Zopp] in Hs; lia|].
    cbn [cond_Zopp]. rewrite Z.sub_0_r. apply rounding_of_finite, Dx.
  - assert (Cx := proj1 (canon_inv _ _) (proj1 (proj1 (is_double_finite _ _ _) Dx))).
    assert (Cy := proj1 (canon_inv _ _) (proj1 (proj1 (is_double_finite _ _ _) Dy))).
    cbn [sval] in *. unfold fsub, SFsub.
    set (ez := Z.min ex ey).
    assert (Hez : - bias <= ez) by (unfold bias; subst ez; lia).
    rewrite <- (aligned_val mx ex ez), <- (aligned_val my ey ez) in *
      by (subst ez; lia).
    rewrite <- !val_cond_Zopp in *.
    replace (val (cond_Zopp sx (Zpos (fst (shl_align mx ex ez)))) ez -
             val (cond_Zopp sy (Zpos (fst (shl_align my ey ez)))) ez)
      with (val (cond_Zopp sx (Zpos (fst (shl_align mx ex ez))) -
                 cond_Zopp sy (Zpos (fst (shl_align my ey ez)))) ez) in *
      by (unfold val; ring).
    apply rounding_of_normalize; [exact Hez|].
    destruct (Z_lt_le_dec
                (cond_Zopp sx (Zpos (fst (shl_align mx ex ez))) -
                 cond_Zopp sy (Zpos (fst (shl_align my ey ez)))) 0) as [Hn|Hp];
      [|exact Hp].
    exfalso. unfold val, bias in *.
    assert (0 < 2 ^ (ez + 2200)) by (apply pow2_pos; lia).
    nia.
Qed.

(** Roundings are ordered as the exact values are. *)
Lemma rounding_of_mono (v1 v2 : Z) (r1 r2 : spec_float) :
  rounding_of v1 r1 -> rounding_of v2 r2 -> v1 <= v2 -> SFleb r1 r2 = true.
Proof.
  intros [(E1 & s1 & ->)|(P1 & z1 & e1 & B1 & Z1 & V1 & ->)]
         [(E2 & s2 & ->)|(P2 & z2 & e2 & B2 & Z2 & V2 & ->)] Hv.
  - reflexivity.
  - assert (H : SFleb zero (binary_normalize prec emax z2 e2 false) = true)
      by (apply (rounds_to_nonneg (val z2 e2)), binary_normalize_pos; lia).
    apply SFleb_zero in H.
    destruct (binary_normalize prec emax z2 e2 false) as [s|s| |s m e];
      try contradiction; try subst s; destruct s1; reflexivity.
  - lia.
  - apply binary_normalize_mono; try assumption; lia.
Qed.

(** The magnitudes of finite doubles, as values. *)
Lemma mag_le_sval (x y : spec_float) :
  is_double x -> is_double y -> mag_le x y -> Z.abs (sval x) <= Z.abs (sval y).
Proof.
  intros Dx Dy H.
  destruct x as [sx|sx| |sx mx ex], y as [sy|sy| |sy my ey];
    cbn [mag_le] in H; try tauto; cbn [sval].
  - lia.
  - lia.
  - apply is_double_finite in Dx, Dy. destruct Dx as [Cx _], Dy as [Cy _].
    assert (V := le_mag_val _ _ _ _ Cx Cy H).
    assert (Ix := proj1 (canon_inv _ _) Cx). assert (Iy := proj1 (canon_inv _ _) Cy).
    assert (0 < val (Zpos mx) ex) by (apply val_pos; unfold bias; lia).
    assert (0 < val (Zpos my) ey) by (apply val_pos; unfold bias; lia).
    destruct sx, sy; cbn [cond_Zopp]; lia.
Qed.

Lemma sval_nonneg (x : spec_float) :
  is_double x -> signbit x = false -> 0 <= sval x.
Proof.
  intros D S. destruct x as [s|s| |s m e]; cbn [sval]; try lia.
  cbn [signbit] in S. subst s. cbn [cond_Zopp].
  apply is_double_finite in D. destruct D as [C _].
  assert (I := proj1 (canon_inv _ _) C).
  apply Z.lt_le_incl, val_pos; unfold bias; lia.
Qed.

(** For [0 <= t <= b] and [|jit| <= t]:
    [b - t <= b + jit <= b + t], each side rounded. *)
Lemma jittered_between (b t jit : spec_float) :
  is_double b -> is_double t -> is_double jit ->
  isFinite b = true -> isFinite t = true -> isFinite jit = true ->
  signbit b = false -> signbit t = false ->
  mag_le t b -> mag_le jit t ->
  SFleb (fsub b t) (fadd b jit) = true /\
  SFleb (fadd b jit) (fadd b t) = true.
Proof.
  intros Db Dt Dj Fb Ft Fj Sb St Mt Mj.
  assert (Hb := sval_nonneg b Db Sb). assert (Ht := sval_nonneg t Dt St).
  assert (At := mag_le_sval t b Dt Db Mt).
  assert (Aj := mag_le_sval jit t Dj Dt Mj).
  assert (R1 : rounding_of (sval b - sval t) (fsub b t))
    by (apply fsub_rounding; try assumption; lia).
  assert (R2 : rounding_of (sval b + sval jit) (fadd b jit))
    by (apply fadd_rounding; try assumption; lia).
  assert (R3 : rounding_of (sval b + sval t) (fadd b t))
    by (apply fadd_rounding; try assumption; lia).
  split.
  - apply (rounding_of_mono _ _ _ _ R1 R2). lia.
  - apply (rounding_of_mono _ _ _ _ R2 R3). lia.
Qed.

End DoubleFacts.

(** ** Backoff delay *)

Section DelayFacts.

Local Open Scope Z_scope.

Lemma SFcompare_refl (x : spec_float) : x <> S754_nan -> SFcompare x x = Some Eq.
Proof.
  destruct x as [s|[|]| |[|] m e]; intros H; try reflexivity; try congruence;
    unfold SFcompare; rewrite Z.compare_refl, Pos.compare_cont_refl; reflexivity.
Qed.

Lemma SFcompare_nan (x y : spec_float) :
  SFcompare x y = None <-> x = S754_nan \/ y = S754_nan.
Proof.
  destruct x as [sx|[|]| |[|] mx ex], y as [sy|[|]| |[|] my ey];
    cbn [SFcompare]; split; intros H; try discriminate; try reflexivity; auto;
    destruct H; discriminate.
Qed.

Lemma SFcompare_antisym (x y : spec_float) (c : comparison) :
  SFcompare x y = Some c -> SFcompare y x = Some (CompOpp c).
Proof.
  destruct x as [sx|[|]| |[|] mx ex], y as [sy|[|]| |[|] my ey];
    cbn [SFcompare]; intros H; try discriminate;
    injection H as <-; try reflexivity.
  - rewrite (Z.compare_antisym ex ey).
    destruct (ex ?= ey); cbn [CompOpp];
      rewrite ?Pos.compare_cont_antisym; cbn [CompOpp]; reflexivity.
  - rewrite (Z.compare_antisym ex ey).
    destruct (ex ?= ey); cbn [CompOpp];
      rewrite ?Pos.compare_cont_antisym; cbn [CompOpp]; reflexivity.
Qed.

(** [Math.min] returns one of its arguments unless one of them is [NaN]. *)
Lemma Math_min_cases (x y : spec_float) :
  (Math_min x y = S754_nan /\ (x = S754_nan \/ y = S754_nan)) \/
  (x <> S754_nan /\ y <> S754_nan /\
   (Math_min x y = x \/ Math_min x y = y) /\
   SFleb (Math_min x y) x = true /\ SFleb (Math_min x y) y = true).
Proof.
  unfold Math_min. destruct (SFcompare x y) as [c|] eqn:E.
  - right.
    assert (Hx : x <> S754_nan)
      by (intros ->; discriminate).
    assert (Hy : y <> S754_nan)
      by (intros ->; destruct x; discriminate).
    assert (A := SFcompare_antisym x y c E).
    split; [exact Hx|]. split; [exact Hy|].
    destruct c; cbn [CompOpp] in A.
    + assert (G : SFleb x x = true /\ SFleb x y = true /\
                  SFleb y x = true /\ SFleb y y = true).
      { unfold SFleb. rewrite E, A, !SFcompare_refl by assumption. auto. }
      destruct G as (G1 & G2 & G3 & G4).
      destruct x as [[|]| | |], y as [[|]| | |]; auto.
    + split; [auto|]. unfold SFleb. rewrite E, SFcompare_refl by exact Hx. auto.
    + split; [auto|]. unfold SFleb. rewrite A, SFcompare_refl by exact Hy. auto.
  - left. split; [reflexivity|]. apply SFcompare_nan, E.
Qed.

Lemma Math_min_nonneg (x y : spec_float) :
  SFleb zero x = true -> SFleb zero y = true -> SFleb zero (Math_min x y) = true.
Proof.
  intros Hx Hy.
  destruct (Math_min_cases x y) as [[_ [->| ->]]|(_ & _ & [->| ->] & _)];
    try discriminate; assumption.
Qed.

Variable Math_pow : spec_float -> nat -> spec_float.

Lemma SFltb_SFleb (x y : spec_float) : SFltb x y = true -> SFleb x y = true.
Proof.
  unfold SFltb, SFleb. destruct (SFcompare x y) as [[| |]|]; try discriminate.
  reflexivity.
Qed.

(** A double in [[0,1]] is finite, of magnitude at most one, and its sign
    bit is clear unless it is [-0]. *)
Lemma unit_interval (x : spec_float) :
  SFleb zero x = true -> SFleb x one = true ->
  isFinite x = true /\ mag_le x one /\
  (signbit x = false \/ x = S754_zero true).
Proof.
  intros P L.
  destruct x as [[|]|[|]| |[|] m e]; try discriminate; repeat split; auto.
  apply (SFleb_mag_le (S754_finite false m e) one eq_refl). exact L.
Qed.

(** [Math.random() * 2 - 1] is a finite double of magnitude at most one. *)
Lemma draw_factor (rnd : spec_float) :
  is_double rnd -> SFleb zero rnd = true -> SFltb rnd one = true ->
  let u := fsub (fmul rnd two) one in
  isFinite u = true /\ is_double u /\ mag_le u one.
Proof.
  intros Dr Pr Lr u. subst u.
  assert (D2 : is_double two) by reflexivity.
  destruct (unit_interval rnd Pr (SFltb_SFleb _ _ Lr)) as (Fr & Mr & Sr).
  destruct Sr as [Sr | ->].
  - destruct (fmul_le_r rnd two Dr D2 eq_refl Mr) as (Fv & Dv & Mv & Sv).
    apply fsub_one; try assumption.
    apply SFleb_zero.
    destruct (fmul rnd two) as [s|s| |s m e]; try discriminate; try exact I.
    cbn [signbit] in Sv. rewrite Sv, Sr. reflexivity.
  - repeat split. apply le_mag_refl.
Qed.

(** What a jitter factor in [[0,1]] leaves of [jitterFactor || 0]. *)
Lemma jitterFactorOr0_unit (cfg : RetryConfig) :
  (forall j, jitterFactor cfg = Some j ->
     is_double j /\ SFleb zero j = true /\ SFleb j one = true) ->
  is_double (jitterFactorOr0 cfg) /\ mag_le (jitterFactorOr0 cfg) one /\
  signbit (jitterFactorOr0 cfg) = false.
Proof.
  intros H. unfold jitterFactorOr0.
  destruct (jitterFactor cfg) as [j|]; [|repeat split].
  destruct (H j eq_refl) as (Dj & Pj & Lj).
  destruct (unit_interval j Pj Lj) as (Fj & Mj & Sj).
  destruct j as [s|s| |s m e]; try discriminate; repeat split; try assumption.
  destruct Sj as [Sj|Sj]; [exact Sj | discriminate].
Qed.

Lemma jitterFactorOr0_none (cfg : RetryConfig) :
  jitterFactor cfg = None -> jitterFactorOr0 cfg = zero.
Proof. unfold jitterFactorOr0. now intros ->. Qed.

(** With a zero jitter factor and a base delay that is finite and not
    negative the delay is the clamped base delay. *)
Lemma delay_zero_jitter (cfg : RetryConfig) (n : nat) (rnd : spec_float) :
  let b := baseDelay Math_pow cfg n in
  isFinite b = true -> signbit b = false ->
  isFinite (fsub (fmul rnd two) one) = true ->
  jitterFactorOr0 cfg = zero ->
  jitter Math_pow cfg n rnd = S754_zero (signbit (fsub (fmul rnd two) one)) /\
  calculateRetryDelay Math_pow cfg n rnd = Math_min b (maxDelayMs cfg).
Proof.
  intros b Fb Sb Fu Hj. unfold calculateRetryDelay, jitter. fold b. rewrite Hj.
  destruct (fsub (fmul rnd two) one) as [su|su| |su mu eu]; try discriminate;
    destruct b as [sb|sb| |sb mb eb]; try discriminate;
    cbn [signbit] in Sb; subst sb; split; try reflexivity;
    destruct su; reflexivity.
Qed.

(** The jitter term of a finite, non-negative base delay, for a jitter
    factor in [[0,1]] and a draw in [[0,1)]. *)
Lemma jitter_bounds (cfg : RetryConfig) (n : nat) (rnd : spec_float) :
  let b := baseDelay Math_pow cfg n in
  is_double b -> isFinite b = true -> signbit b = false ->
  is_double rnd -> SFleb zero rnd = true -> SFltb rnd one = true ->
  (forall j, jitterFactor cfg = Some j ->
     is_double j /\ SFleb zero j = true /\ SFleb j one = true) ->
  let t := fmul b (jitterFactorOr0 cfg) in
  is_double t /\ isFinite t = true /\ signbit t = false /\ mag_le t b /\
  isFinite (jitter Math_pow cfg n rnd) = true /\
  is_double (jitter Math_pow cfg n rnd) /\
  mag_le (jitter Math_pow cfg n rnd) t.
Proof.
  intros b Db Fb Sb Dr Pr Lr Hj t.
  destruct (jitterFactorOr0_unit cfg Hj) as (Dj & Mj & Sj).
  destruct (draw_factor rnd Dr Pr Lr) as (Fu & Du & Mu).
  destruct (fmul_le_l b (jitterFactorOr0 cfg) Db Dj Fb Mj) as (Ft & Dt & Mt & St).
  fold t in Ft, Dt, Mt, St. rewrite Sb, Sj in St.
  destruct (fmul_le_l t _ Dt Du Ft Mu) as (Fjit & Djit & Mjit & _).
  unfold jitter. fold b. fold t. repeat split; assumption.
Qed.

(** The delay before the clamp lies between [baseDelay - baseDelay *
    jitterFactor] and [baseDelay + baseDelay * jitterFactor]. *)
Lemma delay_before_clamp_between (cfg : RetryConfig) (n : nat) (rnd : spec_float) :
  let b := baseDelay Math_pow cfg n in
  is_double b -> isFinite b = true -> signbit b = false ->
  is_double rnd -> SFleb zero rnd = true -> SFltb rnd one = true ->
  (forall j, jitterFactor cfg = Some j ->
     is_double j /\ SFleb zero j = true /\ SFleb j one = true) ->
  let t := fmul b (jitterFactorOr0 cfg) in
  SFleb (fsub b t) (fadd b (jitter Math_pow cfg n rnd)) = true /\
  SFleb (fadd b (jitter Math_pow cfg n rnd)) (fadd b t) = true.
Proof.
  intros b Db Fb Sb Dr Pr Lr Hj t.
  destruct (jitter_bounds cfg n rnd Db Fb Sb Dr Pr Lr Hj)
    as (Dt & Ft & St & Mt & Fjit & Djit & Mjit).
  apply jittered_between; assumption.
Qed.

(** The delay before the clamp is not negative. *)
Lemma delay_before_clamp_nonneg (cfg : RetryConfig) (n : nat) (rnd : spec_float) :
  let b := baseDelay Math_pow cfg n in
  is_double b -> isFinite b = true -> signbit b = false ->
  is_double rnd -> SFleb zero rnd = true -> SFltb rnd one = true ->
  (forall j, jitterFactor cfg = Some j ->
     is_double j /\ SFleb zero j = true /\ SFleb j one = true) ->
  SFleb zero (fadd b (jitter Math_pow cfg n rnd)) = true.
Proof.
  intros b Db Fb Sb Dr Pr Lr Hj.
  destruct (jitter_bounds cfg n rnd Db Fb Sb Dr Pr Lr Hj)
    as (Dt & Ft & St & Mt & Fjit & Djit & Mjit).
  apply fadd_nonneg; try assumption.
  - apply SFleb_zero. destruct b; try discriminate; [exact I | exact Sb].
  - eapply mag_le_trans; [exact Mjit | exact Mt].
Qed.

End DelayFacts.


Lemma SFabs_nonneg (x : spec_float) : signbit x = false -> SFabs x = x.
Proof. destruct x; cbn; intros; subst; reflexivity. Qed.

(** C1, on the code.  The formula fails where the exponential overflows.
    With [retry: { maxAttempts: 2000, jitterFactor: 0 }] attempt 1015 is
    below [maxAttempts]; [Math.pow(2, 1015)] is the double [2 ^ 1015], so
    [baseDelay = 1000 * 2 ^ 1015] is [Infinity],
    [jitter = Infinity * 0 * (...)] is [NaN], and the delay is
    [Math.min(Infinity + NaN, 30000) = NaN] for every draw, where
    [min (initialDelayMs * backoffFactor ^ n) maxDelayMs] is [30000].
    With the default jitter factor and the draw [0.25] the jitter term is
    [-Infinity] and the delay is [NaN] as well. *)
Theorem retry_delay_is_NaN_on_overflow
    (Math_pow : spec_float -> nat -> spec_float) (rnd : spec_float) :
  Math_pow (ofZ 2) 1015%nat = S754_finite false 4503599627370496 963 ->
  inject_Z (Z.of_nat 1015) < maxAttempts manyAttemptsNoJitter /\
  jitterFactorOr0 manyAttemptsNoJitter = zero /\
  baseDelay Math_pow manyAttemptsNoJitter 1015 = S754_infinity false /\
  Math_min (baseDelay Math_pow manyAttemptsNoJitter 1015)
           (maxDelayMs manyAttemptsNoJitter) = ofZ 30000 /\
  calculateRetryDelay Math_pow manyAttemptsNoJitter 1015 rnd = S754_nan /\
  jitter Math_pow DEFAULT_RETRY_CONFIG 1015 quarter = S754_infinity true /\
  calculateRetryDelay Math_pow DEFAULT_RETRY_CONFIG 1015 quarter = S754_nan.
Proof.
  intros Hpow.
  assert (Hb : baseDelay Math_pow manyAttemptsNoJitter 1015 = S754_infinity false).
  { unfold baseDelay. change (backoffFactor manyAttemptsNoJitter) with (ofZ 2).
    rewrite Hpow. vm_compute. reflexivity. }
  repeat apply conj.
  - vm_compute. reflexivity.
  - reflexivity.
  - exact Hb.
  - rewrite Hb. vm_compute. reflexivity.
  - unfold calculateRetryDelay, jitter. rewrite Hb. reflexivity.
  - unfold jitter, baseDelay.
    change (backoffFactor DEFAULT_RETRY_CONFIG) with (ofZ 2).
    rewrite Hpow. vm_compute. reflexivity.
  - unfold calculateRetryDelay, jitter, baseDelay.
    change (backoffFactor DEFAULT_RETRY_CONFIG) with (ofZ 2).
    rewrite Hpow. vm_compute. reflexivity.
Qed.

(** Repeated multiplication by two gives [2 ^ 1015] exactly. *)
Lemma retry_delay_is_NaN_on_overflow_witness :
  calculateRetryDelay powByMultiplying manyAttemptsNoJitter 1015 half = S754_nan.
Proof.
  assert (Hpow : powByMultiplying (ofZ 2) 1015 =
                 S754_finite false 4503599627370496 963)
    by (vm_compute; reflexivity).
  destruct (retry_delay_is_NaN_on_overflow powByMultiplying half Hpow)
    as (_ & _ & _ & _ & H & _).
  exact H.
Defined.

(** C10 as stated fails once the clamp applies: with [maxAttempts: 10]
    and the other defaults, the delay of attempt 6 is
    [maxDelayMs = 30000], below
    [baseDelay * (1 - jitterFactor) = 57600]. *)
Lemma delay_below_jitter_floor_when_clamped :
  SFleb zero (initialDelayMs tenAttempts) = true /\
  SFleb zero (backoffFactor tenAttempts) = true /\
  jitterFactor tenAttempts = Some tenth /\
  SFleb zero tenth = true /\ SFleb tenth one = true /\
  SFleb zero half = true /\ SFltb half one = true /\
  inject_Z (Z.of_nat 6) < maxAttempts tenAttempts /\
  baseDelay powByMultiplying tenAttempts 6 = ofZ 64000 /\
  fmul (baseDelay powByMultiplying tenAttempts 6) (fsub one tenth) = ofZ 57600 /\
  calculateRetryDelay powByMultiplying tenAttempts 6 half = ofZ 30000 /\
  SFleb (fmul (baseDelay powByMultiplying tenAttempts 6) (fsub one tenth))
        (calculateRetryDelay powByMultiplying tenAttempts 6 half) = false.
Proof.
  repeat apply conj; vm_compute; reflexivity.
Qed.

(** C10, amended.  When [baseDelay] is a finite double that is not
    negative, as non-negative [initialDelayMs] and [backoffFactor] give
    unless the product overflows, the jitter factor is in [[0,1]] and the
    draw in [[0,1)]: the jitter term is at most [baseDelay * jitterFactor]
    in magnitude, which is at most [baseDelay], so the delay before the
    clamp, [baseDelay + jitter], is at least
    [baseDelay - baseDelay * jitterFactor], at most
    [baseDelay + baseDelay * jitterFactor], and not negative; the computed
    delay is the [Math.min] of that value and [maxDelayMs], and is not
    negative when [maxDelayMs] is not.  A missing [jitterFactor] counts as
    zero and gives exactly [Math.min(baseDelay, maxDelayMs)]. *)
Theorem retry_delay_floor (Math_pow : spec_float -> nat -> spec_float)
    (cfg : RetryConfig) (n : nat) (rnd : spec_float) :
  let b := baseDelay Math_pow cfg n in
  let jit := jitter Math_pow cfg n rnd in
  is_double b -> isFinite b = true -> signbit b = false ->
  is_double rnd -> SFleb zero rnd = true -> SFltb rnd one = true ->
  (forall j, jitterFactor cfg = Some j ->
     is_double j /\ SFleb zero j = true /\ SFleb j one = true) ->
  SFleb (SFabs jit) (fmul b (jitterFactorOr0 cfg)) = true /\
  SFleb (fmul b (jitterFactorOr0 cfg)) b = true /\
  SFleb (fsub b (fmul b (jitterFactorOr0 cfg))) (fadd b jit) = true /\
  SFleb (fadd b jit) (fadd b (fmul b (jitterFactorOr0 cfg))) = true /\
  SFleb zero (fadd b jit) = true /\
  calculateRetryDelay Math_pow cfg n rnd = Math_min (fadd b jit) (maxDelayMs cfg) /\
  (SFleb zero (maxDelayMs cfg) = true ->
     SFleb zero (calculateRetryDelay Math_pow cfg n rnd) = true) /\
  (jitterFactor cfg = None ->
     calculateRetryDelay Math_pow cfg n rnd = Math_min b (maxDelayMs cfg)).
Proof.
  intros b jit Db Fb Sb Dr Pr Lr Hj.
  destruct (jitter_bounds Math_pow cfg n rnd Db Fb Sb Dr Pr Lr Hj)
    as (Dt & Ft & St & Mt & Fjit & Djit & Mjit).
  fold b in Dt, Ft, St, Mt, Mjit. fold jit in Fjit, Djit, Mjit.
  destruct (delay_before_clamp_between Math_pow cfg n rnd Db Fb Sb Dr Pr Lr Hj)
    as (Lo & Hi).
  fold b in Lo, Hi. fold jit in Lo, Hi.
  assert (Psum : SFleb zero (fadd b jit) = true)
    by (apply delay_before_clamp_nonneg; assumption).
  repeat apply conj.
  - pose proof (mag_le_SFleb _ _ Mjit) as H.
    rewrite (SFabs_nonneg _ St) in H. exact H.
  - pose proof (mag_le_SFleb _ _ Mt) as H.
    rewrite (SFabs_nonneg _ St), (SFabs_nonneg _ Sb) in H. exact H.
  - exact Lo.
  - exact Hi.
  - exact Psum.
  - reflexivity.
  - intros Pm. apply Math_min_nonneg; assumption.
  - intros Hnone.
    destruct (draw_factor rnd Dr Pr Lr) as (Fu & _ & _).
    apply (delay_zero_jitter Math_pow cfg n rnd Fb Sb Fu).
    apply jitterFactorOr0_none, Hnone.
Qed.

(** The default configuration at attempt 2 with the draw [0.25], and the
    configuration whose [jitterFactor] is [undefined]. *)
Lemma retry_delay_floor_witness :
  SFleb zero (calculateRetryDelay powByMultiplying DEFAULT_RETRY_CONFIG 2 quarter)
    = true /\
  calculateRetryDelay powByMultiplying jitterUndefined 2 quarter
    = Math_min (ofZ 4000) (ofZ 30000).
Proof.
  split.
  - pose proof (retry_delay_floor powByMultiplying DEFAULT_RETRY_CONFIG 2 quarter
                  eq_refl eq_refl eq_refl eq_refl eq_refl eq_refl) as H.
    destruct H as (_ & _ & _ & _ & _ & _ & H & _).
    + intros j Hj. injection Hj as <-. repeat split; reflexivity.
    + apply H. reflexivity.
  - pose proof (retry_delay_floor powByMultiplying jitterUndefined 2 quarter
                  eq_refl eq_refl eq_refl eq_refl eq_refl eq_refl) as H.
    destruct H as (_ & _ & _ & _ & _ & _ & _ & H).
    + intros j Hj. discriminate Hj.
    + exact (H eq_refl).
Defined.

(** ** The handlers, one call at a time *)

Lemma at_max_attempts {T : Type} (options : UseSSEOptions T) (rc : nat) :
  maxAttempts (retryConfig options) <= inject_Z (Z.of_nat rc) ->
  Qle_bool (maxAttempts (retryConfig options)) (inject_Z (Z.of_nat rc)) = true.
Proof. intros H. now apply Qle_bool_iff. Qed.

Lemma errorHandler_mounted {T : Type}
    (Math_pow : spec_float -> nat -> spec_float) (options : UseSSEOptions T)
    (rc : nat) (rnd : spec_float) (w : World T) :
  isMounted w = true ->
  errorHandler Math_pow options rc rnd w =
  if shouldRetryNow options connectionError rc
  then attemptReconnect Math_pow options rc rnd (signalled options w)
  else signalled options w.
Proof. intros Hm. unfold errorHandler. rewrite Hm. reflexivity. Qed.

Lemma isMounted_signalled {T : Type} (options : UseSSEOptions T) (w : World T) :
  isMounted (signalled options w) = isMounted w.
Proof. unfold signalled. now destruct (onError options). Qed.

Lemma attemptReconnect_at_max {T : Type}
    (Math_pow : spec_float -> nat -> spec_float) (options : UseSSEOptions T)
    (rc : nat) (rnd : spec_float) (w : World T) :
  isMounted w = true ->
  Qle_bool (maxAttempts (retryConfig options)) (inject_Z (Z.of_nat rc)) = true ->
  attemptReconnect Math_pow options rc rnd w =
  setError (Some (maxRetryExceeded options)) (setStatus ERROR w).
Proof. intros Hm Hx. unfold attemptReconnect. rewrite Hm, Hx. reflexivity. Qed.

(** C2 as stated fails: with [maxAttempts: 0] and a [shouldRetry] that
    returns [false], an error signal at attempt count [0 >= maxAttempts]
    leaves the code [CONNECTION_ERROR]; [attemptReconnect], which holds the
    attempt-count check, is not reached. *)
Lemma shouldRetry_consulted_before_max_attempts :
  let w := mount testUrl neverRetry in
  let w' := errorHandler powByMultiplying neverRetry (retryCount w) half w in
  isMounted w = true /\
  maxAttempts (retryConfig neverRetry) <= inject_Z (Z.of_nat (retryCount w)) /\
  status w' = ERROR /\
  errorCode w' = Some "CONNECTION_ERROR" /\
  errorCode w' <> Some "MAX_RETRY_EXCEEDED".
Proof.
  repeat split; try reflexivity.
  - vm_compute. discriminate.
  - vm_compute. discriminate.
Qed.

(** C2, amended.  An error signal handled when the attempt count has
    reached [maxAttempts] leaves status [ERROR] and schedules no retry.
    The error becomes [MAX_RETRY_EXCEEDED], a code distinct from the two
    others, when [shouldRetry] returns [true] for the connection error and
    the attempt count; it stays [CONNECTION_ERROR] when [shouldRetry]
    returns [false] or is missing, as [shouldRetry] is asked first. *)
Theorem error_at_max_attempts {T : Type}
    (Math_pow : spec_float -> nat -> spec_float) (options : UseSSEOptions T)
    (rc : nat) (rnd : spec_float) (w : World T) :
  isMounted w = true ->
  maxAttempts (retryConfig options) <= inject_Z (Z.of_nat rc) ->
  let w' := errorHandler Math_pow options rc rnd w in
  status w' = ERROR /\
  timers w' = timers w /\
  retryTimeoutRef w' = retryTimeoutRef w /\
  sources w' = sources w /\
  error w' = Some (if shouldRetryNow options connectionError rc
                   then maxRetryExceeded options else connectionError) /\
  code (maxRetryExceeded options) = Some "MAX_RETRY_EXCEEDED" /\
  code (maxRetryExceeded options) <> code connectionError /\
  code (maxRetryExceeded options) <> code parseError.
Proof.
  intros Hm Hmax w'. subst w'.
  apply at_max_attempts in Hmax.
  rewrite (errorHandler_mounted Math_pow options rc rnd w Hm).
  destruct (shouldRetryNow options connectionError rc).
  - rewrite attemptReconnect_at_max; [| now rewrite isMounted_signalled | exact Hmax].
    unfold signalled.
    destruct (onError options); simpl; repeat split; try discriminate.
  - unfold signalled. destruct (onError options); simpl;
      repeat split; try discriminate.
Qed.

(** The default configuration, the handler holding attempt count 3. *)
Lemma error_at_max_attempts_witness :
  errorCode
    (errorHandler powByMultiplying callbacksOnly 3 half (mount testUrl callbacksOnly)) =
  Some "MAX_RETRY_EXCEEDED".
Proof.
  assert (Hm : isMounted (mount testUrl callbacksOnly) = true) by reflexivity.
  assert (Hx : maxAttempts (retryConfig callbacksOnly) <= inject_Z (Z.of_nat 3))
    by (vm_compute; discriminate).
  destruct (error_at_max_attempts powByMultiplying callbacksOnly 3 half
              (mount testUrl callbacksOnly) Hm Hx) as (_ & _ & _ & _ & He & _).
  unfold errorCode. rewrite He. reflexivity.
Defined.

(** C4.  When [shouldRetry], given the connection error and the attempt
    count, returns [false], the error handler schedules nothing and leaves
    [retryCount] alone; status is [ERROR] and the error is the connection
    error. *)
Theorem shouldRetry_false_schedules_nothing {T : Type}
    (Math_pow : spec_float -> nat -> spec_float)
    (options : UseSSEOptions T) (f : SSEError -> nat -> bool)
    (rc : nat) (rnd : spec_float) (w : World T) :
  isMounted w = true ->
  shouldRetry (retryConfig options) = Some f ->
  f connectionError rc = false ->
  let w' := errorHandler Math_pow options rc rnd w in
  timers w' = timers w /\
  retryTimeoutRef w' = retryTimeoutRef w /\
  nextTimeoutId w' = nextTimeoutId w /\
  sources w' = sources w /\
  eventSourceRef w' = eventSourceRef w /\
  retryCount w' = retryCount w /\
  status w' = ERROR /\
  error w' = Some connectionError /\
  errorCode w' = Some "CONNECTION_ERROR".
Proof.
  intros Hm Hf Hfalse w'. subst w'.
  rewrite (errorHandler_mounted Math_pow options rc rnd w Hm).
  unfold shouldRetryNow, errorCode. rewrite Hf, Hfalse.
  unfold signalled. destruct (onError options); simpl; repeat split.
Qed.

Lemma shouldRetry_false_schedules_nothing_witness :
  let w := mount testUrl neverRetry in
  let w' := errorHandler powByMultiplying neverRetry 0 half w in
  timers w' = [] /\ retryCount w' = 0%nat /\ status w' = ERROR.
Proof.
  destruct (shouldRetry_false_schedules_nothing powByMultiplying neverRetry (fun _ _ => false)
              0 half (mount testUrl neverRetry) eq_refl eq_refl eq_refl)
    as (Ht & _ & _ & _ & _ & Hr & Hs & _).
  cbv zeta. rewrite Ht, Hr, Hs. repeat split.
Defined.

(** C6.  A message whose payload fails to decode, with the default decoder
    or with [parseData], sets the error to the [PARSE_ERROR] one and calls
    [onError]; status and data keep their values. *)
Theorem parse_failure_keeps_status_and_data {T : Type}
    (JSON_parse : string -> option (option T)) (options : UseSSEOptions T)
    (payload : string) (w : World T) :
  isMounted w = true ->
  decode JSON_parse options payload = None ->
  let w' := messageHandler JSON_parse options payload w in
  error w' = Some parseError /\
  errorCode w' = Some "PARSE_ERROR" /\
  calls w' =
    calls w ++ (if onError options then [OnError (Some parseError)] else []) /\
  status w' = status w /\
  data w' = data w /\
  retryCount w' = retryCount w /\
  sources w' = sources w /\
  timers w' = timers w.
Proof.
  intros Hm Hd w'. subst w'.
  unfold messageHandler, reportParseError, errorCode. rewrite Hm, Hd. simpl.
  destruct (onError options); simpl; repeat split.
  now rewrite app_nil_r.
Qed.

(** An open connection that holds [JTrue] and then receives [invalid-json]. *)
Lemma parse_failure_keeps_status_and_data_witness :
  let w := messageHandler parseLiteral callbacksOnly "true" afterOpen in
  let w' := messageHandler parseLiteral callbacksOnly "invalid-json" w in
  data w = Some JTrue /\ status w = OPEN /\
  data w' = Some JTrue /\ status w' = OPEN /\ errorCode w' = Some "PARSE_ERROR".
Proof.
  destruct (parse_failure_keeps_status_and_data parseLiteral callbacksOnly
              "invalid-json"
              (messageHandler parseLiteral callbacksOnly "true" afterOpen)
              eq_refl eq_refl) as (_ & Hc & _ & Hs & Hd & _).
  cbv zeta. rewrite Hc, Hs, Hd. repeat split.
Defined.

(** ** Closing *)

Lemma filter_twice {A : Type} (f : A -> bool) (l : list A) :
  filter f (filter f l) = filter f l.
Proof.
  induction l as [|x l IH]; simpl; [reflexivity|].
  destruct (f x) eqn:E; simpl; [rewrite E, IH|]; auto.
Qed.

Lemma nth_error_updateAt {A : Type} (f : A -> A) (l : list A) (i j : nat) :
  nth_error (updateAt i f l) j =
  if Nat.eqb i j then option_map f (nth_error l j) else nth_error l j.
Proof.
  revert i j. induction l as [|x l IH]; intros i j.
  - destruct i, j; simpl; try reflexivity. now destruct (Nat.eqb i j).
  - destruct i, j; simpl; try reflexivity. apply IH.
Qed.

(** Two worlds with the same fields are the same world. *)
Lemma world_ext {T : Type} (w w' : World T) :
  status w = status w' -> data w = data w' -> error w = error w' ->
  retryCount w = retryCount w' -> eventSourceRef w = eventSourceRef w' ->
  retryTimeoutRef w = retryTimeoutRef w' -> isMounted w = isMounted w' ->
  effectSource w = effectSource w' -> sources w = sources w' ->
  timers w = timers w' -> nextTimeoutId w = nextTimeoutId w' ->
  calls w = calls w' -> w = w'.
Proof. destruct w, w'; simpl; intros; subst; reflexivity. Qed.

Lemma clearRetryTimeout_fields {T : Type} (w : World T) :
  clearRetryTimeout w =
  mkWorld (status w) (data w) (error w) (retryCount w) (eventSourceRef w)
    (retryTimeoutRef w) (isMounted w) (effectSource w) (sources w)
    (uncancelled w) (nextTimeoutId w) (calls w).
Proof.
  unfold clearRetryTimeout, uncancelled.
  destruct (retryTimeoutRef w) eqn:E; apply world_ext; simpl; auto.
Qed.

(** [close()] with a handle in the ref, field by field. *)
Lemma close_with_handle {T : Type} (options : UseSSEOptions T)
    (sse : nat) (w : World T) :
  eventSourceRef w = Some sse ->
  close options w =
  mkWorld CLOSED (data w) (error w) (retryCount w) None
    (retryTimeoutRef w) (isMounted w) (effectSource w)
    (updateAt sse closeEventSource (sources w))
    (uncancelled w) (nextTimeoutId w)
    (calls w ++ (if onClose options then [OnClose] else [])).
Proof.
  intros Href. unfold close. rewrite Href, clearRetryTimeout_fields.
  destruct (onClose options); simpl; unfold uncancelled; simpl;
    rewrite ?app_nil_r; reflexivity.
Qed.

(** [close()] with an empty ref only cancels the timer. *)
Lemma close_without_handle {T : Type} (options : UseSSEOptions T) (w : World T) :
  eventSourceRef w = None ->
  close options w = clearRetryTimeout w.
Proof. intros Href. unfold close. now rewrite Href. Qed.

Lemma uncancelled_twice {T : Type} (w w' : World T) :
  retryTimeoutRef w' = retryTimeoutRef w ->
  timers w' = uncancelled w ->
  uncancelled w' = uncancelled w.
Proof.
  intros Hr Ht. unfold uncancelled in *. rewrite Hr, Ht.
  destruct (retryTimeoutRef w); [apply filter_twice | reflexivity].
Qed.

Lemma close_twice {T : Type} (options : UseSSEOptions T) (w : World T) :
  close options (close options w) = close options w.
Proof.
  destruct (eventSourceRef w) as [sse|] eqn:Href.
  - rewrite (close_with_handle options sse w Href).
    rewrite close_without_handle by reflexivity.
    rewrite clearRetryTimeout_fields. simpl. f_equal.
    now apply uncancelled_twice.
  - rewrite (close_without_handle options w Href).
    rewrite close_without_handle
      by (rewrite clearRetryTimeout_fields; exact Href).
    rewrite !clearRetryTimeout_fields. simpl. f_equal.
    now apply uncancelled_twice.
Qed.

Lemma uncancelled_drops_referenced {T : Type} (w : World T) (t : Timeout) :
  In t (uncancelled w) -> retryTimeoutRef w <> Some (tm_id t).
Proof.
  unfold uncancelled. destruct (retryTimeoutRef w) as [id|]; [|discriminate].
  intros Ht [= E]. apply filter_In in Ht. destruct Ht as [_ Ht].
  rewrite E, Nat.eqb_refl in Ht. discriminate.
Qed.

Lemma uncancelled_nil {T : Type} (w : World T) :
  (forall t, In t (timers w) -> retryTimeoutRef w = Some (tm_id t)) ->
  uncancelled w = [].
Proof.
  intros Hall. unfold uncancelled.
  destruct (retryTimeoutRef w) as [id|] eqn:Hr.
  - destruct (filter _ (timers w)) as [|t l] eqn:Ef; [reflexivity|].
    assert (Ht : In t (filter (fun t => negb (Nat.eqb (tm_id t) id)) (timers w)))
      by (rewrite Ef; left; reflexivity).
    apply filter_In in Ht. destruct Ht as [Hin Hne].
    specialize (Hall t Hin). injection Hall as Hall.
    rewrite Hall, Nat.eqb_refl in Hne. discriminate.
  - destruct (timers w) as [|t l]; [reflexivity|].
    specialize (Hall t (or_introl eq_refl)). discriminate.
Qed.

(** X20.  With a live handle, [close()] closes it, drops the reference,
    sets status [CLOSED], calls [onClose] if registered and cancels the
    retry the timer reference holds: no retry stays pending when the
    reference held every pending one.  A second [close()] in a row
    changes nothing, the list of callback calls included. *)
Theorem close_closes_and_is_idempotent {T : Type}
    (options : UseSSEOptions T) (w : World T) :
  (forall sse src,
     eventSourceRef w = Some sse ->
     nth_error (sources w) sse = Some src ->
     let w' := close options w in
     nth_error (sources w') sse = Some (closeEventSource src) /\
     listening sse w' = None /\
     eventSourceRef w' = None /\
     status w' = CLOSED /\
     calls w' = calls w ++ (if onClose options then [OnClose] else []) /\
     (forall t, In t (timers w') -> retryTimeoutRef w <> Some (tm_id t)) /\
     ((forall t, In t (timers w) -> retryTimeoutRef w = Some (tm_id t)) ->
      timers w' = [])) /\
  close options (close options w) = close options w /\
  calls (close options (close options w)) = calls (close options w).
Proof.
  split; [| split; [apply close_twice | now rewrite close_twice]].
  intros sse src Href Hsrc w'. subst w'.
  rewrite (close_with_handle options sse w Href).
  assert (Hclosed : nth_error (updateAt sse closeEventSource (sources w)) sse =
                    Some (closeEventSource src)).
  { rewrite nth_error_updateAt, Nat.eqb_refl, Hsrc. reflexivity. }
  unfold listening. simpl. rewrite Hclosed. simpl.
  repeat split.
  - apply uncancelled_drops_referenced.
  - apply uncancelled_nil.
Qed.

(** The hook with one retry pending, closed twice. *)
Lemma close_closes_and_is_idempotent_witness :
  status (close callbacksOnly afterFirstError) = CLOSED /\
  eventSourceRef (close callbacksOnly afterFirstError) = None /\
  timers (close callbacksOnly afterFirstError) = [] /\
  close callbacksOnly (close callbacksOnly afterFirstError) =
  close callbacksOnly afterFirstError.
Proof.
  destruct (close_closes_and_is_idempotent callbacksOnly afterFirstError)
    as (H & Hidem & _).
  assert (Href : eventSourceRef afterFirstError = Some 0%nat)
    by (vm_compute; reflexivity).
  assert (Hsrc : nth_error (sources afterFirstError) 0 =
                 Some (mkEventSource testUrl None false (Some 0%nat)))
    by (vm_compute; reflexivity).
  destruct (H 0%nat _ Href Hsrc) as (_ & _ & Hr & Hs & _ & _ & Ht).
  split; [exact Hs | split; [exact Hr | split; [| exact Hidem]]].
  assert (Hids : map tm_id (timers afterFirstError) = [1%nat])
    by (vm_compute; reflexivity).
  assert (Htref : retryTimeoutRef afterFirstError = Some 1%nat)
    by (vm_compute; reflexivity).
  apply Ht. intros t Hin. apply (in_map tm_id) in Hin. rewrite Hids in Hin.
  destruct Hin as [<- | []]. exact Htref.
Defined.

(** ** Opening *)

Lemma openHandler_mounted {T : Type} (options : UseSSEOptions T) (w : World T) :
  isMounted w = true ->
  openHandler options w =
  notify (onOpen options) OnOpen
    (setRetryCount 0 (setError None (setStatus OPEN w))).
Proof. intros Hm. unfold openHandler. now rewrite Hm. Qed.

(** What each function does to [error] and [retryCount]. *)

Lemma close_session {T : Type} (options : UseSSEOptions T) (w : World T) :
  error (close options w) = error w /\
  retryCount (close options w) = retryCount w.
Proof.
  destruct (eventSourceRef w) as [sse|] eqn:Href.
  - rewrite (close_with_handle options sse w Href). simpl. auto.
  - rewrite (close_without_handle options w Href), clearRetryTimeout_fields.
    simpl. auto.
Qed.

Lemma createEventSource_session {T : Type} (url : string)
    (options : UseSSEOptions T) (w : World T) :
  error (snd (createEventSource url options w)) = error w /\
  retryCount (snd (createEventSource url options w)) = retryCount w /\
  status (snd (createEventSource url options w)) = CONNECTING.
Proof.
  unfold createEventSource. simpl. destruct (eventSourceRef w); simpl; auto.
Qed.

Lemma reconnect_session {T : Type} (url : string)
    (options : UseSSEOptions T) (rc : nat) (w : World T) :
  error (reconnect url options rc w) = error w /\
  retryCount (reconnect url options rc w) = 0%nat /\
  status (reconnect url options rc w) = CONNECTING.
Proof.
  unfold reconnect.
  destruct (createEventSource_session url options (setRetryCount 0 w))
    as (He & Hr & Hs).
  destruct (createEventSource url options (setRetryCount 0 w)) as [sse w2].
  simpl in *. auto.
Qed.

Lemma effectBody_session {T : Type} (url : string)
    (options : UseSSEOptions T) (w : World T) :
  error (effectBody url options w) = error w /\
  retryCount (effectBody url options w) = retryCount w /\
  status (effectBody url options w) = CONNECTING.
Proof.
  unfold effectBody.
  destruct (createEventSource_session url options (setIsMounted true w))
    as (He & Hr & Hs).
  destruct (createEventSource url options (setIsMounted true w)) as [sse w2].
  simpl in *. auto.
Qed.

Lemma effectCleanup_session {T : Type} (w : World T) :
  error (effectCleanup w) = error w /\
  retryCount (effectCleanup w) = retryCount w /\
  status (effectCleanup w) = status w.
Proof.
  unfold effectCleanup. rewrite clearRetryTimeout_fields. simpl.
  destruct (effectSource w); simpl; auto.
Qed.

Lemma fireTimer_session {T : Type} (url : string)
    (options : UseSSEOptions T) (id : nat) (w : World T) :
  error (fireTimer url options id w) = error w /\
  (retryCount (fireTimer url options id w) = retryCount w \/
   exists attempt, retryCount (fireTimer url options id w) = S attempt) /\
  (status (fireTimer url options id w) = status w \/
   status (fireTimer url options id w) = CONNECTING).
Proof.
  unfold fireTimer. destruct (find _ (timers w)) as [t|]; [|auto].
  unfold retryCallback.
  destruct (isMounted (clearTimeout id w)); cbn [negb]; [|simpl; auto].
  destruct (createEventSource_session url options
              (setRetryCount (tm_attempt t + 1) (clearTimeout id w)))
    as (He & Hr & Hs).
  rewrite He, Hr, Hs. repeat split; auto.
  right. exists (tm_attempt t). simpl. lia.
Qed.

Lemma messageHandler_session {T : Type} (JSON_parse : string -> option (option T))
    (options : UseSSEOptions T) (payload : string) (w : World T) :
  (error (messageHandler JSON_parse options payload w) = error w \/
   error (messageHandler JSON_parse options payload w) = Some parseError) /\
  retryCount (messageHandler JSON_parse options payload w) = retryCount w /\
  status (messageHandler JSON_parse options payload w) = status w.
Proof.
  unfold messageHandler, reportParseError.
  destruct (isMounted w); simpl; [|auto].
  destruct (decode JSON_parse options payload);
    [destruct (onMessage options) as [outcome|];
       [destruct (outcome payload)|] |];
    destruct (onError options); simpl; auto.
Qed.

Lemma errorHandler_session {T : Type}
    (Math_pow : spec_float -> nat -> spec_float) (options : UseSSEOptions T)
    (rc : nat) (rnd : spec_float) (w : World T) :
  (error (errorHandler Math_pow options rc rnd w) = error w \/
   exists e, error (errorHandler Math_pow options rc rnd w) = Some e) /\
  retryCount (errorHandler Math_pow options rc rnd w) = retryCount w /\
  (status (errorHandler Math_pow options rc rnd w) = status w \/
   status (errorHandler Math_pow options rc rnd w) = ERROR).
Proof.
  destruct (isMounted w) eqn:Hm.
  - rewrite (errorHandler_mounted Math_pow options rc rnd w Hm).
    destruct (shouldRetryNow options connectionError rc).
    + unfold attemptReconnect. rewrite isMounted_signalled, Hm. cbn [negb].
      destruct (Qle_bool _ _); unfold signalled; destruct (onError options);
        simpl; (split; [right; eexists; reflexivity
                       | split; [reflexivity | right; reflexivity]]).
    + unfold signalled; destruct (onError options);
        simpl; (split; [right; eexists; reflexivity
                       | split; [reflexivity | right; reflexivity]]).
  - unfold errorHandler. rewrite Hm. simpl. auto.
Qed.

(** No event but the open signal turns a held error into no error. *)
Lemma error_only_cleared_by_open {T : Type}
    (Math_pow : spec_float -> nat -> spec_float) (JSON_parse : string -> option (option T))
    (url : string) (options : UseSSEOptions T) (ev : Event) (w : World T) :
  (forall sse, ev <> Signal_open sse) ->
  error w <> None ->
  error (handle Math_pow JSON_parse url options ev w) <> None.
Proof.
  intros Hev He.
  destruct ev as [sse|sse name payload|sse rnd|id| |rcr| |]; cbn [handle].
  - exfalso. now apply (Hev sse).
  - destruct (listening sse w); [|exact He].
    destruct (String.eqb name (boundEventName options)); [|exact He].
    destruct (messageHandler_session JSON_parse options payload w) as ([E|E] & _);
      rewrite E; [exact He | discriminate].
  - destruct (listening sse w) as [rc|]; [|exact He].
    destruct (errorHandler_session Math_pow options rc rnd w) as ([E|[e E]] & _);
      rewrite E; [exact He | discriminate].
  - destruct (fireTimer_session url options id w) as (E & _). now rewrite E.
  - destruct (close_session options w) as (E & _). now rewrite E.
  - destruct (reconnect_session url options rcr w) as (E & _). now rewrite E.
  - destruct (effectBody_session url options (effectCleanup w)) as (E & _).
    destruct (effectCleanup_session w) as (E' & _). now rewrite E, E'.
  - destruct (effectCleanup_session w) as (E & _). now rewrite E.
Qed.

(** No event but the open signal and [reconnect()] brings [retryCount]
    back to zero. *)
Lemma retryCount_only_reset_by_open_or_reconnect {T : Type}
    (Math_pow : spec_float -> nat -> spec_float)
    (JSON_parse : string -> option (option T)) (url : string)
    (options : UseSSEOptions T) (ev : Event) (w : World T) :
  (forall sse, ev <> Signal_open sse) ->
  (forall rc, ev <> Call_reconnect rc) ->
  retryCount (handle Math_pow JSON_parse url options ev w) = 0%nat ->
  retryCount w = 0%nat.
Proof.
  intros Hev Hrec.
  destruct ev as [sse|sse name payload|sse rnd|id| |rcr| |]; cbn [handle].
  - exfalso. now apply (Hev sse).
  - destruct (listening sse w); [|auto].
    destruct (String.eqb name (boundEventName options)); [|auto].
    destruct (messageHandler_session JSON_parse options payload w) as (_ & E & _).
    now rewrite E.
  - destruct (listening sse w) as [rc|]; [|auto].
    destruct (errorHandler_session Math_pow options rc rnd w) as (_ & E & _). now rewrite E.
  - destruct (fireTimer_session url options id w) as (_ & [E|[a E]] & _);
      rewrite E; [auto | discriminate].
  - destruct (close_session options w) as (_ & E). now rewrite E.
  - exfalso. now apply (Hrec rcr).
  - destruct (effectBody_session url options (effectCleanup w)) as (_ & E & _).
    destruct (effectCleanup_session w) as (_ & E' & _). now rewrite E, E'.
  - destruct (effectCleanup_session w) as (_ & E & _). now rewrite E.
Qed.

(** C3.  On a live subscription the open handler sets status [OPEN],
    clears the error, resets [retryCount] and calls [onOpen] if
    registered.  No other event clears a held error, and no other event
    but the explicit [reconnect()] resets [retryCount]. *)
Theorem open_signal_resets_session {T : Type}
    (Math_pow : spec_float -> nat -> spec_float) (JSON_parse : string -> option (option T))
    (url : string) (options : UseSSEOptions T) (w : World T) :
  (isMounted w = true ->
   let w' := openHandler options w in
   status w' = OPEN /\
   error w' = None /\
   retryCount w' = 0%nat /\
   calls w' = calls w ++ (if onOpen options then [OnOpen] else []) /\
   data w' = data w) /\
  (forall ev, (forall sse, ev <> Signal_open sse) ->
     (error w <> None -> error (handle Math_pow JSON_parse url options ev w) <> None) /\
     ((forall rc, ev <> Call_reconnect rc) ->
      retryCount (handle Math_pow JSON_parse url options ev w) = 0%nat ->
      retryCount w = 0%nat)) /\
  (forall rc, retryCount (reconnect url options rc w) = 0%nat).
Proof.
  split; [| split].
  - intros Hm w'. subst w'. rewrite (openHandler_mounted options w Hm).
    destruct (onOpen options); simpl; repeat split.
    now rewrite app_nil_r.
  - intros ev Hev. split.
    + now apply error_only_cleared_by_open.
    + now apply retryCount_only_reset_by_open_or_reconnect.
  - intros rc. apply reconnect_session.
Qed.

(** The open signal after a failed first attempt. *)
Lemma open_signal_resets_session_witness :
  let w' := openHandler callbacksOnly afterFirstError in
  error afterFirstError = Some connectionError /\
  status w' = OPEN /\ error w' = None /\ retryCount w' = 0%nat.
Proof.
  destruct (proj1 (open_signal_resets_session powByMultiplying parseLiteral testUrl
                     callbacksOnly afterFirstError) eq_refl)
    as (Hs & He & Hr & _).
  cbv zeta. rewrite Hs, He, Hr. repeat split.
Defined.

(** ** At most one live connection, and what [OPEN] implies *)

Lemma live_after_close {l : list EventSource} {i j : nat} {src : EventSource} :
  nth_error (updateAt i closeEventSource l) j = Some src ->
  es_closed src = false ->
  i <> j /\ nth_error l j = Some src.
Proof.
  rewrite nth_error_updateAt. destruct (Nat.eqb_spec i j) as [->|Hne].
  - destruct (nth_error l j); simpl; intros [= <-]; discriminate.
  - auto.
Qed.

Lemma live_after_setListeners {l : list EventSource} {i j : nat}
    {x : option nat} {src : EventSource} :
  nth_error (updateAt i (setListeners x) l) j = Some src ->
  es_closed src = false ->
  exists src0, nth_error l j = Some src0 /\ es_closed src0 = false.
Proof.
  rewrite nth_error_updateAt. destruct (Nat.eqb i j).
  - destruct (nth_error l j) as [s|]; simpl; intros [= <-] H; eauto.
  - eauto.
Qed.

Lemma invariant_when_not_open {T : Type} (w : World T) :
  onlyCurrentIsLive w -> status w <> OPEN -> sessionInvariant w.
Proof.
  intros HA Hs. unfold sessionInvariant, openErrorIsDecode.
  split; [exact HA | split; intros; contradiction].
Qed.

(** Changes that touch neither the sources, the refs nor the session
    fields the invariant reads keep it. *)
Lemma invariant_frame {T : Type} (w w' : World T) :
  sources w' = sources w ->
  eventSourceRef w' = eventSourceRef w ->
  isMounted w' = isMounted w ->
  status w' = status w ->
  error w' = error w ->
  sessionInvariant w -> sessionInvariant w'.
Proof.
  intros Hsrc Href Hm Hs He (HA & HB & HC).
  unfold sessionInvariant, onlyCurrentIsLive, liveHandle, openErrorIsDecode,
    errorCode in *.
  rewrite Hsrc, Href, Hm, Hs, He. auto.
Qed.

Lemma closeSource_onlyCurrentIsLive {T : Type} (i : nat) (w : World T) :
  onlyCurrentIsLive w -> onlyCurrentIsLive (closeSource i w).
Proof.
  intros HA j src Hj Hlive. unfold closeSource, setSources in *. simpl in *.
  destruct (live_after_close Hj Hlive) as [_ Hold]. exact (HA j src Hold Hlive).
Qed.

(** After [createEventSource] the new source is the only live one. *)
Lemma createEventSource_invariant {T : Type} (url : string)
    (options : UseSSEOptions T) (w : World T) :
  onlyCurrentIsLive w ->
  let w' := snd (createEventSource url options w) in
  onlyCurrentIsLive w' /\ status w' = CONNECTING /\
  eventSourceRef w' = Some (fst (createEventSource url options w)) /\
  isMounted w' = isMounted w /\ error w' = error w /\
  retryCount w' = retryCount w.
Proof.
  intros HA w'. subst w'.
  destruct (createEventSource_session url options w) as (He & Hr & Hs).
  split; [| split; [exact Hs | split; [| split; [| split; [exact He | exact Hr]]]]].
  - unfold onlyCurrentIsLive, createEventSource in *. simpl.
    intros j src Hj Hlive. f_equal.
    assert (Hlen : (j < List.length
                      (sources match eventSourceRef w with
                               | Some i => closeSource i w
                               | None => w
                               end) + 1)%nat).
    { rewrite <- (length_app _ [mkEventSource url (withCredentials options) false None]).
      apply nth_error_Some. congruence. }
    destruct (eventSourceRef w) as [i|] eqn:Href; simpl in *.
    + destruct (Nat.lt_ge_cases j
                  (List.length (updateAt i closeEventSource (sources w))))
        as [Hlt|Hge]; [|lia].
      rewrite nth_error_app1 in Hj by exact Hlt.
      destruct (live_after_close Hj Hlive) as [Hne Hold].
      specialize (HA j src Hold Hlive). congruence.
    + destruct (Nat.lt_ge_cases j (List.length (sources w))) as [Hlt|Hge]; [|lia].
      rewrite nth_error_app1 in Hj by exact Hlt.
      specialize (HA j src Hj Hlive). discriminate.
  - unfold createEventSource. reflexivity.
  - unfold createEventSource. simpl. now destruct (eventSourceRef w).
Qed.

Lemma setupEventHandlers_onlyCurrentIsLive {T : Type} (rc sse : nat) (w : World T) :
  onlyCurrentIsLive w -> onlyCurrentIsLive (setupEventHandlers rc sse w).
Proof.
  intros HA j src Hj Hlive. unfold setupEventHandlers, setSources in *. simpl in *.
  destruct (live_after_setListeners Hj Hlive) as (src0 & Hold & Hlive0).
  exact (HA j src0 Hold Hlive0).
Qed.

Lemma cleanup_onlyCurrentIsLive {T : Type} (sse : nat) (w : World T) :
  onlyCurrentIsLive w -> onlyCurrentIsLive (cleanup sse w).
Proof.
  intros HA. unfold cleanup. apply closeSource_onlyCurrentIsLive.
  intros j src Hj Hlive. unfold setSources in *. simpl in *.
  destruct (live_after_setListeners Hj Hlive) as (src0 & Hold & Hlive0).
  exact (HA j src0 Hold Hlive0).
Qed.

Lemma invariant_mount {T : Type} (url : string) (options : UseSSEOptions T) :
  sessionInvariant (mount url options).
Proof.
  apply invariant_when_not_open; [| discriminate].
  intros [|[|j]] src; simpl; intros [= <-]; reflexivity.
Qed.

Lemma invariant_effectBody {T : Type} (url : string)
    (options : UseSSEOptions T) (w : World T) :
  onlyCurrentIsLive w -> sessionInvariant (effectBody url options w).
Proof.
  intros HA. unfold effectBody.
  assert (HA1 : onlyCurrentIsLive (setIsMounted true w)) by exact HA.
  destruct (createEventSource_invariant url options _ HA1) as (HA2 & Hs & _).
  destruct (createEventSource url options (setIsMounted true w)) as [sse w2].
  simpl in *. apply invariant_when_not_open.
  - apply (setupEventHandlers_onlyCurrentIsLive (retryCount w) sse w2 HA2).
  - unfold setEffectSource, setupEventHandlers, setSources. simpl.
    rewrite Hs. discriminate.
Qed.

Lemma invariant_reconnect {T : Type} (url : string)
    (options : UseSSEOptions T) (rc : nat) (w : World T) :
  onlyCurrentIsLive w -> sessionInvariant (reconnect url options rc w).
Proof.
  intros HA. unfold reconnect.
  assert (HA1 : onlyCurrentIsLive (setRetryCount 0 w)) by exact HA.
  destruct (createEventSource_invariant url options _ HA1) as (HA2 & Hs & _).
  destruct (createEventSource url options (setRetryCount 0 w)) as [sse w2].
  simpl in *. apply invariant_when_not_open.
  - apply (setupEventHandlers_onlyCurrentIsLive rc sse w2 HA2).
  - unfold setupEventHandlers, setSources. simpl. rewrite Hs. discriminate.
Qed.

Lemma invariant_effectCleanup {T : Type} (w : World T) :
  sessionInvariant w -> sessionInvariant (effectCleanup w).
Proof.
  intros (HA & HB & HC). unfold effectCleanup.
  set (w1 := setIsMounted false w).
  set (w2 := match effectSource w1 with Some sse => cleanup sse w1 | None => w1 end).
  assert (HA2 : onlyCurrentIsLive w2).
  { subst w2. destruct (effectSource w1);
      [apply cleanup_onlyCurrentIsLive|]; exact HA. }
  assert (Hm : isMounted w2 = false).
  { subst w2 w1. now destruct (effectSource _). }
  assert (Hs : status w2 = status w /\ error w2 = error w).
  { subst w2 w1. now destruct (effectSource _). }
  destruct Hs as [Hs He].
  assert (Inv2 : sessionInvariant w2).
  { repeat split; [exact HA2 | rewrite Hm; discriminate |].
    unfold openErrorIsDecode, errorCode in *. rewrite Hs, He. exact HC. }
  unfold clearRetryTimeout. destruct (retryTimeoutRef w2); [|exact Inv2].
  eapply invariant_frame; [..| exact Inv2]; reflexivity.
Qed.

Lemma invariant_close {T : Type} (options : UseSSEOptions T) (w : World T) :
  sessionInvariant w -> sessionInvariant (close options w).
Proof.
  intros Inv. unfold close.
  set (w1 := match eventSourceRef w with Some _ => _ | None => w end).
  assert (Inv1 : sessionInvariant w1).
  { subst w1. destruct (eventSourceRef w) as [i|] eqn:Href; [|exact Inv].
    destruct Inv as (HA & _ & _).
    apply invariant_when_not_open.
    - intros j src Hj Hlive. exfalso.
      assert (Hj' : nth_error (updateAt i closeEventSource (sources w)) j = Some src).
      { revert Hj. unfold notify, closeSource, setStatus, setEventSourceRef, setSources.
        destruct (onClose options); simpl; auto. }
      destruct (live_after_close Hj' Hlive) as [Hne Hold].
      specialize (HA j src Hold Hlive). congruence.
    - unfold notify, closeSource, setStatus, setEventSourceRef, setSources.
      destruct (onClose options); simpl; discriminate. }
  unfold clearRetryTimeout. destruct (retryTimeoutRef w1); [|exact Inv1].
  eapply invariant_frame; [..| exact Inv1]; reflexivity.
Qed.

Lemma listening_live {T : Type} (sse rc : nat) (w : World T) :
  listening sse w = Some rc ->
  exists src, nth_error (sources w) sse = Some src /\ es_closed src = false.
Proof.
  unfold listening. destruct (nth_error (sources w) sse) as [src|]; [|discriminate].
  destruct (es_closed src) eqn:E; [discriminate|]. eauto.
Qed.

Lemma invariant_openHandler {T : Type} (options : UseSSEOptions T)
    (sse rc : nat) (w : World T) :
  listening sse w = Some rc ->
  sessionInvariant w -> sessionInvariant (openHandler options w).
Proof.
  intros Hl Inv. destruct (isMounted w) eqn:Hm.
  - rewrite (openHandler_mounted options w Hm).
    destruct Inv as (HA & _ & _).
    destruct (listening_live sse rc w Hl) as (src & Hsrc & Hlive).
    pose proof (HA sse src Hsrc Hlive) as Href.
    unfold sessionInvariant, onlyCurrentIsLive, liveHandle, openErrorIsDecode.
    destruct (onOpen options); simpl; repeat split;
      try exact HA; try (intros; exists sse, src; auto); try (intros; now left).
  - unfold openHandler. rewrite Hm. exact Inv.
Qed.

Lemma invariant_reportParseError {T : Type} (options : UseSSEOptions T)
    (w : World T) :
  sessionInvariant w -> sessionInvariant (reportParseError options w).
Proof.
  intros (HA & HB & _).
  unfold sessionInvariant, onlyCurrentIsLive, liveHandle, openErrorIsDecode,
    errorCode, reportParseError in *.
  destruct (onError options); simpl; repeat split;
    try exact HA; try (intros; now right); auto.
Qed.

Lemma invariant_messageHandler {T : Type} (JSON_parse : string -> option (option T))
    (options : UseSSEOptions T) (payload : string) (w : World T) :
  sessionInvariant w ->
  sessionInvariant (messageHandler JSON_parse options payload w).
Proof.
  intros Inv. unfold messageHandler.
  destruct (isMounted w) eqn:Hm; simpl; [|exact Inv].
  destruct (decode JSON_parse options payload) as [v|].
  - assert (Inv1 : sessionInvariant (setData v w))
      by (eapply invariant_frame; [..| exact Inv]; reflexivity).
    destruct (onMessage options) as [outcome|]; [|exact Inv1].
    assert (Inv2 : sessionInvariant (notify true (OnMessage payload) (setData v w)))
      by (eapply invariant_frame; [..| exact Inv1]; reflexivity).
    destruct (outcome payload); [exact Inv2|].
    apply invariant_reportParseError, Inv2.
  - apply invariant_reportParseError, Inv.
Qed.

Lemma errorHandler_connection {T : Type}
    (Math_pow : spec_float -> nat -> spec_float) (options : UseSSEOptions T)
    (rc : nat) (rnd : spec_float) (w : World T) :
  sources (errorHandler Math_pow options rc rnd w) = sources w /\
  eventSourceRef (errorHandler Math_pow options rc rnd w) = eventSourceRef w /\
  (isMounted w = true -> status (errorHandler Math_pow options rc rnd w) = ERROR).
Proof.
  destruct (isMounted w) eqn:Hm.
  - rewrite (errorHandler_mounted Math_pow options rc rnd w Hm).
    destruct (shouldRetryNow options connectionError rc).
    + unfold attemptReconnect. rewrite isMounted_signalled, Hm. cbn [negb].
      destruct (Qle_bool _ _); unfold signalled; destruct (onError options);
        simpl; auto.
    + unfold signalled; destruct (onError options); simpl; auto.
  - unfold errorHandler. rewrite Hm. simpl. repeat split. discriminate.
Qed.

Lemma invariant_errorHandler {T : Type}
    (Math_pow : spec_float -> nat -> spec_float) (options : UseSSEOptions T)
    (rc : nat) (rnd : spec_float) (w : World T) :
  sessionInvariant w -> sessionInvariant (errorHandler Math_pow options rc rnd w).
Proof.
  intros Inv. destruct (isMounted w) eqn:Hm.
  - destruct Inv as (HA & _ & _).
    destruct (errorHandler_connection Math_pow options rc rnd w) as (Hsrc & Href & Hs).
    apply invariant_when_not_open.
    + unfold onlyCurrentIsLive. rewrite Hsrc, Href. exact HA.
    + rewrite (Hs Hm). discriminate.
  - unfold errorHandler. rewrite Hm. exact Inv.
Qed.

Lemma invariant_fireTimer {T : Type} (url : string) (options : UseSSEOptions T)
    (id : nat) (w : World T) :
  sessionInvariant w -> sessionInvariant (fireTimer url options id w).
Proof.
  intros Inv. unfold fireTimer.
  destruct (find _ (timers w)) as [t|]; [|exact Inv].
  assert (Inv1 : sessionInvariant (clearTimeout id w))
    by (eapply invariant_frame; [..| exact Inv]; reflexivity).
  unfold retryCallback.
  destruct (isMounted (clearTimeout id w)); cbn [negb]; [|exact Inv1].
  destruct Inv1 as (HA1 & _ & _).
  assert (HA2 : onlyCurrentIsLive
                  (setRetryCount (tm_attempt t + 1) (clearTimeout id w))) by exact HA1.
  destruct (createEventSource_invariant url options _ HA2) as (HA3 & Hs & _).
  apply invariant_when_not_open; [exact HA3 | rewrite Hs; discriminate].
Qed.

Lemma invariant_handle {T : Type}
    (Math_pow : spec_float -> nat -> spec_float) (JSON_parse : string -> option (option T))
    (url : string) (options : UseSSEOptions T) (ev : Event) (w : World T) :
  sessionInvariant w -> sessionInvariant (handle Math_pow JSON_parse url options ev w).
Proof.
  intros Inv. destruct ev as [sse|sse name payload|sse rnd|id| |rcr| |]; cbn [handle].
  - destruct (listening sse w) as [rc|] eqn:Hl; [|exact Inv].
    now apply (invariant_openHandler options sse rc).
  - destruct (listening sse w); [|exact Inv].
    destruct (String.eqb name (boundEventName options)); [|exact Inv].
    now apply invariant_messageHandler.
  - destruct (listening sse w); [|exact Inv]. now apply invariant_errorHandler.
  - now apply invariant_fireTimer.
  - now apply invariant_close.
  - apply invariant_reconnect. apply Inv.
  - apply invariant_effectBody. apply (invariant_effectCleanup w Inv).
  - now apply invariant_effectCleanup.
Qed.

Lemma invariant_run {T : Type}
    (Math_pow : spec_float -> nat -> spec_float) (JSON_parse : string -> option (option T))
    (url : string) (options : UseSSEOptions T) (evs : list Event) (w : World T) :
  sessionInvariant w -> sessionInvariant (run Math_pow JSON_parse url options evs w).
Proof.
  revert w. induction evs as [|ev evs IH]; intros w Inv; simpl; [exact Inv|].
  apply IH. now apply invariant_handle.
Qed.

Lemma invariant_reachable {T : Type}
    (Math_pow : spec_float -> nat -> spec_float) (JSON_parse : string -> option (option T))
    (url : string) (options : UseSSEOptions T) (w : World T) :
  reachable Math_pow JSON_parse url options w -> sessionInvariant w.
Proof.
  intros [evs ->]. apply invariant_run. apply invariant_mount.
Qed.

(** C8 as stated fails: after the open signal, a message that does not
    decode leaves status [OPEN] together with an error. *)
Lemma open_with_decode_error_is_reachable :
  let w := run powByMultiplying parseLiteral testUrl callbacksOnly
             [Signal_open 0; Signal_message 0 "message" "invalid-json"]
             (mount testUrl callbacksOnly) in
  reachable powByMultiplying parseLiteral testUrl callbacksOnly w /\
  isMounted w = true /\
  status w = OPEN /\
  error w = Some parseError /\
  error w <> None.
Proof.
  repeat split; try discriminate.
  eexists. reflexivity.
Qed.

(** C8, amended.  In every reachable state of a mounted hook, status
    [OPEN] implies that the current handle names a connection that was not
    closed, and that the error is absent or is the [PARSE_ERROR] one. *)
Theorem open_implies_live_handle {T : Type}
    (Math_pow : spec_float -> nat -> spec_float) (JSON_parse : string -> option (option T))
    (url : string) (options : UseSSEOptions T) (w : World T) :
  reachable Math_pow JSON_parse url options w ->
  isMounted w = true ->
  status w = OPEN ->
  liveHandle w /\ (error w = None \/ errorCode w = Some "PARSE_ERROR").
Proof.
  intros Hr Hm Hs.
  destruct (invariant_reachable Math_pow JSON_parse url options w Hr) as (_ & HB & HC).
  split; [now apply HB | now apply HC].
Qed.

Lemma open_implies_live_handle_witness :
  liveHandle afterOpen /\
  (error afterOpen = None \/ errorCode afterOpen = Some "PARSE_ERROR").
Proof.
  apply (open_implies_live_handle powByMultiplying parseLiteral testUrl callbacksOnly afterOpen).
  - exists [Signal_open 0%nat]. reflexivity.
  - reflexivity.
  - reflexivity.
Defined.

(** Once the hook is unmounted the state is no longer kept consistent:
    status can stay [OPEN] while the connection is closed. *)
Lemma open_after_unmount_has_closed_handle :
  let w := run powByMultiplying parseLiteral testUrl callbacksOnly [Signal_open 0; Unmount]
             (mount testUrl callbacksOnly) in
  isMounted w = false /\ status w = OPEN /\
  eventSourceRef w = Some 0%nat /\
  option_map es_closed (nth_error (sources w) 0) = Some true.
Proof. repeat split. Qed.

(** ** Becoming [CONNECTING], becoming [OPEN] *)

Lemma close_status {T : Type} (options : UseSSEOptions T) (w : World T) :
  status (close options w) = status w \/ status (close options w) = CLOSED.
Proof.
  destruct (eventSourceRef w) as [sse|] eqn:Href.
  - rewrite (close_with_handle options sse w Href). simpl. auto.
  - rewrite (close_without_handle options w Href), clearRetryTimeout_fields.
    simpl. auto.
Qed.

(** Only the open signal, delivered to the handlers of a live source of a
    mounted hook, makes the status [OPEN]. *)
Lemma only_open_signal_opens {T : Type}
    (Math_pow : spec_float -> nat -> spec_float) (JSON_parse : string -> option (option T))
    (url : string) (options : UseSSEOptions T) (ev : Event) (w : World T) :
  status w <> OPEN ->
  status (handle Math_pow JSON_parse url options ev w) = OPEN ->
  exists sse, ev = Signal_open sse /\ listening sse w <> None /\ isMounted w = true.
Proof.
  intros Hs.
  destruct ev as [sse|sse name payload|sse rnd|id| |rcr| |]; cbn [handle].
  - destruct (listening sse w) as [rc|] eqn:Hl; [|intros; contradiction].
    unfold openHandler. destruct (isMounted w) eqn:Hm; cbn [negb];
      [|intros; contradiction].
    intros _. exists sse. rewrite Hl. repeat split. discriminate.
  - destruct (listening sse w); [|intros; contradiction].
    destruct (String.eqb name (boundEventName options)); [|intros; contradiction].
    destruct (messageHandler_session JSON_parse options payload w) as (_ & _ & E).
    rewrite E. intros; contradiction.
  - destruct (listening sse w) as [rc|]; [|intros; contradiction].
    destruct (errorHandler_session Math_pow options rc rnd w) as (_ & _ & [E|E]);
      rewrite E; [intros; contradiction | discriminate].
  - destruct (fireTimer_session url options id w) as (_ & _ & [E|E]);
      rewrite E; [intros; contradiction | discriminate].
  - destruct (close_status options w) as [E|E];
      rewrite E; [intros; contradiction | discriminate].
  - destruct (reconnect_session url options rcr w) as (_ & _ & E).
    rewrite E. discriminate.
  - destruct (effectBody_session url options (effectCleanup w)) as (_ & _ & E).
    rewrite E. discriminate.
  - destruct (effectCleanup_session w) as (_ & _ & E).
    rewrite E. intros; contradiction.
Qed.

Lemma mount_listening {T : Type} (url : string) (options : UseSSEOptions T) :
  listening 0 (mount url options) = Some 0%nat /\
  isMounted (mount url options) = true /\
  eventSourceRef (mount url options) = Some 0%nat.
Proof. repeat split. Qed.

(** C9 as stated fails: the status the first render returns is the
    initial value of the state cell, [CLOSED], not [CONNECTING]; no
    connection has been opened at that point. *)
Lemma first_render_status_is_closed :
  status (@initialWorld JsonLiteral) = CLOSED /\
  status (@initialWorld JsonLiteral) <> CONNECTING /\
  sources (@initialWorld JsonLiteral) = [] /\
  eventSourceRef (@initialWorld JsonLiteral) = None.
Proof. repeat split. discriminate. Qed.

(** C9, amended.  The initial status is [CLOSED], the value the state cell
    is created with.  Once the effect has opened the connection, and
    before any signal, the status is [CONNECTING], set by
    [createEventSource].  The status becomes [OPEN] by the open signal and
    by nothing else, and then the error is absent and [retryCount] is
    zero. *)
Theorem status_closed_then_connecting {T : Type}
    (Math_pow : spec_float -> nat -> spec_float) (JSON_parse : string -> option (option T))
    (url : string) (options : UseSSEOptions T) :
  status (@initialWorld T) = CLOSED /\
  status (mount url options) = CONNECTING /\
  status (snd (createEventSource url options initialWorld)) = CONNECTING /\
  (forall ev w,
     status w <> OPEN ->
     status (handle Math_pow JSON_parse url options ev w) = OPEN ->
     (exists sse, ev = Signal_open sse) /\
     error (handle Math_pow JSON_parse url options ev w) = None /\
     retryCount (handle Math_pow JSON_parse url options ev w) = 0%nat) /\
  (let w' := handle Math_pow JSON_parse url options (Signal_open 0) (mount url options) in
   status w' = OPEN /\ error w' = None /\ retryCount w' = 0%nat).
Proof.
  split; [reflexivity|].
  split; [| split; [| split]].
  - apply effectBody_session.
  - apply createEventSource_session.
  - intros ev w Hs Hopen.
    destruct (only_open_signal_opens Math_pow JSON_parse url options ev w Hs Hopen)
      as (sse & -> & Hl & Hm).
    split; [now exists sse|].
    cbn [handle]. destruct (listening sse w); [|contradiction].
    rewrite (openHandler_mounted options w Hm).
    destruct (onOpen options); simpl; auto.
  - destruct (mount_listening url options) as (Hl & Hm & _).
    cbn [handle]. rewrite Hl, (openHandler_mounted options _ Hm).
    destruct (onOpen options); simpl; auto.
Qed.

(** The first transition of a freshly mounted hook to [OPEN]. *)
Lemma status_closed_then_connecting_witness :
  status (mount testUrl callbacksOnly) = CONNECTING /\
  error afterOpen = None /\ retryCount afterOpen = 0%nat.
Proof.
  destruct (status_closed_then_connecting powByMultiplying parseLiteral testUrl callbacksOnly)
    as (_ & Hc & _ & Hstep & _).
  split; [exact Hc|].
  assert (Hs : status (mount testUrl callbacksOnly) <> OPEN)
    by (rewrite Hc; discriminate).
  assert (Ho : status (handle powByMultiplying parseLiteral testUrl callbacksOnly (Signal_open 0)
                         (mount testUrl callbacksOnly)) = OPEN)
    by (vm_compute; reflexivity).
  destruct (Hstep (Signal_open 0) (mount testUrl callbacksOnly) Hs Ho)
    as (_ & He & Hr).
  split; [exact He | exact Hr].
Defined.

(** ** Reconnecting *)

(** [reconnect()] touches neither the pending timers nor the timer ref. *)
Lemma reconnect_cancels_nothing {T : Type} (url : string)
    (options : UseSSEOptions T) (rc : nat) (w : World T) :
  timers (reconnect url options rc w) = timers w /\
  retryTimeoutRef (reconnect url options rc w) = retryTimeoutRef w.
Proof.
  unfold reconnect, createEventSource. simpl.
  destruct (eventSourceRef w); simpl; auto.
Qed.

(** C5, on the code.  A retry is pending after a first error.
    [reconnect()] resets [retryCount], opens source 1 and binds the
    handlers to it at once, but the retry stays pending.  When its timer
    fires it closes source 1, opens a third source with no handlers bound
    and sets [retryCount] to 1. *)
Theorem reconnect_leaves_retry_pending :
  let w := reconnect testUrl callbacksOnly 0 afterFirstError in
  let w' := fireTimer testUrl callbacksOnly 1 w in
  map tm_id (timers afterFirstError) = [1%nat] /\
  map tm_id (timers w) = [1%nat] /\
  retryCount w = 0%nat /\
  status w = CONNECTING /\
  eventSourceRef w = Some 1%nat /\
  listening 1 w = Some 0%nat /\
  map tm_id (timers w') = [] /\
  retryCount w' = 1%nat /\
  eventSourceRef w' = Some 2%nat /\
  listening 1 w' = None /\
  option_map es_listeners (nth_error (sources w') 2) = Some None /\
  List.length (sources w') = 3%nat.
Proof. cbv zeta. repeat apply conj; vm_compute; reflexivity. Qed.

(** C7, on the code.  [attemptReconnect] overwrites the timer ref without
    cancelling the retry it held.  After two errors in a row on the same
    source two retries are pending and the ref holds the second;
    [close()] closes the connection and cancels that one, but the first
    stays pending and reopens a connection when it fires. *)
Theorem close_leaves_untracked_retry_pending :
  let w2 := run powByMultiplying parseLiteral testUrl callbacksOnly
              [Signal_error 0 half] afterFirstError in
  let w := close callbacksOnly w2 in
  let w' := fireTimer testUrl callbacksOnly 1 w in
  map tm_id (timers w2) = [1%nat; 2%nat] /\
  retryTimeoutRef w2 = Some 2%nat /\
  status w = CLOSED /\ eventSourceRef w = None /\
  map tm_id (timers w) = [1%nat] /\
  status w' = CONNECTING /\ eventSourceRef w' = Some 1%nat /\
  retryCount w' = 1%nat.
Proof. cbv zeta. repeat apply conj; vm_compute; reflexivity. Qed.

(** * Further properties of the code *)

(** ** The delay: the cap *)

(** X1.  [Math.min] makes the delay [NaN] exactly when the delay before the
    clamp or [maxDelayMs] is [NaN]; otherwise the delay is one of the two
    and exceeds neither.  For a base delay that is finite and not negative,
    a jitter factor in [[0,1]], a draw in [[0,1)] and a [maxDelayMs] that is
    not negative, the delay is a number between zero and [maxDelayMs]. *)
Theorem delay_never_exceeds_maxDelayMs
    (Math_pow : spec_float -> nat -> spec_float)
    (cfg : RetryConfig) (n : nat) (rnd : spec_float) :
  let b := baseDelay Math_pow cfg n in
  let unclamped := fadd b (jitter Math_pow cfg n rnd) in
  let d := calculateRetryDelay Math_pow cfg n rnd in
  ((d = S754_nan /\ (unclamped = S754_nan \/ maxDelayMs cfg = S754_nan)) \/
   (unclamped <> S754_nan /\ maxDelayMs cfg <> S754_nan /\
    (d = unclamped \/ d = maxDelayMs cfg) /\
    SFleb d unclamped = true /\ SFleb d (maxDelayMs cfg) = true)) /\
  (is_double b -> isFinite b = true -> signbit b = false ->
   is_double rnd -> SFleb zero rnd = true -> SFltb rnd one = true ->
   (forall j, jitterFactor cfg = Some j ->
      is_double j /\ SFleb zero j = true /\ SFleb j one = true) ->
   SFleb zero (maxDelayMs cfg) = true ->
   SFleb zero d = true /\ SFleb d (maxDelayMs cfg) = true).
Proof.
  intros b unclamped d. split.
  - exact (Math_min_cases unclamped (maxDelayMs cfg)).
  - intros Db Fb Sb Dr Pr Lr Hj Pm.
    assert (Psum : SFleb zero unclamped = true)
      by (apply delay_before_clamp_nonneg; assumption).
    split; [apply Math_min_nonneg; assumption|].
    destruct (Math_min_cases unclamped (maxDelayMs cfg))
      as [[_ [E|E]]|(_ & _ & _ & _ & H)]; [| | exact H].
    + fold unclamped in Psum. rewrite E in Psum. discriminate.
    + rewrite E in Pm. discriminate.
Qed.

(** The default configuration at attempt 6 with the draw [0.25]: the delay
    is a number between 0 and 30000. *)
Lemma delay_never_exceeds_maxDelayMs_witness :
  SFleb zero (calculateRetryDelay powByMultiplying DEFAULT_RETRY_CONFIG 6 quarter)
    = true /\
  SFleb (calculateRetryDelay powByMultiplying DEFAULT_RETRY_CONFIG 6 quarter)
        (ofZ 30000) = true.
Proof.
  pose proof (proj2 (delay_never_exceeds_maxDelayMs powByMultiplying
                       DEFAULT_RETRY_CONFIG 6 quarter)
                eq_refl eq_refl eq_refl eq_refl eq_refl eq_refl) as H.
  apply H; [|reflexivity].
  intros j Hj. injection Hj as <-. repeat split; reflexivity.
Defined.


(** ** Scheduling a retry and letting it fire *)

Lemma below_max_attempts {T : Type} (options : UseSSEOptions T) (attempt : nat) :
  inject_Z (Z.of_nat attempt) < maxAttempts (retryConfig options) ->
  Qle_bool (maxAttempts (retryConfig options)) (inject_Z (Z.of_nat attempt)) = false.
Proof.
  intros H. destruct (Qle_bool _ _) eqn:E; [|reflexivity].
  apply Qle_bool_iff in E. exfalso. exact (Qlt_not_le _ _ H E).
Qed.

Lemma Qle_bool_false_lt (x y : Q) : Qle_bool x y = false -> y < x.
Proof.
  intros E. apply Qnot_le_lt. intros H. apply Qle_bool_iff in H. congruence.
Qed.

(** X4.  On a mounted hook and below [maxAttempts], [attemptReconnect]
    schedules one timer, with the delay of that attempt, and stores its
    handle; it opens no connection and leaves the session as it is. *)
Theorem attemptReconnect_schedules_one_retry {T : Type}
    (Math_pow : spec_float -> nat -> spec_float)
    (options : UseSSEOptions T) (attempt : nat) (rnd : spec_float) (w : World T) :
  isMounted w = true ->
  inject_Z (Z.of_nat attempt) < maxAttempts (retryConfig options) ->
  let w' := attemptReconnect Math_pow options attempt rnd w in
  timers w' =
    timers w ++ [mkTimeout (nextTimeoutId w)
                   (calculateRetryDelay Math_pow (retryConfig options) attempt rnd) attempt] /\
  retryTimeoutRef w' = Some (nextTimeoutId w) /\
  sources w' = sources w /\
  eventSourceRef w' = eventSourceRef w /\
  status w' = status w /\
  error w' = error w /\
  retryCount w' = retryCount w.
Proof.
  intros Hm Hlt w'. subst w'.
  unfold attemptReconnect. rewrite Hm, (below_max_attempts options attempt Hlt).
  simpl. repeat split.
Qed.

Lemma attemptReconnect_schedules_one_retry_witness :
  map tm_id (timers (attemptReconnect powByMultiplying callbacksOnly 2 half
                       (mount testUrl callbacksOnly))) = [1%nat].
Proof.
  assert (Hm : isMounted (mount testUrl callbacksOnly) = true) by reflexivity.
  assert (Hlt : inject_Z (Z.of_nat 2) < maxAttempts (retryConfig callbacksOnly))
    by (vm_compute; reflexivity).
  destruct (attemptReconnect_schedules_one_retry powByMultiplying callbacksOnly 2 half
              (mount testUrl callbacksOnly) Hm Hlt) as (Ht & _).
  rewrite Ht. reflexivity.
Defined.

Lemma length_updateAt {A : Type} (f : A -> A) (l : list A) (i : nat) :
  List.length (updateAt i f l) = List.length l.
Proof.
  revert i. induction l as [|x l IH]; intros [|i]; simpl; auto.
Qed.

Lemma length_sourcesAfterClosingCurrent {T : Type} (w : World T) :
  List.length (sourcesAfterClosingCurrent w) = List.length (sources w).
Proof.
  unfold sourcesAfterClosingCurrent.
  destruct (eventSourceRef w); [apply length_updateAt | reflexivity].
Qed.

(** [createEventSource], field by field. *)
Lemma createEventSource_fields {T : Type} (url : string)
    (options : UseSSEOptions T) (w : World T) :
  createEventSource url options w =
  (List.length (sources w),
   mkWorld CONNECTING (data w) (error w) (retryCount w)
     (Some (List.length (sources w))) (retryTimeoutRef w) (isMounted w)
     (effectSource w)
     (sourcesAfterClosingCurrent w ++
        [mkEventSource url (withCredentials options) false None])
     (timers w) (nextTimeoutId w) (calls w)).
Proof.
  unfold createEventSource, sourcesAfterClosingCurrent.
  destruct (eventSourceRef w) as [i|] eqn:Href; simpl.
  - rewrite length_updateAt. f_equal.
  - f_equal.
Qed.

(** X5.  [createEventSource] closes the connection the ref holds, if any,
    and leaves every other source as it was; the new [EventSource] gets
    the next index, the hook's [url] and [withCredentials], is open and
    has no handlers yet; the ref holds it and the status is [CONNECTING].
    Pending timers, data, error and [retryCount] are not touched. *)
Theorem createEventSource_replaces_connection {T : Type} (url : string)
    (options : UseSSEOptions T) (w : World T) :
  let sse := fst (createEventSource url options w) in
  let w' := snd (createEventSource url options w) in
  sse = List.length (sources w) /\
  eventSourceRef w' = Some sse /\
  nth_error (sources w') sse =
    Some (mkEventSource url (withCredentials options) false None) /\
  List.length (sources w') = S (List.length (sources w)) /\
  status w' = CONNECTING /\
  (forall i src, eventSourceRef w = Some i ->
     nth_error (sources w) i = Some src ->
     nth_error (sources w') i = Some (closeEventSource src)) /\
  (forall j, (j < List.length (sources w))%nat -> eventSourceRef w <> Some j ->
     nth_error (sources w') j = nth_error (sources w) j) /\
  timers w' = timers w /\ retryTimeoutRef w' = retryTimeoutRef w /\
  data w' = data w /\ error w' = error w /\ retryCount w' = retryCount w.
Proof.
  intros sse w'. subst sse w'. rewrite createEventSource_fields. simpl.
  pose proof (length_sourcesAfterClosingCurrent w) as Hlen.
  repeat apply conj; try reflexivity.
  - rewrite nth_error_app2 by lia. rewrite Hlen, Nat.sub_diag. reflexivity.
  - rewrite length_app, Hlen. simpl. lia.
  - intros i src Href Hsrc.
    assert (Hi : (i < List.length (sources w))%nat)
      by (apply nth_error_Some; congruence).
    rewrite nth_error_app1 by lia.
    unfold sourcesAfterClosingCurrent. rewrite Href.
    rewrite nth_error_updateAt, Nat.eqb_refl, Hsrc. reflexivity.
  - intros j Hj Hne. rewrite nth_error_app1 by lia.
    unfold sourcesAfterClosingCurrent.
    destruct (eventSourceRef w) as [i|]; [|reflexivity].
    rewrite nth_error_updateAt.
    destruct (Nat.eqb_spec i j) as [->|_]; [congruence | reflexivity].
Qed.

Lemma createEventSource_replaces_connection_witness :
  option_map es_closed
    (nth_error (sources (snd (createEventSource testUrl callbacksOnly afterOpen))) 0)
  = Some true.
Proof.
  destruct (createEventSource_replaces_connection testUrl callbacksOnly afterOpen)
    as (_ & _ & _ & _ & _ & Hclose & _).
  assert (Href : eventSourceRef afterOpen = Some 0%nat) by (vm_compute; reflexivity).
  assert (Hsrc : nth_error (sources afterOpen) 0 =
                 Some (mkEventSource testUrl None false (Some 0%nat)))
    by (vm_compute; reflexivity).
  rewrite (Hclose 0%nat _ Href Hsrc). reflexivity.
Defined.

(** X6.  When a pending retry fires on a mounted hook, its timer is no
    longer pending, [retryCount] becomes the attempt plus one, and a new
    connection replaces the current one, with status [CONNECTING].  The
    callback binds no handlers to the new source; error and data stay. *)
Theorem retry_timer_fires {T : Type} (url : string) (options : UseSSEOptions T)
    (id : nat) (t : Timeout) (w : World T) :
  isMounted w = true ->
  find (fun t => Nat.eqb (tm_id t) id) (timers w) = Some t ->
  let w' := fireTimer url options id w in
  retryCount w' = S (tm_attempt t) /\
  status w' = CONNECTING /\
  eventSourceRef w' = Some (List.length (sources w)) /\
  listening (List.length (sources w)) w' = None /\
  nth_error (sources w') (List.length (sources w)) =
    Some (mkEventSource url (withCredentials options) false None) /\
  (forall t', In t' (timers w') -> In t' (timers w) /\ tm_id t' <> id) /\
  error w' = error w /\ data w' = data w.
Proof.
  intros Hm Hfind w'. subst w'.
  unfold fireTimer. rewrite Hfind. unfold retryCallback.
  replace (isMounted (clearTimeout id w)) with true by (symmetry; exact Hm).
  cbn [negb]. rewrite createEventSource_fields. simpl.
  pose proof (length_sourcesAfterClosingCurrent
                (setRetryCount (tm_attempt t + 1) (clearTimeout id w))) as Hlen.
  simpl in Hlen.
  assert (Hnew : nth_error
            (sourcesAfterClosingCurrent
               (setRetryCount (tm_attempt t + 1) (clearTimeout id w)) ++
             [mkEventSource url (withCredentials options) false None])
            (List.length (sources w)) =
          Some (mkEventSource url (withCredentials options) false None)).
  { rewrite nth_error_app2 by lia. rewrite Hlen, Nat.sub_diag. reflexivity. }
  repeat apply conj; try reflexivity.
  - lia.
  - unfold listening. simpl. rewrite Hnew. reflexivity.
  - exact Hnew.
  - intros t' Hin. apply filter_In in Hin. destruct Hin as [Hin Hne].
    split; [exact Hin|]. intros E. rewrite E, Nat.eqb_refl in Hne. discriminate.
Qed.

Lemma retry_timer_fires_witness :
  retryCount (fireTimer testUrl callbacksOnly 1 afterFirstError) = 1%nat /\
  status (fireTimer testUrl callbacksOnly 1 afterFirstError) = CONNECTING.
Proof.
  assert (Hm : isMounted afterFirstError = true) by (vm_compute; reflexivity).
  assert (Hf : find (fun t => Nat.eqb (tm_id t) 1) (timers afterFirstError) =
               Some (mkTimeout 1 (ofZ 1000) 0)) by (vm_compute; reflexivity).
  destruct (retry_timer_fires testUrl callbacksOnly 1 _ afterFirstError Hm Hf)
    as (Hr & Hs & _).
  split; [exact Hr | exact Hs].
Defined.


(** ** Messages *)

(** X7.  A message that decodes stores the decoded value, [null]
    included, and calls [onMessage]; it changes neither status nor
    [retryCount].  When [onMessage] is missing or returns, the error the
    session holds stays.  When [onMessage] throws the value is stored all
    the same, and the [catch] block sets the [PARSE_ERROR] error and calls
    [onError]. *)
Theorem message_stores_data {T : Type}
    (JSON_parse : string -> option (option T)) (options : UseSSEOptions T)
    (payload : string) (d : option T) (w : World T) :
  isMounted w = true ->
  decode JSON_parse options payload = Some d ->
  let w' := messageHandler JSON_parse options payload w in
  data w' = d /\
  status w' = status w /\
  retryCount w' = retryCount w /\
  sources w' = sources w /\
  timers w' = timers w /\
  (onMessage options = None -> calls w' = calls w /\ error w' = error w) /\
  (forall outcome, onMessage options = Some outcome ->
     outcome payload = Returns ->
     calls w' = calls w ++ [OnMessage payload] /\ error w' = error w) /\
  (forall outcome, onMessage options = Some outcome ->
     outcome payload = Throws ->
     calls w' =
       (calls w ++ [OnMessage payload]) ++
       (if onError options then [OnError (Some parseError)] else []) /\
     error w' = Some parseError).
Proof.
  intros Hm Hd w'. subst w'.
  unfold messageHandler, reportParseError. rewrite Hm, Hd. cbn [negb].
  destruct (onMessage options) as [outcome|].
  - destruct (outcome payload) eqn:Ho; destruct (onError options); simpl;
      repeat apply conj; try reflexivity; try discriminate;
      intros f [= <-] Hf; rewrite Ho in Hf; try discriminate;
      rewrite ?app_nil_r; split; reflexivity.
  - simpl. repeat apply conj; try reflexivity; auto; intros f Hf; discriminate.
Qed.

(** A decode failure, then the messages [true] and [null]: the data
    becomes [null] again and the error stays.  A message [true] given to an
    [onMessage] that throws: the data is stored and the error is the
    [PARSE_ERROR] one. *)
Lemma message_stores_data_witness :
  (let w := messageHandler parseLiteral callbacksOnly "true"
              (messageHandler parseLiteral callbacksOnly "oops" afterOpen) in
   let w' := messageHandler parseLiteral callbacksOnly "null" w in
   data w = Some JTrue /\ data w' = None /\
   error w' = error w /\ errorCode w = Some "PARSE_ERROR") /\
  (let w := mount testUrl throwingOnMessage in
   let w' := messageHandler parseLiteral throwingOnMessage "true" w in
   data w' = Some JTrue /\ error w' = Some parseError /\
   calls w' = [OnMessage "true"; OnError (Some parseError)]).
Proof.
  split.
  - cbv zeta.
    set (w := messageHandler parseLiteral callbacksOnly "true"
                (messageHandler parseLiteral callbacksOnly "oops" afterOpen)).
    assert (Hm : isMounted w = true) by (vm_compute; reflexivity).
    assert (Hd : decode parseLiteral callbacksOnly "null" = Some None) by reflexivity.
    destruct (message_stores_data parseLiteral callbacksOnly "null"
                None w Hm Hd) as (Hdata & _ & _ & _ & _ & _ & Hret & _).
    split; [vm_compute; reflexivity|]. split; [exact Hdata|].
    split; [|vm_compute; reflexivity].
    exact (proj2 (Hret (fun _ => Returns) eq_refl eq_refl)).
  - assert (Hm : isMounted (mount testUrl throwingOnMessage) = true) by reflexivity.
    assert (Hd : decode parseLiteral throwingOnMessage "true" = Some (Some JTrue))
      by reflexivity.
    destruct (message_stores_data parseLiteral throwingOnMessage "true"
                (Some JTrue) _ Hm Hd) as (Hdata & _ & _ & _ & _ & _ & _ & Hthrow).
    destruct (Hthrow (fun _ => Throws) eq_refl eq_refl) as [Hc He].
    split; [exact Hdata|]. split; [exact He|]. rewrite Hc. reflexivity.
Defined.

(** X8.  The handlers listen on [eventName], or on ['message'] when it is
    missing or empty: the bound name is never empty, and a message event
    of any other name, the names ['open'] and ['error'] of the two other
    handlers apart, changes nothing. *)
Theorem messages_of_other_names_are_ignored {T : Type}
    (Math_pow : spec_float -> nat -> spec_float)
    (JSON_parse : string -> option (option T)) (url : string)
    (options : UseSSEOptions T) :
  boundEventName options <> "" /\
  (eventName options = None \/ eventName options = Some "" ->
   boundEventName options = "message") /\
  (forall n, eventName options = Some n -> n <> "" -> boundEventName options = n) /\
  (forall sse name payload (w : World T),
     name <> boundEventName options -> name <> "open" -> name <> "error" ->
     handle Math_pow JSON_parse url options (Signal_message sse name payload) w = w).
Proof.
  unfold boundEventName. repeat apply conj.
  - destruct (eventName options) as [n|]; [|discriminate].
    destruct (String.eqb_spec n ""); [discriminate | assumption].
  - intros [-> | ->]; reflexivity.
  - intros n -> Hn. destruct (String.eqb_spec n ""); [contradiction | reflexivity].
  - intros sse name payload w Hne _ _. cbn [handle].
    destruct (listening sse w); [|reflexivity].
    fold (boundEventName options).
    destruct (String.eqb_spec name (boundEventName options));
      [contradiction | reflexivity].
Qed.

Lemma messages_of_other_names_are_ignored_witness :
  handle powByMultiplying parseLiteral testUrl callbacksOnly
    (Signal_message 0 "update" "true") afterOpen = afterOpen.
Proof.
  apply (proj2 (proj2 (proj2 (messages_of_other_names_are_ignored
                                powByMultiplying parseLiteral testUrl
                                callbacksOnly)))); discriminate.
Defined.

(** ** The retry predicate *)

(** X9.  [retry: { shouldRetry: undefined }] replaces the default
    predicate by nothing: no error signal ever schedules a retry, whatever
    the attempt count.  Without the key the default predicate applies and
    every error below [maxAttempts] schedules one. *)
Theorem undefined_shouldRetry_disables_retries {T : Type}
    (Math_pow : spec_float -> nat -> spec_float)
    (options : UseSSEOptions T) (rc : nat) (rnd : spec_float) (w : World T) :
  isMounted w = true ->
  (p_shouldRetry (retry options) = Some None ->
   timers (errorHandler Math_pow options rc rnd w) = timers w /\
   error (errorHandler Math_pow options rc rnd w) = Some connectionError) /\
  (p_shouldRetry (retry options) = None ->
   inject_Z (Z.of_nat rc) < maxAttempts (retryConfig options) ->
   timers (errorHandler Math_pow options rc rnd w) =
     timers w ++ [mkTimeout (nextTimeoutId w)
                    (calculateRetryDelay Math_pow (retryConfig options) rc rnd) rc]).
Proof.
  intros Hm. rewrite (errorHandler_mounted Math_pow options rc rnd w Hm).
  unfold shouldRetryNow, retryConfig, mergeRetryConfig. simpl.
  split.
  - intros ->. simpl. unfold signalled. destruct (onError options); simpl; auto.
  - intros -> Hlt. simpl.
    unfold attemptReconnect. rewrite isMounted_signalled, Hm. cbn [negb].
    fold (mergeRetryConfig (retry options)). fold (retryConfig options).
    rewrite (below_max_attempts options rc Hlt).
    unfold signalled. destruct (onError options); reflexivity.
Qed.

Lemma undefined_shouldRetry_disables_retries_witness :
  timers (errorHandler powByMultiplying retryPredicateUndefined 0 half
            (mount testUrl retryPredicateUndefined)) = [].
Proof.
  assert (Hm : isMounted (mount testUrl retryPredicateUndefined) = true)
    by reflexivity.
  destruct (proj1 (undefined_shouldRetry_disables_retries powByMultiplying retryPredicateUndefined
                     0 half (mount testUrl retryPredicateUndefined) Hm) eq_refl)
    as (Ht & _).
  rewrite Ht. reflexivity.
Defined.

(** ** The composite functions, field by field *)

Lemma reconnect_fields {T : Type} (url : string) (options : UseSSEOptions T)
    (rc : nat) (w : World T) :
  reconnect url options rc w =
  mkWorld CONNECTING (data w) (error w) 0
    (Some (List.length (sources w))) (retryTimeoutRef w) (isMounted w)
    (effectSource w)
    (updateAt (List.length (sources w)) (setListeners (Some rc))
       (sourcesAfterClosingCurrent w ++
          [mkEventSource url (withCredentials options) false None]))
    (timers w) (nextTimeoutId w) (calls w).
Proof.
  unfold reconnect. rewrite createEventSource_fields.
  apply world_ext; reflexivity.
Qed.

Lemma effectBody_fields {T : Type} (url : string) (options : UseSSEOptions T)
    (w : World T) :
  effectBody url options w =
  mkWorld CONNECTING (data w) (error w) (retryCount w)
    (Some (List.length (sources w))) (retryTimeoutRef w) true
    (Some (List.length (sources w)))
    (updateAt (List.length (sources w)) (setListeners (Some (retryCount w)))
       (sourcesAfterClosingCurrent w ++
          [mkEventSource url (withCredentials options) false None]))
    (timers w) (nextTimeoutId w) (calls w).
Proof.
  unfold effectBody. rewrite createEventSource_fields.
  apply world_ext; reflexivity.
Qed.

Lemma effectCleanup_fields {T : Type} (w : World T) :
  effectCleanup w =
  mkWorld (status w) (data w) (error w) (retryCount w) (eventSourceRef w)
    (retryTimeoutRef w) false (effectSource w) (sourcesAfterCleanup w)
    (uncancelled w) (nextTimeoutId w) (calls w).
Proof.
  unfold effectCleanup. rewrite clearRetryTimeout_fields.
  unfold sourcesAfterCleanup, uncancelled, cleanup.
  apply world_ext; simpl; destruct (effectSource w) eqn:E; simpl;
    rewrite ?E; reflexivity.
Qed.

(** The new source sits at the end and carries the handlers. *)
Lemma bound_new_source {T : Type} (url : string) (options : UseSSEOptions T)
    (rc : nat) (w : World T) :
  nth_error
    (updateAt (List.length (sources w)) (setListeners (Some rc))
       (sourcesAfterClosingCurrent w ++
          [mkEventSource url (withCredentials options) false None]))
    (List.length (sources w)) =
  Some (mkEventSource url (withCredentials options) false (Some rc)).
Proof.
  rewrite nth_error_updateAt, Nat.eqb_refl.
  rewrite nth_error_app2 by (rewrite length_sourcesAfterClosingCurrent; lia).
  rewrite length_sourcesAfterClosingCurrent, Nat.sub_diag. reflexivity.
Qed.

(** ** After unmount *)

Lemma unmounted_handle {T : Type}
    (Math_pow : spec_float -> nat -> spec_float) (JSON_parse : string -> option (option T))
    (url : string) (options : UseSSEOptions T) (ev : Event) (w : World T) :
  isMounted w = false ->
  isSignalOrTimer ev = true ->
  let w' := handle Math_pow JSON_parse url options ev w in
  isMounted w' = false /\
  status w' = status w /\ data w' = data w /\ error w' = error w /\
  retryCount w' = retryCount w /\ sources w' = sources w /\
  eventSourceRef w' = eventSourceRef w /\ calls w' = calls w /\
  (forall t, In t (timers w') -> In t (timers w)).
Proof.
  intros Hm Hev w'. subst w'.
  destruct ev as [sse|sse name payload|sse rnd|id| |rcr| |];
    try discriminate; cbn [handle].
  - unfold openHandler. rewrite Hm. cbn [negb].
    destruct (listening sse w); repeat split; auto.
  - unfold messageHandler. rewrite Hm. cbn [negb].
    destruct (listening sse w);
      [destruct (String.eqb name (boundEventName options))|]; repeat split; auto.
  - unfold errorHandler. rewrite Hm. cbn [negb].
    destruct (listening sse w); repeat split; auto.
  - unfold fireTimer. destruct (find _ (timers w)); [|repeat split; auto].
    unfold retryCallback.
    replace (isMounted (clearTimeout id w)) with false by (symmetry; exact Hm).
    cbn [negb]. simpl. repeat split; auto.
    intros t' Hin. apply filter_In in Hin. tauto.
Qed.

(** X10.  Once the hook is unmounted, no transport signal and no timer
    changes what the consumer sees or what is connected: status, data,
    error, [retryCount], the sources and the callbacks called stay as
    they were, over any sequence of such events. *)
Theorem unmounted_hook_ignores_signals_and_timers {T : Type}
    (Math_pow : spec_float -> nat -> spec_float)
    (JSON_parse : string -> option (option T)) (url : string)
    (options : UseSSEOptions T) (evs : list Event) (w : World T) :
  isMounted w = false ->
  forallb isSignalOrTimer evs = true ->
  let w' := run Math_pow JSON_parse url options evs w in
  isMounted w' = false /\
  status w' = status w /\ data w' = data w /\ error w' = error w /\
  retryCount w' = retryCount w /\ sources w' = sources w /\
  eventSourceRef w' = eventSourceRef w /\ calls w' = calls w /\
  (forall t, In t (timers w') -> In t (timers w)).
Proof.
  revert w. induction evs as [|ev evs IH]; intros w Hm Hall; simpl.
  - repeat split; auto.
  - simpl in Hall. apply andb_true_iff in Hall. destruct Hall as [Hev Hall].
    destruct (unmounted_handle Math_pow JSON_parse url options ev w Hm Hev)
      as (Hm1 & Hs & Hd & He & Hr & Hsrc & Href & Hc & Ht).
    destruct (IH (handle Math_pow JSON_parse url options ev w) Hm1 Hall)
      as (Hm2 & Hs2 & Hd2 & He2 & Hr2 & Hsrc2 & Href2 & Hc2 & Ht2).
    cbv zeta in *.
    rewrite Hs2, Hd2, He2, Hr2, Hsrc2, Href2, Hc2.
    repeat split; auto.
Qed.

(** An error left pending at unmount: the signals and the timer that come
    later change nothing. *)
Lemma unmounted_hook_ignores_signals_and_timers_witness :
  let w := effectCleanup afterOpen in
  let w' := run powByMultiplying parseLiteral testUrl callbacksOnly
              [Signal_error 0 half; Signal_message 0 "message" "true";
               Timer_fires 1; Signal_open 0] w in
  status w' = status w /\ data w' = data w /\ retryCount w' = retryCount w.
Proof.
  assert (Hm : isMounted (effectCleanup afterOpen) = false)
    by (rewrite effectCleanup_fields; reflexivity).
  destruct (unmounted_hook_ignores_signals_and_timers powByMultiplying parseLiteral testUrl
              callbacksOnly
              [Signal_error 0 half; Signal_message 0 "message" "true";
               Timer_fires 1; Signal_open 0]
              (effectCleanup afterOpen) Hm eq_refl)
    as (_ & Hs & Hd & _ & Hr & _).
  split; [exact Hs | split; [exact Hd | exact Hr]].
Defined.

(** X11.  The effect cleanup marks the hook unmounted, unbinds and closes
    the source the effect created and cancels the retry the timer ref
    holds.  It closes no other source: a connection opened since by
    [reconnect()] or by a retry stays open.  Status, data, error and
    [retryCount] keep their values. *)
Theorem cleanup_closes_the_effect_source_only {T : Type} (w : World T) :
  let w' := effectCleanup w in
  isMounted w' = false /\
  (forall sse src, effectSource w = Some sse ->
     nth_error (sources w) sse = Some src ->
     nth_error (sources w') sse =
       Some (closeEventSource (setListeners None src)) /\
     listening sse w' = None) /\
  (forall j, effectSource w <> Some j ->
     nth_error (sources w') j = nth_error (sources w) j) /\
  (forall t, In t (timers w') ->
     In t (timers w) /\ retryTimeoutRef w <> Some (tm_id t)) /\
  status w' = status w /\ data w' = data w /\ error w' = error w /\
  retryCount w' = retryCount w /\ eventSourceRef w' = eventSourceRef w.
Proof.
  intros w'. subst w'. rewrite effectCleanup_fields. simpl.
  repeat apply conj; try reflexivity.
  - intros sse src Heff Hsrc. unfold listening, sourcesAfterCleanup. simpl.
    rewrite Heff. rewrite !nth_error_updateAt, Nat.eqb_refl, Hsrc. simpl. auto.
  - intros j Hne. unfold sourcesAfterCleanup.
    destruct (effectSource w) as [sse|]; [|reflexivity].
    rewrite !nth_error_updateAt.
    destruct (Nat.eqb_spec sse j) as [->|_]; [congruence | reflexivity].
  - intros t Hin. split; [|now apply uncancelled_drops_referenced].
    unfold uncancelled in Hin. destruct (retryTimeoutRef w); [|exact Hin].
    apply filter_In in Hin. tauto.
Qed.

(** [reconnect()] then unmount: the connection [reconnect()] opened is
    not the effect's, and stays open. *)
Lemma cleanup_closes_the_effect_source_only_witness :
  let w := reconnect testUrl callbacksOnly 0 afterOpen in
  eventSourceRef (effectCleanup w) = Some 1%nat /\
  nth_error (sources (effectCleanup w)) 1 = nth_error (sources w) 1 /\
  option_map es_closed (nth_error (sources w) 1) = Some false.
Proof.
  cbv zeta.
  destruct (cleanup_closes_the_effect_source_only
              (reconnect testUrl callbacksOnly 0 afterOpen))
    as (_ & _ & Hother & _ & _ & _ & _ & _ & Href).
  assert (Heff : effectSource (reconnect testUrl callbacksOnly 0 afterOpen) <> Some 1%nat)
    by (vm_compute; discriminate).
  split; [rewrite Href; vm_compute; reflexivity|].
  split; [exact (Hother 1%nat Heff) | vm_compute; reflexivity].
Defined.


(** ** What each event does to the timers, to [retryCount] and to data *)

Lemma signalled_fields {T : Type} (options : UseSSEOptions T) (w : World T) :
  signalled options w =
  mkWorld ERROR (data w) (Some connectionError) (retryCount w)
    (eventSourceRef w) (retryTimeoutRef w) (isMounted w) (effectSource w)
    (sources w) (timers w) (nextTimeoutId w)
    (calls w ++ (if onError options then [OnError None] else [])).
Proof.
  unfold signalled. destruct (onError options); apply world_ext; simpl;
    rewrite ?app_nil_r; reflexivity.
Qed.

(** The three ways the error handler of a mounted hook can end. *)
Lemma errorHandler_cases {T : Type}
    (Math_pow : spec_float -> nat -> spec_float) (options : UseSSEOptions T)
    (rc : nat) (rnd : spec_float) (w : World T) :
  isMounted w = true ->
  (shouldRetryNow options connectionError rc = false /\
   errorHandler Math_pow options rc rnd w = signalled options w) \/
  (shouldRetryNow options connectionError rc = true /\
   maxAttempts (retryConfig options) <= inject_Z (Z.of_nat rc) /\
   errorHandler Math_pow options rc rnd w =
     setError (Some (maxRetryExceeded options))
       (setStatus ERROR (signalled options w))) \/
  (shouldRetryNow options connectionError rc = true /\
   inject_Z (Z.of_nat rc) < maxAttempts (retryConfig options) /\
   errorHandler Math_pow options rc rnd w =
     setRetryTimeout (calculateRetryDelay Math_pow (retryConfig options) rc rnd) rc
       (signalled options w)).
Proof.
  intros Hm. rewrite (errorHandler_mounted Math_pow options rc rnd w Hm).
  destruct (shouldRetryNow options connectionError rc); [|left; auto].
  right. unfold attemptReconnect. rewrite isMounted_signalled, Hm. cbn [negb].
  destruct (Qle_bool _ _) eqn:E.
  - left. apply Qle_bool_iff in E. auto.
  - right. apply Qle_bool_false_lt in E. auto.
Qed.

Lemma openHandler_frame {T : Type} (options : UseSSEOptions T) (w : World T) :
  timers (openHandler options w) = timers w /\
  data (openHandler options w) = data w /\
  (retryCount (openHandler options w) = retryCount w \/
   retryCount (openHandler options w) = 0%nat).
Proof.
  unfold openHandler. destruct (isMounted w); cbn [negb]; [|auto].
  destruct (onOpen options); simpl; auto.
Qed.

Lemma messageHandler_timers {T : Type} (JSON_parse : string -> option (option T))
    (options : UseSSEOptions T) (payload : string) (w : World T) :
  timers (messageHandler JSON_parse options payload w) = timers w.
Proof.
  unfold messageHandler, reportParseError.
  destruct (isMounted w); cbn [negb]; [|auto].
  destruct (decode JSON_parse options payload);
    [destruct (onMessage options) as [outcome|];
       [destruct (outcome payload)|] |];
    destruct (onError options); reflexivity.
Qed.

Lemma messageHandler_data {T : Type} (JSON_parse : string -> option (option T))
    (options : UseSSEOptions T) (payload : string) (w : World T) :
  data (messageHandler JSON_parse options payload w) = data w \/
  exists d, decode JSON_parse options payload = Some d /\
            data (messageHandler JSON_parse options payload w) = d.
Proof.
  unfold messageHandler, reportParseError.
  destruct (isMounted w); cbn [negb]; [|auto].
  destruct (decode JSON_parse options payload) as [d|].
  - right. exists d. split; [reflexivity|].
    destruct (onMessage options) as [outcome|]; [|reflexivity].
    destruct (outcome payload); destruct (onError options); reflexivity.
  - left. destruct (onError options); reflexivity.
Qed.

Lemma errorHandler_timers {T : Type}
    (Math_pow : spec_float -> nat -> spec_float) (options : UseSSEOptions T)
    (rc : nat) (rnd : spec_float) (w : World T) :
  data (errorHandler Math_pow options rc rnd w) = data w /\
  (timers (errorHandler Math_pow options rc rnd w) = timers w \/
   (isMounted w = true /\
    shouldRetryNow options connectionError rc = true /\
    inject_Z (Z.of_nat rc) < maxAttempts (retryConfig options) /\
    timers (errorHandler Math_pow options rc rnd w) =
      timers w ++ [mkTimeout (nextTimeoutId w)
                     (calculateRetryDelay Math_pow (retryConfig options) rc rnd) rc])).
Proof.
  destruct (isMounted w) eqn:Hm.
  - destruct (errorHandler_cases Math_pow options rc rnd w Hm)
      as [(Hs & ->) | [(Hs & Hx & ->) | (Hs & Hx & ->)]];
      rewrite signalled_fields; simpl; auto.
    split; [reflexivity|]. right. auto.
  - unfold errorHandler. rewrite Hm. cbn [negb]. auto.
Qed.

Lemma fireTimer_frame {T : Type} (url : string) (options : UseSSEOptions T)
    (id : nat) (w : World T) :
  data (fireTimer url options id w) = data w /\
  (forall t, In t (timers (fireTimer url options id w)) -> In t (timers w)) /\
  (retryCount (fireTimer url options id w) = retryCount w \/
   exists t, In t (timers w) /\
             retryCount (fireTimer url options id w) = S (tm_attempt t)).
Proof.
  unfold fireTimer. destruct (find _ (timers w)) as [t|] eqn:Hf; [|auto].
  apply find_some in Hf. destruct Hf as [Hin _].
  unfold retryCallback. destruct (isMounted (clearTimeout id w)); cbn [negb].
  - rewrite createEventSource_fields. simpl. repeat split.
    + intros t' H. apply filter_In in H. tauto.
    + right. exists t. split; [exact Hin | lia].
  - simpl. repeat split; auto.
    intros t' H. apply filter_In in H. tauto.
Qed.

Lemma uncancelled_incl {T : Type} (w : World T) (t : Timeout) :
  In t (uncancelled w) -> In t (timers w).
Proof.
  unfold uncancelled. destruct (retryTimeoutRef w); [|auto].
  intros H. apply filter_In in H. tauto.
Qed.

Lemma close_frame {T : Type} (options : UseSSEOptions T) (w : World T) :
  data (close options w) = data w /\
  timers (close options w) = uncancelled w /\
  retryCount (close options w) = retryCount w.
Proof.
  destruct (eventSourceRef w) as [sse|] eqn:Href.
  - rewrite (close_with_handle options sse w Href). simpl. auto.
  - rewrite (close_without_handle options w Href), clearRetryTimeout_fields.
    simpl. auto.
Qed.

(** Where the timers of the next state come from. *)
Lemma handle_timers {T : Type}
    (Math_pow : spec_float -> nat -> spec_float) (JSON_parse : string -> option (option T))
    (url : string) (options : UseSSEOptions T) (ev : Event) (w : World T)
    (t : Timeout) :
  In t (timers (handle Math_pow JSON_parse url options ev w)) ->
  In t (timers w) \/
  exists sse rnd rc,
    ev = Signal_error sse rnd /\ listening sse w = Some rc /\
    isMounted w = true /\
    shouldRetryNow options connectionError rc = true /\
    inject_Z (Z.of_nat rc) < maxAttempts (retryConfig options) /\
    t = mkTimeout (nextTimeoutId w)
          (calculateRetryDelay Math_pow (retryConfig options) rc rnd) rc.
Proof.
  destruct ev as [sse|sse name payload|sse rnd|id| |rcr| |]; cbn [handle].
  - destruct (listening sse w); [|auto].
    destruct (openHandler_frame options w) as (-> & _). auto.
  - destruct (listening sse w); [|auto].
    destruct (String.eqb name (boundEventName options)); [|auto].
    rewrite messageHandler_timers. auto.
  - destruct (listening sse w) as [rc|] eqn:Hl; [|auto].
    destruct (errorHandler_timers Math_pow options rc rnd w)
      as (_ & [-> | (Hm & Hs & Hx & ->)]); [auto|].
    intros Hin. apply in_app_or in Hin. destruct Hin as [Hin | [<- | []]]; [auto|].
    right. exists sse, rnd, rc. auto 10.
  - intros Hin. left. now apply (fireTimer_frame url options id w).
  - destruct (close_frame options w) as (_ & -> & _).
    intros Hin. left. now apply uncancelled_incl.
  - rewrite reconnect_fields. simpl. auto.
  - rewrite effectBody_fields, effectCleanup_fields. simpl.
    intros Hin. left. now apply uncancelled_incl.
  - rewrite effectCleanup_fields. simpl.
    intros Hin. left. now apply uncancelled_incl.
Qed.

(** X12.  Only an error signal schedules a retry: after any other event
    every pending timer was pending before.  The open signal, a message
    and [reconnect()] leave the pending timers exactly as they are, so a
    retry scheduled earlier still fires after the connection has opened. *)
Theorem only_error_signals_schedule_retries {T : Type}
    (Math_pow : spec_float -> nat -> spec_float)
    (JSON_parse : string -> option (option T)) (url : string)
    (options : UseSSEOptions T) (w : World T) :
  (forall ev, (forall sse rnd, ev <> Signal_error sse rnd) ->
     forall t, In t (timers (handle Math_pow JSON_parse url options ev w)) ->
               In t (timers w)) /\
  (forall sse,
     timers (handle Math_pow JSON_parse url options (Signal_open sse) w) = timers w) /\
  (forall sse name payload,
     timers (handle Math_pow JSON_parse url options (Signal_message sse name payload) w)
     = timers w) /\
  (forall rc,
     timers (handle Math_pow JSON_parse url options (Call_reconnect rc) w) = timers w).
Proof.
  repeat apply conj.
  - intros ev Hev t Hin.
    destruct (handle_timers Math_pow JSON_parse url options ev w t Hin)
      as [H | (sse & rnd & rc & -> & _)]; [exact H|].
    exfalso. exact (Hev sse rnd eq_refl).
  - intros sse. cbn [handle]. destruct (listening sse w); [|reflexivity].
    apply openHandler_frame.
  - intros sse name payload. cbn [handle]. destruct (listening sse w); [|reflexivity].
    destruct (String.eqb name (boundEventName options)); [|reflexivity].
    apply messageHandler_timers.
  - intros rc. cbn [handle]. rewrite reconnect_fields. reflexivity.
Qed.

Lemma only_error_signals_schedule_retries_witness :
  map tm_id (timers (handle powByMultiplying parseLiteral testUrl callbacksOnly (Signal_open 0)
                       afterFirstError)) = [1%nat].
Proof.
  rewrite (proj1 (proj2 (only_error_signals_schedule_retries powByMultiplying parseLiteral testUrl
                           callbacksOnly afterFirstError)) 0%nat).
  vm_compute. reflexivity.
Defined.

Lemma handle_data {T : Type}
    (Math_pow : spec_float -> nat -> spec_float) (JSON_parse : string -> option (option T))
    (url : string) (options : UseSSEOptions T) (ev : Event) (w : World T) :
  data (handle Math_pow JSON_parse url options ev w) = data w \/
  exists sse name payload d,
    ev = Signal_message sse name payload /\
    decode JSON_parse options payload = Some d /\
    data (handle Math_pow JSON_parse url options ev w) = d.
Proof.
  destruct ev as [sse|sse name payload|sse rnd|id| |rcr| |]; cbn [handle].
  - destruct (listening sse w); [|auto]. left. apply openHandler_frame.
  - destruct (listening sse w); [|auto].
    destruct (String.eqb name (boundEventName options)); [|auto].
    destruct (messageHandler_data JSON_parse options payload w) as [H | (v & Hd & H)];
      [auto|].
    right. exists sse, name, payload, v. auto.
  - destruct (listening sse w) as [rc|]; [|auto].
    left. apply errorHandler_timers.
  - left. apply fireTimer_frame.
  - left. apply close_frame.
  - left. rewrite reconnect_fields. reflexivity.
  - left. rewrite effectBody_fields, effectCleanup_fields. reflexivity.
  - left. rewrite effectCleanup_fields. reflexivity.
Qed.

(** X13.  Only a message that decodes changes the data: through errors,
    retries, close, reconnect, effect runs and unmount the data stays what
    it was, and a message that decodes replaces it by the decoded value,
    which is [null] for a payload that decodes to [null]. *)
Theorem data_changes_only_by_messages {T : Type}
    (Math_pow : spec_float -> nat -> spec_float) (JSON_parse : string -> option (option T))
    (url : string) (options : UseSSEOptions T) (w : World T) :
  (forall evs,
     (forall sse name payload, ~ In (Signal_message sse name payload) evs) ->
     data (run Math_pow JSON_parse url options evs w) = data w) /\
  (forall ev,
     data (handle Math_pow JSON_parse url options ev w) = data w \/
     exists sse name payload d,
       ev = Signal_message sse name payload /\
       decode JSON_parse options payload = Some d /\
       data (handle Math_pow JSON_parse url options ev w) = d).
Proof.
  split; [|intros ev; apply handle_data].
  intros evs. revert w. induction evs as [|ev evs IH]; intros w Hno; simpl.
  - reflexivity.
  - rewrite IH.
    + destruct (handle_data Math_pow JSON_parse url options ev w)
        as [H | (sse & name & payload & d & -> & _ & _)]; [exact H|].
      exfalso. apply (Hno sse name payload). now left.
    + intros sse name payload Hin. apply (Hno sse name payload). now right.
Qed.

(** A value received, then an error, a close, a reconnect and the
    unmount. *)
Lemma data_changes_only_by_messages_witness :
  let w := handle powByMultiplying parseLiteral testUrl callbacksOnly
             (Signal_message 0 "message" "true") afterOpen in
  data (run powByMultiplying parseLiteral testUrl callbacksOnly
          [Signal_error 0 half; Call_close; Call_reconnect 0; Unmount] w)
  = Some JTrue.
Proof.
  cbv zeta.
  assert (Hd : data (handle powByMultiplying parseLiteral testUrl callbacksOnly
                       (Signal_message 0 "message" "true") afterOpen) = Some JTrue)
    by (vm_compute; reflexivity).
  rewrite <- Hd.
  apply (proj1 (data_changes_only_by_messages powByMultiplying parseLiteral
                  testUrl callbacksOnly _)).
  intros sse name payload [H | [H | [H | [H | []]]]]; discriminate.
Defined.


(** ** One connection at a time *)

Lemma reachable_run {T : Type}
    (Math_pow : spec_float -> nat -> spec_float) (JSON_parse : string -> option (option T))
    (url : string) (options : UseSSEOptions T) (evs : list Event) (w : World T) :
  reachable Math_pow JSON_parse url options w ->
  reachable Math_pow JSON_parse url options (run Math_pow JSON_parse url options evs w).
Proof.
  intros [evs0 ->]. exists (evs0 ++ evs). unfold run. now rewrite fold_left_app.
Qed.

Lemma reachable_afterFirstError :
  reachable powByMultiplying parseLiteral testUrl callbacksOnly afterFirstError.
Proof. exists [Signal_error 0 half]. reflexivity. Qed.

(** X14.  In every reachable state at most one [EventSource] is open, and
    it is the one the ref holds: [createEventSource] closes the current
    one before it opens another. *)
Theorem at_most_one_open_source {T : Type}
    (Math_pow : spec_float -> nat -> spec_float) (JSON_parse : string -> option (option T))
    (url : string) (options : UseSSEOptions T) (w : World T) :
  reachable Math_pow JSON_parse url options w ->
  forall i j si sj,
    nth_error (sources w) i = Some si -> es_closed si = false ->
    nth_error (sources w) j = Some sj -> es_closed sj = false ->
    i = j /\ eventSourceRef w = Some i.
Proof.
  intros Hr i j si sj Hi Hli Hj Hlj.
  destruct (invariant_reachable Math_pow JSON_parse url options w Hr) as (HA & _).
  pose proof (HA i si Hi Hli) as Ei. pose proof (HA j sj Hj Hlj) as Ej.
  split; [congruence | exact Ei].
Qed.

(** After a retry fired and the effect ran again, three sources exist and
    the last one only is open. *)
Lemma at_most_one_open_source_witness :
  let w := run powByMultiplying parseLiteral testUrl callbacksOnly
             [Timer_fires 1; Effect_rerun] afterFirstError in
  map es_closed (sources w) = [true; true; false] /\
  eventSourceRef w = Some 2%nat.
Proof.
  cbv zeta.
  assert (Hsrc : nth_error (sources (run powByMultiplying parseLiteral testUrl callbacksOnly
                    [Timer_fires 1; Effect_rerun] afterFirstError)) 2 =
                 Some (mkEventSource testUrl None false (Some 1%nat)))
    by (vm_compute; reflexivity).
  assert (Hr : reachable powByMultiplying parseLiteral testUrl callbacksOnly
                 (run powByMultiplying parseLiteral testUrl callbacksOnly
                    [Timer_fires 1; Effect_rerun] afterFirstError)).
  { apply reachable_run. exact reachable_afterFirstError. }
  destruct (at_most_one_open_source powByMultiplying parseLiteral testUrl callbacksOnly _ Hr
              2%nat 2%nat _ _ Hsrc eq_refl Hsrc eq_refl) as (_ & Href).
  split; [vm_compute; reflexivity | exact Href].
Defined.

(** X15.  After [close()] no source delivers anything: in a reachable
    state every handler that is still bound sits on a closed source, so no
    open, message or error signal changes the state any more. *)
Theorem closed_hook_handles_no_signal {T : Type}
    (Math_pow : spec_float -> nat -> spec_float)
    (JSON_parse : string -> option (option T)) (url : string)
    (options : UseSSEOptions T) (w : World T) :
  reachable Math_pow JSON_parse url options w ->
  let w' := close options w in
  (forall sse, listening sse w' = None) /\
  (forall sse, handle Math_pow JSON_parse url options (Signal_open sse) w' = w') /\
  (forall sse name payload,
     handle Math_pow JSON_parse url options (Signal_message sse name payload) w' = w') /\
  (forall sse rnd, handle Math_pow JSON_parse url options (Signal_error sse rnd) w' = w').
Proof.
  intros Hr w'.
  assert (Hl : forall sse, listening sse w' = None).
  { intros sse. subst w'.
    destruct (invariant_reachable Math_pow JSON_parse url options w Hr) as (HA & _).
    unfold listening.
    destruct (eventSourceRef w) as [cur|] eqn:Href.
    - rewrite (close_with_handle options cur w Href). simpl.
      rewrite nth_error_updateAt.
      destruct (Nat.eqb_spec cur sse) as [->|Hne].
      + destruct (nth_error (sources w) sse); reflexivity.
      + destruct (nth_error (sources w) sse) as [src|] eqn:Hsrc; [|reflexivity].
        destruct (es_closed src) eqn:Hc; [reflexivity|].
        pose proof (HA sse src Hsrc Hc). congruence.
    - rewrite (close_without_handle options w Href), clearRetryTimeout_fields.
      simpl.
      destruct (nth_error (sources w) sse) as [src|] eqn:Hsrc; [|reflexivity].
      destruct (es_closed src) eqn:Hc; [reflexivity|].
      pose proof (HA sse src Hsrc Hc). congruence. }
  repeat apply conj; [exact Hl | ..]; intros; cbn [handle]; now rewrite Hl.
Qed.

Lemma closed_hook_handles_no_signal_witness :
  handle powByMultiplying parseLiteral testUrl callbacksOnly (Signal_open 0)
    (close callbacksOnly afterFirstError) = close callbacksOnly afterFirstError.
Proof.
  exact (proj1 (proj2 (closed_hook_handles_no_signal powByMultiplying parseLiteral testUrl
                         callbacksOnly afterFirstError
                         reachable_afterFirstError)) 0%nat).
Defined.

(** X16.  [reconnect()] always ends with an open connection in the ref,
    with the handlers bound to it, status [CONNECTING] and [retryCount]
    zero, also after [close()] or after the retries ran out.  It keeps the
    last error and the last data: the error is not cleared before the
    open signal. *)
Theorem reconnect_restores_a_connection {T : Type} (url : string)
    (options : UseSSEOptions T) (rc : nat) (w : World T) :
  let w' := reconnect url options rc w in
  liveHandle w' /\
  eventSourceRef w' = Some (List.length (sources w)) /\
  listening (List.length (sources w)) w' <> None /\
  status w' = CONNECTING /\
  retryCount w' = 0%nat /\
  error w' = error w /\
  data w' = data w /\
  isMounted w' = isMounted w.
Proof.
  intros w'. subst w'. rewrite reconnect_fields.
  pose proof (bound_new_source url options rc w) as Hnew.
  unfold liveHandle, listening. simpl. rewrite Hnew. simpl.
  repeat apply conj; try reflexivity; [|discriminate].
  exists (List.length (sources w)),
    (mkEventSource url (withCredentials options) false (Some rc)).
  split; [reflexivity | split; [exact Hnew | reflexivity]].
Qed.

(** ** The effect running again *)

(** X17.  When React runs the effect again, the cleanup and then the
    body, the hook is mounted, a new connection is open with the handlers
    bound to it, holding the current [retryCount]; the retry the timer ref
    held is cancelled; the status is [CONNECTING]; data, error and
    [retryCount] are kept. *)
Theorem effect_rerun_rebinds_handlers {T : Type}
    (Math_pow : spec_float -> nat -> spec_float)
    (JSON_parse : string -> option (option T)) (url : string)
    (options : UseSSEOptions T) (w : World T) :
  let w' := handle Math_pow JSON_parse url options Effect_rerun w in
  isMounted w' = true /\
  liveHandle w' /\
  eventSourceRef w' = Some (List.length (sources w)) /\
  effectSource w' = Some (List.length (sources w)) /\
  listening (List.length (sources w)) w' = Some (retryCount w) /\
  (forall t, In t (timers w') ->
     In t (timers w) /\ retryTimeoutRef w <> Some (tm_id t)) /\
  status w' = CONNECTING /\
  data w' = data w /\ error w' = error w /\ retryCount w' = retryCount w.
Proof.
  intros w'. subst w'. cbn [handle].
  rewrite effectBody_fields.
  pose proof (bound_new_source url options (retryCount (effectCleanup w))
                (effectCleanup w)) as Hnew.
  assert (Hlen : List.length (sources (effectCleanup w)) = List.length (sources w)).
  { rewrite effectCleanup_fields. simpl. unfold sourcesAfterCleanup.
    destruct (effectSource w); [|reflexivity]. now rewrite !length_updateAt. }
  assert (Hrc : retryCount (effectCleanup w) = retryCount w)
    by (rewrite effectCleanup_fields; reflexivity).
  rewrite Hlen, Hrc in *.
  unfold liveHandle, listening. simpl. rewrite Hnew. simpl.
  repeat apply conj; try reflexivity.
  - exists (List.length (sources w)),
      (mkEventSource url (withCredentials options) false (Some (retryCount w))).
    split; [reflexivity | split; [exact Hnew | reflexivity]].
  - intros t Hin. rewrite effectCleanup_fields in Hin. simpl in Hin.
    split; [now apply uncancelled_incl | now apply uncancelled_drops_referenced].
  - rewrite effectCleanup_fields. reflexivity.
  - rewrite effectCleanup_fields. reflexivity.
Qed.


(** ** The retry budget *)

Lemma handle_retryCount {T : Type}
    (Math_pow : spec_float -> nat -> spec_float) (JSON_parse : string -> option (option T))
    (url : string) (options : UseSSEOptions T) (ev : Event) (w : World T) :
  retryCount (handle Math_pow JSON_parse url options ev w) = retryCount w \/
  retryCount (handle Math_pow JSON_parse url options ev w) = 0%nat \/
  exists t, In t (timers w) /\
            retryCount (handle Math_pow JSON_parse url options ev w) = S (tm_attempt t).
Proof.
  destruct ev as [sse|sse name payload|sse rnd|id| |rcr| |]; cbn [handle].
  - destruct (listening sse w); [|auto].
    destruct (openHandler_frame options w) as (_ & _ & [H|H]); auto.
  - destruct (listening sse w); [|auto].
    destruct (String.eqb name (boundEventName options)); [|auto].
    left. apply messageHandler_session.
  - destruct (listening sse w) as [rc|]; [|auto].
    left. apply errorHandler_session.
  - destruct (fireTimer_frame url options id w) as (_ & _ & [H|H]); auto.
  - left. apply close_frame.
  - right. left. rewrite reconnect_fields. reflexivity.
  - left. rewrite effectBody_fields, effectCleanup_fields. reflexivity.
  - left. rewrite effectCleanup_fields. reflexivity.
Qed.

Lemma retryBudgetKept_handle {T : Type}
    (Math_pow : spec_float -> nat -> spec_float) (JSON_parse : string -> option (option T))
    (url : string) (options : UseSSEOptions T) (ev : Event) (w : World T) :
  retryBudgetKept options w ->
  retryBudgetKept options (handle Math_pow JSON_parse url options ev w).
Proof.
  intros [Ht Hr]. split.
  - intros t Hin.
    destruct (handle_timers Math_pow JSON_parse url options ev w t Hin)
      as [H | (sse & rnd & rc & _ & _ & _ & _ & Hlt & ->)]; [auto | exact Hlt].
  - destruct (handle_retryCount Math_pow JSON_parse url options ev w)
      as [E | [E | (t & Hin & E)]]; rewrite E; [exact Hr | now left |].
    right. exists (tm_attempt t). split; [reflexivity | now apply Ht].
Qed.

(** X18.  The retry budget is kept in every reachable state: each pending
    retry was scheduled for an attempt below [maxAttempts], and
    [retryCount] is zero or one more than such an attempt.  With a whole
    number of attempts [m] as [maxAttempts], [retryCount] never exceeds
    [m]. *)
Theorem retry_budget_is_kept {T : Type}
    (Math_pow : spec_float -> nat -> spec_float) (JSON_parse : string -> option (option T))
    (url : string) (options : UseSSEOptions T) (w : World T) :
  reachable Math_pow JSON_parse url options w ->
  (forall t, In t (timers w) ->
     inject_Z (Z.of_nat (tm_attempt t)) < maxAttempts (retryConfig options)) /\
  (retryCount w = 0%nat \/
   exists attempt, retryCount w = S attempt /\
     inject_Z (Z.of_nat attempt) < maxAttempts (retryConfig options)) /\
  (forall m : nat,
     maxAttempts (retryConfig options) == inject_Z (Z.of_nat m) ->
     (retryCount w <= m)%nat).
Proof.
  intros [evs ->].
  assert (H : retryBudgetKept options (run Math_pow JSON_parse url options evs (mount url options))).
  { assert (H0 : retryBudgetKept options (mount url options)).
    { split; [intros t []| now left]. }
    revert H0. generalize (mount url options).
    induction evs as [|ev evs IH]; intros w H0; simpl; [exact H0|].
    apply IH. now apply retryBudgetKept_handle. }
  destruct H as [Ht Hr]. repeat apply conj; [exact Ht | exact Hr |].
  intros m Hm. destruct Hr as [-> | (a & -> & Ha)]; [lia|].
  rewrite Hm in Ha. rewrite <- Zlt_Qlt in Ha. lia.
Qed.

Lemma retry_budget_is_kept_witness :
  (retryCount (run powByMultiplying parseLiteral testUrl callbacksOnly
                 [Timer_fires 1; Effect_rerun; Signal_error 2 quarter]
                 afterFirstError) <= 3)%nat.
Proof.
  apply (retry_budget_is_kept powByMultiplying parseLiteral testUrl callbacksOnly).
  - apply reachable_run. exact reachable_afterFirstError.
  - vm_compute. reflexivity.
Defined.

(** ** Retries in a row *)

Lemma settled_mount {T : Type} (url : string) (options : UseSSEOptions T) :
  settled 0 (mount url options).
Proof.
  repeat split. exists 0%nat. split; reflexivity.
Qed.

(** Once the effect has run again with no retry pending, the hook is
    settled at its [retryCount]. *)
Lemma rerun_settles {T : Type} (url : string) (options : UseSSEOptions T)
    (w : World T) :
  timers w = [] ->
  settled (retryCount w) (effectBody url options (effectCleanup w)) /\
  status (effectBody url options (effectCleanup w)) = CONNECTING.
Proof.
  intros Ht. rewrite effectBody_fields.
  pose proof (bound_new_source url options (retryCount (effectCleanup w))
                (effectCleanup w)) as Hnew.
  assert (Hrc : retryCount (effectCleanup w) = retryCount w)
    by (rewrite effectCleanup_fields; reflexivity).
  assert (Htm : timers (effectCleanup w) = []).
  { rewrite effectCleanup_fields. simpl. unfold uncancelled. rewrite Ht.
    now destruct (retryTimeoutRef w). }
  rewrite Hrc in *. unfold settled, listening. simpl.
  repeat apply conj; try reflexivity; try assumption.
  exists (List.length (sources (effectCleanup w))).
  split; [reflexivity|]. rewrite Hnew. reflexivity.
Qed.

(** The error signal of a settled hook with attempts left. *)
Lemma settled_error {T : Type}
    (Math_pow : spec_float -> nat -> spec_float) (JSON_parse : string -> option (option T)) (url : string)
    (options : UseSSEOptions T) (k sse : nat) (rnd : spec_float) (w : World T) :
  settled k w ->
  eventSourceRef w = Some sse ->
  shouldRetryNow options connectionError k = true ->
  inject_Z (Z.of_nat k) < maxAttempts (retryConfig options) ->
  let w1 := handle Math_pow JSON_parse url options (Signal_error sse rnd) w in
  isMounted w1 = true /\
  timers w1 = [mkTimeout (nextTimeoutId w)
                 (calculateRetryDelay Math_pow (retryConfig options) k rnd) k] /\
  status w1 = ERROR /\
  error w1 = Some connectionError.
Proof.
  intros (Hm & Hrc & Ht & sse' & Href & Hl) Hsse Hs Hlt w1. subst w1.
  assert (sse' = sse) by congruence. subst sse'.
  cbn [handle]. rewrite Hl.
  destruct (errorHandler_cases Math_pow options k rnd w Hm)
    as [(Hs' & _) | [(_ & Hx & _) | (_ & _ & ->)]].
  - congruence.
  - exfalso. exact (Qlt_not_le _ _ Hlt Hx).
  - rewrite signalled_fields. simpl. rewrite Ht. repeat split. exact Hm.
Qed.

Lemma fire_the_only_timer {T : Type} (url : string) (options : UseSSEOptions T)
    (t : Timeout) (w : World T) :
  isMounted w = true ->
  timers w = [t] ->
  let w2 := fireTimer url options (tm_id t) w in
  retryCount w2 = S (tm_attempt t) /\ timers w2 = [] /\ isMounted w2 = true.
Proof.
  intros Hm Ht w2. subst w2.
  unfold fireTimer. rewrite Ht. simpl. rewrite Nat.eqb_refl.
  unfold retryCallback.
  replace (isMounted (clearTimeout (tm_id t) w)) with true by (symmetry; exact Hm).
  cbn [negb]. rewrite createEventSource_fields. simpl.
  rewrite Ht. simpl. rewrite Nat.eqb_refl. simpl.
  repeat split; [lia | exact Hm].
Qed.

Lemma retry_cycle_settles {T : Type}
    (Math_pow : spec_float -> nat -> spec_float) (JSON_parse : string -> option (option T))
    (url : string) (options : UseSSEOptions T) (k sse : nat) (rnd : spec_float)
    (w : World T) :
  settled k w ->
  eventSourceRef w = Some sse ->
  shouldRetryNow options connectionError k = true ->
  inject_Z (Z.of_nat k) < maxAttempts (retryConfig options) ->
  settled (S k)
    (run Math_pow JSON_parse url options (retryCycle sse rnd (nextTimeoutId w)) w) /\
  status (run Math_pow JSON_parse url options (retryCycle sse rnd (nextTimeoutId w)) w)
    = CONNECTING.
Proof.
  intros Hset Hsse Hs Hlt.
  destruct (settled_error Math_pow JSON_parse url options k sse rnd w Hset Hsse Hs Hlt)
    as (Hm1 & Ht1 & _).
  unfold retryCycle, run. cbn [fold_left].
  set (w1 := handle Math_pow JSON_parse url options (Signal_error sse rnd) w) in *.
  destruct (fire_the_only_timer url options _ w1 Hm1 Ht1) as (Hr2 & Ht2 & _).
  cbn [tm_id tm_attempt] in Hr2, Ht2.
  cbn [handle].
  destruct (rerun_settles url options
              (fireTimer url options (nextTimeoutId w) w1) Ht2) as (Hset3 & Hst3).
  rewrite Hr2 in Hset3. split; assumption.
Qed.

Lemma autoRetry_settles {T : Type}
    (Math_pow : spec_float -> nat -> spec_float) (JSON_parse : string -> option (option T))
    (url : string) (options : UseSSEOptions T) (rnds : list spec_float) :
  (forall a, shouldRetryNow options connectionError a = true) ->
  forall (k : nat) (w : World T),
    settled k w ->
    inject_Z (Z.of_nat (k + List.length rnds)) <= maxAttempts (retryConfig options) ->
    settled (k + List.length rnds) (autoRetry Math_pow JSON_parse url options rnds w).
Proof.
  intros Hs. induction rnds as [|rnd rest IH]; intros k w Hset Hmax; simpl.
  - now rewrite Nat.add_0_r.
  - destruct Hset as (Hm & Hrc & Ht & sse & Href & Hl).
    rewrite Href.
    assert (Hset : settled k w) by (repeat split; eauto).
    assert (Hlt : inject_Z (Z.of_nat k) < maxAttempts (retryConfig options)).
    { eapply Qlt_le_trans; [|exact Hmax]. rewrite <- Zlt_Qlt. simpl. lia. }
    destruct (retry_cycle_settles Math_pow JSON_parse url options k sse rnd w
                Hset Href (Hs k) Hlt) as (Hset' & _).
    replace (k + S (List.length rest))%nat with (S k + List.length rest)%nat by lia.
    apply IH; [exact Hset'|].
    replace (S k + List.length rest)%nat with (k + S (List.length rest))%nat by lia.
    exact Hmax.
Qed.

(** X19.  Retries in a row count up.  From a freshly mounted hook, let
    [n] times an error signal arrive on the current source, the timer it
    scheduled fire, and the effect run again.  With a [shouldRetry] that
    always agrees and [n <= maxAttempts], [retryCount] is then [n], no
    retry is pending and the handlers of the current source hold [n]; and
    the retry scheduled by a hook that has fired [k] retries waits the
    delay of attempt [k]. *)
Theorem retryCount_counts_fired_retries {T : Type}
    (Math_pow : spec_float -> nat -> spec_float)
    (JSON_parse : string -> option (option T)) (url : string)
    (options : UseSSEOptions T) :
  (forall a, shouldRetryNow options connectionError a = true) ->
  (forall rnds : list spec_float,
     inject_Z (Z.of_nat (List.length rnds)) <= maxAttempts (retryConfig options) ->
     let w := autoRetry Math_pow JSON_parse url options rnds (mount url options) in
     retryCount w = List.length rnds /\ timers w = [] /\ isMounted w = true /\
     exists sse, eventSourceRef w = Some sse /\
                 listening sse w = Some (List.length rnds)) /\
  (forall k sse rnd (w : World T),
     settled k w -> eventSourceRef w = Some sse ->
     inject_Z (Z.of_nat k) < maxAttempts (retryConfig options) ->
     timers (handle Math_pow JSON_parse url options (Signal_error sse rnd) w) =
       [mkTimeout (nextTimeoutId w)
          (calculateRetryDelay Math_pow (retryConfig options) k rnd) k]).
Proof.
  intros Hs. split.
  - intros rnds Hmax w.
    destruct (autoRetry_settles Math_pow JSON_parse url options rnds Hs 0
                (mount url options) (settled_mount url options) Hmax)
      as (Hm & Hrc & Ht & Hex).
    subst w. simpl in *. auto.
  - intros k sse rnd w Hset Href Hlt.
    apply (settled_error Math_pow JSON_parse url options k sse rnd w Hset Href (Hs k) Hlt).
Qed.

(** The default configuration and its three attempts. *)
Lemma retryCount_counts_fired_retries_witness :
  retryCount (autoRetry powByMultiplying parseLiteral testUrl callbacksOnly
                [half; quarter; tenth] (mount testUrl callbacksOnly)) = 3%nat.
Proof.
  assert (Hs : forall a, shouldRetryNow callbacksOnly connectionError a = true)
    by reflexivity.
  assert (Hmax : inject_Z (Z.of_nat (List.length [half; quarter; tenth])) <=
                 maxAttempts (retryConfig callbacksOnly))
    by (vm_compute; discriminate).
  exact (proj1 (proj1 (retryCount_counts_fired_retries powByMultiplying parseLiteral testUrl
                         callbacksOnly Hs) [half; quarter; tenth] Hmax)).
Defined.

